(** * CP-MDP solvers of [pymdptoolbox/mdp.py]: a shallow embedding

    The module [mdp.py] solves Markov decision processes stored in the
    compact form: for every action [a] and state [s] a chunk of successor
    indices and a chunk of probabilities of the same length.

    Modelling choices.
    - Python floats and numpy [float64] are exact rationals ([Q]): no
      rounding, no NaN.  The one place where the source reaches an
      infinity ([_boundIter], division by a zero span) is written out.
    - A numpy 1-D array is a [list]; an index array is a [list nat]
      (successor indices are never negative).
    - Python exceptions are the constructors of [error]; a function that
      may raise returns a [result].  [Fuel] is not a Python exception: it
      marks a [while True] loop cut by the fuel of the model.
    - The arguments [shape], [terminals] and [obstacles] are stored and
      never read by [mdp.py]; the typed constructors leave them out.
    - Reward inputs are numpy arrays of dimension 1 or 2; the per-action
      matrix form ([_computeMatrixReward]) is reached in this model only
      through the fallback of [_computeReward], where it raises. *)

From Stdlib Require Import List Bool Arith ZArith QArith Qround Qabs Lia.
Import ListNotations.

Set Implicit Arguments.

(** ** Exceptions and results *)

Inductive error : Type :=
| TypeError
| ValueError
| IndexError
| AssertionError
| OverflowError
| ZeroDivisionError
| NotImplementedError.

Inductive result (A : Type) : Type :=
| Ok (a : A)
| Err (e : error)
| Fuel.

Arguments Ok {A} a.
Arguments Err {A} e.
Arguments Fuel {A}.

Definition bind {A B : Type} (r : result A) (k : A -> result B) : result B :=
  match r with
  | Ok a => k a
  | Err e => Err e
  | Fuel => Fuel
  end.

Notation "x <- c ;; k" := (bind c (fun x => k))
  (at level 61, c at next level, right associativity).
Notation "' pat <- c ;; k" := (bind c (fun x => match x with pat => k end))
  (at level 61, pat pattern, c at next level, right associativity).

Fixpoint mapM {A B : Type} (f : A -> result B) (l : list A) : result (list B) :=
  match l with
  | [] => Ok []
  | x :: t => y <- f x ;; ys <- mapM f t ;; Ok (y :: ys)
  end.

(** [assert c, msg] *)
Definition assert (c : bool) : result unit :=
  if c then Ok tt else Err AssertionError.

(** ** Arrays *)

(** [x[i]] on a sequence: [IndexError] out of range. *)
Definition getitem {A : Type} (l : list A) (i : nat) : result A :=
  match nth_error l i with
  | Some x => Ok x
  | None => Err IndexError
  end.

(** [V[idx]] with an index array [idx]. *)
Definition take {A : Type} (V : list A) (idx : list nat) : result (list A) :=
  mapM (getitem V) idx.

Definition Qlt_bool (x y : Q) : bool := negb (Qle_bool y x).

Fixpoint Qsum (l : list Q) : Q :=
  match l with
  | [] => 0
  | x :: t => x + Qsum t
  end.

(** [_np.dot(p, v)] on two 1-D arrays: [ValueError] when the lengths
    differ. *)
Definition dot (p v : list Q) : result Q :=
  if Nat.eqb (length p) (length v)
  then Ok (Qsum (map (fun pv => fst pv * snd pv) (combine p v)))
  else Err ValueError.

(** [array.max()], [array.min()]: [ValueError] on an empty array. *)
Definition Qmax (x y : Q) : Q := if Qle_bool x y then y else x.
Definition Qmin (x y : Q) : Q := if Qle_bool x y then x else y.

Definition amax (l : list Q) : result Q :=
  match l with
  | [] => Err ValueError
  | x :: t => Ok (fold_left Qmax t x)
  end.

Definition amin (l : list Q) : result Q :=
  match l with
  | [] => Err ValueError
  | x :: t => Ok (fold_left Qmin t x)
  end.

(** [array.argmax()]: the index of the first occurrence of the maximum. *)
Fixpoint argmax_from (bi : nat) (b : Q) (i : nat) (l : list Q) : nat :=
  match l with
  | [] => bi
  | x :: t =>
      if Qlt_bool b x then argmax_from i x (S i) t
      else argmax_from bi b (S i) t
  end.

Definition argmax (l : list Q) : result nat :=
  match l with
  | [] => Err ValueError
  | x :: t => Ok (argmax_from 0%nat x 1%nat t)
  end.

(** [getSpan(array)] *)
Definition getSpan (l : list Q) : result Q :=
  hi <- amax l ;;
  lo <- amin l ;;
  Ok (hi - lo).

(** [x - y] on two 1-D arrays of the same length (or one of length 1,
    which numpy broadcasts). *)
Definition asub (x y : list Q) : result (list Q) :=
  if Nat.eqb (length x) (length y)
  then Ok (map (fun xy => fst xy - snd xy) (combine x y))
  else if Nat.eqb (length y) 1
  then Ok (map (fun a => a - nth 0 y 0) x)
  else if Nat.eqb (length x) 1
  then Ok (map (fun b => nth 0 x 0 - b) y)
  else Err ValueError.

(** [_np.zeros(n)] *)
Definition zeros (n : nat) : list Q := repeat 0 n.

(** [_np.split(arr, n)] with an integer [n]: [n] chunks of equal length.
    With [n = 0] numpy computes [len(arr) % 0] and raises
    [ZeroDivisionError]; with an [n] that does not divide the length it
    raises [ValueError]. *)
Fixpoint chunks {A : Type} (c n : nat) (l : list A) : list (list A) :=
  match n with
  | O => []
  | S n' => firstn c l :: chunks c n' (skipn c l)
  end.

Definition split {A : Type} (l : list A) (n : nat) : result (list (list A)) :=
  match n with
  | O => Err ZeroDivisionError
  | _ =>
      if Nat.eqb (length l mod n) 0
      then Ok (chunks (length l / n) n l)
      else Err ValueError
  end.

(** ** The base class [MDP] *)

(** The reward argument [R]: a numpy array of dimension 1 or 2
    ([reward[s][a]] in the second case); [sparse] is
    [_sp.issparse(reward)]. *)
Inductive reward_input : Type :=
| RewardVector (sparse : bool) (r : list Q)
| RewardArray (sparse : bool) (r : list (list Q)).

Record MDP : Type := mkMDP {
  discount : Q;
  max_iter : Z;
  epsilon : Q;
  S_ : nat;
  A_ : nat;
  states : nat;
  R : list (list Q);
  split_succ_s : list (list (list nat));
  split_probability : list (list (list Q));
  iter : nat;
  V : option (list Q);
  policy : option (list nat);
  thresh : option Q;
  iterations_list : list Q;
  v_list : list (list Q)
}.

Definition set_V (m : MDP) (v : list Q) : MDP :=
  mkMDP (discount m) (max_iter m) (epsilon m) (S_ m) (A_ m) (states m) (R m)
        (split_succ_s m) (split_probability m) (iter m) (Some v) (policy m)
        (thresh m) (iterations_list m) (v_list m).

Definition set_policy (m : MDP) (p : list nat) : MDP :=
  mkMDP (discount m) (max_iter m) (epsilon m) (S_ m) (A_ m) (states m) (R m)
        (split_succ_s m) (split_probability m) (iter m) (V m) (Some p)
        (thresh m) (iterations_list m) (v_list m).

Definition set_iter (m : MDP) (i : nat) : MDP :=
  mkMDP (discount m) (max_iter m) (epsilon m) (S_ m) (A_ m) (states m) (R m)
        (split_succ_s m) (split_probability m) i (V m) (policy m)
        (thresh m) (iterations_list m) (v_list m).

Definition set_max_iter (m : MDP) (n : Z) : MDP :=
  mkMDP (discount m) n (epsilon m) (S_ m) (A_ m) (states m) (R m)
        (split_succ_s m) (split_probability m) (iter m) (V m) (policy m)
        (thresh m) (iterations_list m) (v_list m).

Definition set_thresh (m : MDP) (t : Q) : MDP :=
  mkMDP (discount m) (max_iter m) (epsilon m) (S_ m) (A_ m) (states m) (R m)
        (split_succ_s m) (split_probability m) (iter m) (V m) (policy m)
        (Some t) (iterations_list m) (v_list m).

Definition log_variation (m : MDP) (variation : Q) (v : list Q) : MDP :=
  mkMDP (discount m) (max_iter m) (epsilon m) (S_ m) (A_ m) (states m) (R m)
        (split_succ_s m) (split_probability m) (iter m) (V m) (policy m)
        (thresh m) (iterations_list m ++ [variation]) (v_list m ++ [v]).

Definition log_v (m : MDP) (v : list Q) : MDP :=
  mkMDP (discount m) (max_iter m) (epsilon m) (S_ m) (A_ m) (states m) (R m)
        (split_succ_s m) (split_probability m) (iter m) (V m) (policy m)
        (thresh m) (iterations_list m) (v_list m ++ [v]).

(** [_computeDimensions(transition)] on a sequence of 1-D arrays:
    [A = len(transition)], [S = transition[0].shape[0]]. *)
Definition _computeDimensions (transition : list (list nat)) : result (nat * nat) :=
  t0 <- getitem transition 0 ;;
  Ok (length t0, length transition).

(** [array.reshape(n)] on an array of [length l] elements. *)
Definition reshape {A : Type} (l : list A) (n : nat) : result (list A) :=
  if Nat.eqb (length l) n then Ok l else Err ValueError.

(** [MDP._computeVectorReward]: the same vector for every action. *)
Definition _computeVectorReward (states A : nat) (sparse : bool) (reward : list Q)
  : result (list (list Q)) :=
  if sparse then Err NotImplementedError
  else r <- reshape reward states ;; Ok (repeat r A).

(** [MDP._computeArrayReward]: column [a] of a 2-D array (the list of its
    rows, all of one length) is the reward of action [a]. *)
Definition _computeArrayReward (states A : nat) (sparse : bool) (reward : list (list Q))
  : result (list (list Q)) :=
  if sparse then Err NotImplementedError
  else mapM (fun a => col <- mapM (fun row => getitem row a) reward ;;
                      reshape col states) (seq 0 A).

(** [MDP._computeMatrixReward] on a pair of 1-D operands (an entry or row
    of the reward and the flat successor array of one action):
    [_np.multiply(transition, reward).sum(1)] sums along an axis that a
    1-D product does not have, which raises numpy's [AxisError], a
    [ValueError]. *)
Definition _computeMatrixReward (reward : list Q) (transition : list nat) : result (list Q) :=
  Err ValueError.

(** [MDP._computeReward]: dispatch on [reward.ndim]; a [ValueError] of the
    first attempt is caught and the reward is tried again, as per-action
    matrices when [len(reward) == A] and as a vector otherwise. *)
Definition _computeReward (states A : nat) (reward : reward_input)
           (transition : list (list nat)) : result (list (list Q)) :=
  match reward with
  | RewardVector sp r =>
      match _computeVectorReward states A sp r with
      | Err ValueError =>
          if Nat.eqb (length r) A
          then mapM (fun rt => _computeMatrixReward [fst rt] (snd rt)) (combine r transition)
          else _computeVectorReward states A sp r
      | other => other
      end
  | RewardArray sp r =>
      match _computeArrayReward states A sp r with
      | Err ValueError =>
          if Nat.eqb (length r) A
          then mapM (fun rt => _computeMatrixReward (fst rt) (snd rt)) (combine r transition)
          else _computeVectorReward states A sp (concat r)
      | other => other
      end
  end.

(** The arguments of [MDP.__init__] that the module reads. *)
Record mdp_args : Type := mkArgs {
  arg_succ_s : list (list nat);
  arg_probability_s : list (list Q);
  arg_R : reward_input;
  arg_states : nat;
  arg_discount : Q;
  arg_epsilon : Q;
  arg_max_iter : Z
}.

(** [MDP.__init__] *)
Definition MDP_init (x : mdp_args) : result MDP :=
  _ <- assert (Qlt_bool 0 (arg_discount x) && Qle_bool (arg_discount x) 1) ;;
  _ <- assert (0 <? arg_max_iter x)%Z ;;
  _ <- assert (Qlt_bool 0 (arg_epsilon x)) ;;
  ' (nS, nA) <- _computeDimensions (arg_succ_s x) ;;
  rw <- _computeReward (arg_states x) nA (arg_R x) (arg_succ_s x) ;;
  sp <- mapM (fun aa =>
                sa <- getitem (arg_succ_s x) aa ;;
                cs <- split sa (arg_states x) ;;
                pa <- getitem (arg_probability_s x) aa ;;
                cp <- split pa (arg_states x) ;;
                Ok (cs, cp)) (seq 0 nA) ;;
  Ok (mkMDP (arg_discount x) (arg_max_iter x) (arg_epsilon x) nS nA (arg_states x) rw
            (map fst sp) (map snd sp) 0 None None None [] []).

(** ** The Bellman operator *)

(** One entry of the table [Q]:
    [R[a][s1] + discount * dot(split_probability[a][s1], V[split_succ_s[a][s1]])]. *)
Definition q_entry (m : MDP) (v : list Q) (a s1 : nat) : result Q :=
  Ra <- getitem (R m) a ;;
  r <- getitem Ra s1 ;;
  Pa <- getitem (split_probability m) a ;;
  p <- getitem Pa s1 ;;
  Sa <- getitem (split_succ_s m) a ;;
  sc <- getitem Sa s1 ;;
  vs <- take v sc ;;
  d <- dot p vs ;;
  Ok (r + discount m * d).

Definition q_table (m : MDP) (v : list Q) : result (list (list Q)) :=
  mapM (fun a => mapM (q_entry m v a) (seq 0 (states m))) (seq 0 (A_ m)).

(** Column [s] of the table: the values of the actions at state [s]. *)
Definition column (Qt : list (list Q)) (s : nat) : list Q :=
  map (fun row => nth s row 0) Qt.

(** [MDP._bellmanOperator(V)]: [V = None] takes the stored [self.V]
    unchecked; a given [V] must have shape [(states,)]. *)
Definition _bellmanOperator (m : MDP) (Varg : option (list Q))
  : result (list nat * list Q) :=
  v <- match Varg with
       | None => match V m with
                 | Some v => Ok v
                 | None => Err TypeError
                 end
       | Some v => _ <- assert (Nat.eqb (length v) (states m)) ;; Ok v
       end ;;
  Qt <- q_table m v ;;
  pol <- mapM (fun s => argmax (column Qt s)) (seq 0 (states m)) ;;
  val <- mapM (fun s => amax (column Qt s)) (seq 0 (states m)) ;;
  Ok (pol, val).

(** [self.V], set by every solver's constructor. *)
Definition get_V (m : MDP) : result (list Q) :=
  match V m with
  | Some v => Ok v
  | None => Err TypeError
  end.

Definition get_policy (m : MDP) : result (list nat) :=
  match policy m with
  | Some p => Ok p
  | None => Err TypeError
  end.

Definition get_thresh (m : MDP) : result Q :=
  match thresh m with
  | Some t => Ok t
  | None => Err TypeError
  end.

(** [x[i] = y] on an array: [IndexError] out of range. *)
Fixpoint setitem {A : Type} (l : list A) (i : nat) (y : A) : result (list A) :=
  match l, i with
  | [], _ => Err IndexError
  | _ :: t, O => Ok (y :: t)
  | x :: t, S j => t' <- setitem t j y ;; Ok (x :: t')
  end.

(** ** Value iteration: the bound on the iterations and the two loops *)

Section ValueIteration.

(** [_math.log] on the positive rationals. *)
Variable log : Q -> Q.

(** [CpMdpValueIteration._boundIter].  [k = 1 - h.sum()] with [h] a zero
    vector.  When the span is zero the float quotient is [inf], its
    logarithm is [inf], the quotient by the negative [log(discount * k)]
    is [-inf], and [_math.ceil] raises [OverflowError]. *)
Definition _boundIter (m : MDP) (eps : Q) : result MDP :=
  let k := 1 - Qsum (zeros (states m)) in
  Vprev <- get_V m ;;
  ' (_, value) <- _bellmanOperator m None ;;
  d <- asub value Vprev ;;
  span <- getSpan d ;;
  if Qeq_bool span 0 then Err OverflowError
  else
    let bound := log (eps * (1 - discount m) / discount m / span)
                 / log (discount m * k) in
    Ok (set_max_iter m (Qceiling bound)).

(** The end of both value-iteration constructors: the bound and the
    threshold. *)
Definition init_threshold (m : MDP) (eps : Q) : result MDP :=
  if Qlt_bool (discount m) 1 then
    m1 <- _boundIter m eps ;;
    Ok (set_thresh m1 (eps * (1 - discount m1) / discount m1))
  else Ok (set_thresh m eps).

(** [CpMdpValueIterationGS.__init__]; [initial_value = None] stands for
    the default [0], a given one is a Python list of floats. *)
Definition CpMdpValueIterationGS_init (x : mdp_args) (initial_value : option (list Q))
  : result MDP :=
  m <- MDP_init x ;;
  m1 <- match initial_value with
        | None => Ok (set_V m (zeros (states m)))
        | Some v =>
            if negb (Nat.eqb (length v) (states m)) then Err ValueError
            else Ok (set_V m v)
        end ;;
  init_threshold m1 (arg_epsilon x).

(** The values of the actions at state [s1] under the value function [v]:
    the list [Q] of both passes of [CpMdpValueIterationGS.run]. *)
Definition q_state (m : MDP) (v : list Q) (s1 : nat) : result (list Q) :=
  mapM (fun a => q_entry m v a s1) (seq 0 (A_ m)).

(** One sweep of the loop: [self.V[s1] = max(Q)] for every state in
    turn, in place. *)
Fixpoint gs_sweep (m : MDP) (ss : list nat) (v : list Q) : result (list Q) :=
  match ss with
  | [] => Ok v
  | s1 :: rest =>
      Qs <- q_state m v s1 ;;
      mx <- amax Qs ;;
      v1 <- setitem v s1 mx ;;
      gs_sweep m rest v1
  end.

(** The pass after the loop: [self.V[s1] = Q.max()] in place and
    [self.policy.append(int(Q.argmax()))]. *)
Fixpoint gs_final_pass (m : MDP) (ss : list nat) (v : list Q) (pol : list nat)
  : result (list Q * list nat) :=
  match ss with
  | [] => Ok (v, pol)
  | s1 :: rest =>
      Qs <- q_state m v s1 ;;
      mx <- amax Qs ;;
      v1 <- setitem v s1 mx ;;
      am <- argmax Qs ;;
      gs_final_pass m rest v1 (pol ++ [am])
  end.

(** [range(len(self.split_succ_s[0]))] *)
Definition state_range (m : MDP) : result (list nat) :=
  s0 <- getitem (split_succ_s m) 0 ;;
  Ok (seq 0 (length s0)).

(** The [while True] loop of [CpMdpValueIterationGS.run]. *)
Fixpoint gs_loop (fuel : nat) (m : MDP) : result MDP :=
  match fuel with
  | O => Fuel
  | S f =>
      let m1 := set_iter m (S (iter m)) in
      Vprev <- get_V m1 ;;
      ss <- state_range m1 ;;
      v <- gs_sweep m1 ss Vprev ;;
      let m2 := set_V m1 v in
      d <- asub v Vprev ;;
      variation <- getSpan d ;;
      let m3 := log_variation m2 variation v in
      th <- get_thresh m3 ;;
      if Qlt_bool variation th then Ok m3
      else if Z.eqb (Z.of_nat (iter m3)) (max_iter m3) then Ok m3
      else gs_loop f m3
  end.

(** [CpMdpValueIterationGS.run] *)
Definition CpMdpValueIterationGS_run (fuel : nat) (m : MDP) : result MDP :=
  v0 <- get_V m ;;
  m1 <- gs_loop fuel (log_v m v0) ;;
  v <- get_V m1 ;;
  ss <- state_range m1 ;;
  ' (v1, pol) <- gs_final_pass m1 ss v [] ;;
  Ok (set_policy (set_V m1 v1) pol).

(** The [while True] loop of [CpMdpValueIteration.run]. *)
Fixpoint vi_loop (fuel : nat) (m : MDP) : result MDP :=
  match fuel with
  | O => Fuel
  | S f =>
      let m1 := set_iter m (S (iter m)) in
      Vprev <- get_V m1 ;;
      ' (pol, v) <- _bellmanOperator m1 None ;;
      let m2 := set_V (set_policy m1 pol) v in
      d <- asub v Vprev ;;
      variation <- getSpan d ;;
      let m3 := log_variation m2 variation v in
      th <- get_thresh m3 ;;
      if Qlt_bool variation th then Ok m3
      else if Z.eqb (Z.of_nat (iter m3)) (max_iter m3) then Ok m3
      else vi_loop f m3
  end.

(** [CpMdpValueIteration.run] *)
Definition CpMdpValueIteration_run (fuel : nat) (m : MDP) : result MDP :=
  vi_loop fuel m.

(** *** The call of [MDP.__init__] by position *)

(** The Python values that reach a constructor. *)
Inductive pyval : Type :=
| PyOpaque
| PyInt (z : Z)
| PyFloat (q : Q)
| PyIndexArrays (l : list (list nat))
| PyFloatArrays (l : list (list Q))
| PyReward (r : reward_input).

Definition as_index_arrays (v : pyval) : result (list (list nat)) :=
  match v with PyIndexArrays l => Ok l | _ => Err TypeError end.

Definition as_float_arrays (v : pyval) : result (list (list Q)) :=
  match v with PyFloatArrays l => Ok l | _ => Err TypeError end.

Definition as_reward (v : pyval) : result reward_input :=
  match v with PyReward r => Ok r | _ => Err TypeError end.

Definition as_float (v : pyval) : result Q :=
  match v with
  | PyFloat q => Ok q
  | PyInt z => Ok (inject_Z z)
  | _ => Err TypeError
  end.

(** [int(x)] on a float: truncation towards zero. *)
Definition Qtruncate (q : Q) : Z :=
  if Qle_bool 0 q then Qfloor q else Qceiling q.

Definition as_int (v : pyval) : result Z :=
  match v with
  | PyInt z => Ok z
  | PyFloat q => Ok (Qtruncate q)
  | _ => Err TypeError
  end.

Definition as_count (v : pyval) : result nat :=
  match v with
  | PyInt z => if (z <? 0)%Z then Err ValueError else Ok (Z.to_nat z)
  | _ => Err TypeError
  end.

(** [MDP.__init__(self, shape, terminals, obstacles, succ_s,
    probability_s, R, states, discount, epsilon, max_iter)] called with
    positional arguments: the signature has ten parameters after [self]
    and no default, so any other number of arguments is a [TypeError]. *)
Definition MDP_init_call (args : list pyval) : result MDP :=
  match args with
  | [_shape; _terminals; _obstacles; succ_s; probability_s; Rarg; states_;
     discount_; epsilon_; max_iter_] =>
      ss <- as_index_arrays succ_s ;;
      ps <- as_float_arrays probability_s ;;
      rw <- as_reward Rarg ;;
      n <- as_count states_ ;;
      d <- as_float discount_ ;;
      e <- as_float epsilon_ ;;
      mi <- as_int max_iter_ ;;
      MDP_init (mkArgs ss ps rw n d e mi)
  | _ => Err TypeError
  end.

(** [CpMdpValueIteration.__init__(self, transitions, reward, shape,
    succ_s, discount, epsilon, max_iter, initial_value)]: the base
    constructor is called with these seven arguments. *)
Definition CpMdpValueIteration_init
           (transitions reward shape succ_s discount_ epsilon_ max_iter_ : pyval)
           (initial_value : option (list Q)) : result MDP :=
  m <- MDP_init_call [transitions; reward; shape; succ_s; discount_; epsilon_; max_iter_] ;;
  m1 <- match initial_value with
        | None => Ok (set_V m (zeros (states m)))
        | Some v =>
            _ <- assert (Nat.eqb (length v) (states m)) ;;
            v' <- reshape v (states m) ;;
            Ok (set_V m v')
        end ;;
  eps <- as_float epsilon_ ;;
  init_threshold m1 eps.

End ValueIteration.

(** ** Policy iteration *)

(** The argument [policy0] after [_np.array(policy0)]: an array of
    dimension 1, or of dimension 2 given by its rows. *)
Inductive ndarray : Type :=
| Arr1 (l : list Q)
| Arr2 (rows : list (list Q)).

Definition row_length (rows : list (list Q)) : nat := length (hd [] rows).

Definition rectangular (rows : list (list Q)) : bool :=
  forallb (fun r => Nat.eqb (length r) (row_length rows)) rows.

Definition shape (a : ndarray) : list nat :=
  match a with
  | Arr1 l => [length l]
  | Arr2 rows => [length rows; row_length rows]
  end.

Definition flat (a : ndarray) : list Q :=
  match a with
  | Arr1 l => l
  | Arr2 rows => concat rows
  end.

(** [_np.array] refuses rows of different lengths. *)
Definition np_array (a : ndarray) : result ndarray :=
  match a with
  | Arr1 _ => Ok a
  | Arr2 rows => if rectangular rows then Ok a else Err ValueError
  end.

Fixpoint shape_eqb (x y : list nat) : bool :=
  match x, y with
  | [], [] => true
  | a :: x', b :: y' => Nat.eqb a b && shape_eqb x' y'
  | _, _ => false
  end.

(** [_np.mod(x, 1)] *)
Definition Qmod1 (x : Q) : Q := x - inject_Z (Qfloor x).

Definition nat_of_Q (x : Q) : nat := Z.to_nat (Qfloor x).
Definition Q_of_nat (n : nat) : Q := inject_Z (Z.of_nat n).

(** The validation of [policy0] in [CpMdpPolicyIteration.__init__], with
    [nS] the attribute [self.S].  The entries that pass are integers
    and are kept as naturals. *)
Definition check_policy0 (nS : nat) (policy0 : ndarray) : result (list nat) :=
  p <- np_array policy0 ;;
  _ <- assert (existsb (shape_eqb (shape p)) [[nS]; [nS; 1%nat]; [1%nat; nS]]) ;;
  v <- reshape (flat p) nS ;;
  _ <- assert (negb (existsb (fun x => negb (Qeq_bool (Qmod1 x) 0)) v)) ;;
  _ <- assert (forallb (fun x => Qle_bool 0 x) v) ;;
  _ <- assert (forallb (fun x => Qlt_bool x (Q_of_nat nS)) v) ;;
  Ok (map nat_of_Q v).

(** [CpMdpPolicyIteration.__init__] *)
Definition CpMdpPolicyIteration_init (x : mdp_args) (policy0 : option ndarray)
  : result MDP :=
  m <- MDP_init x ;;
  m1 <- match policy0 with
        | None =>
            ' (pol, _) <- _bellmanOperator m (Some (zeros (states m))) ;;
            Ok (set_policy m pol)
        | Some p0 =>
            pol <- check_policy0 (S_ m) p0 ;;
            Ok (set_policy m pol)
        end ;;
  Ok (set_V m1 (zeros (states m1))).

(** [_np.asarray] on the per-action lists of chunks: a 3-D array when all
    chunks have one length, a [ValueError] otherwise. *)
Definition asarray3 {T : Type} (x : list (list (list T))) : result (list (list (list T))) :=
  let n := length (hd [] x) in
  let b := length (hd [] (hd [] x)) in
  if forallb (fun xa => Nat.eqb (length xa) n
                        && forallb (fun c => Nat.eqb (length c) b) xa) x
  then Ok x else Err ValueError.

(** [(self.policy == aa).nonzero()[0]] *)
Definition where_eq (pol : list nat) (aa : nat) : list nat :=
  filter (fun i => Nat.eqb (nth i pol 0%nat) aa) (seq 0 (length pol)).

(** numpy's broadcast of one row of length [length src] to length [n]. *)
Definition broadcast_row {T : Type} (n : nat) (src : list T) : result (list T) :=
  if Nat.eqb (length src) n then Ok src
  else match src with
       | [x] => Ok (repeat x n)
       | _ => Err ValueError
       end.

Fixpoint setitems {T : Type} (dst : list T) (ind : list nat) (vals : list T)
  : result (list T) :=
  match ind, vals with
  | i :: ind', y :: vals' => d1 <- setitem dst i y ;; setitems d1 ind' vals'
  | _, _ => Ok dst
  end.

(** [dst[ind] = src[ind]] on 2-D arrays whose rows have length [n] in
    [dst]: the rows taken from [src] are broadcast to that length. *)
Definition assign_rows {T : Type} (n : nat) (dst : list (list T)) (ind : list nat)
           (src : list (list T)) : result (list (list T)) :=
  rows <- take src ind ;;
  rows' <- mapM (broadcast_row n) rows ;;
  setitems dst ind rows'.

(** [Rpolicy[ind] = self.R[aa][ind]] *)
Definition assign_entries (dst : list Q) (ind : list nat) (src : list Q)
  : result (list Q) :=
  vals <- take src ind ;;
  setitems dst ind vals.

(** The body of the loop over the actions of [_computePpolicyPRpolicy]. *)
Fixpoint policy_rows (m : MDP) (pol : list nat) (actions : list nat)
         (acc : list Q * list (list nat) * list (list Q))
  : result (list Q * list (list nat) * list (list Q)) :=
  match actions with
  | [] => Ok acc
  | aa :: rest =>
      let '(Rpolicy, Ps, Pp) := acc in
      let ind := where_eq pol aa in
      match ind with
      | [] => policy_rows m pol rest acc
      | _ =>
          Sa <- getitem (split_succ_s m) aa ;;
          Ps1 <- assign_rows (A_ m - 1) Ps ind Sa ;;
          Pa <- getitem (split_probability m) aa ;;
          Pp1 <- assign_rows (A_ m - 1) Pp ind Pa ;;
          Ra <- getitem (R m) aa ;;
          Rp1 <- assign_entries Rpolicy ind Ra ;;
          policy_rows m pol rest (Rp1, Ps1, Pp1)
      end
  end.

(** [CpMdpPolicyIteration._computePpolicyPRpolicy]: the arrays of the
    policy are allocated with [A - 1] entries for every state. *)
Definition _computePpolicyPRpolicy (m : MDP)
  : result (list Q * list (list nat) * list (list Q)) :=
  _ <- (if Nat.eqb (A_ m) 0 then Err ValueError else Ok tt) ;;
  let Ppolicy_s := repeat 0%nat (states m * (A_ m - 1)) in
  let Ppolicy_p := zeros (states m * (A_ m - 1)) in
  let Rpolicy := zeros (states m) in
  split_Ppolicy_p <- split Ppolicy_p (states m) ;;
  split_Ppolicy_s <- split Ppolicy_s (states m) ;;
  _ <- asarray3 (split_succ_s m) ;;
  _ <- asarray3 (split_probability m) ;;
  pol <- get_policy m ;;
  policy_rows m pol (seq 0 (A_ m)) (Rpolicy, split_Ppolicy_s, split_Ppolicy_p).

(** One synchronous backup of the evaluation:
    [policy_R[s1] + discount * dot(probabilities_s[s1], Vprev[succ_s[s1]])]. *)
Definition eval_backup (m : MDP) (policy_R : list Q) (succ_s : list (list nat))
           (probabilities_s : list (list Q)) (Vprev : list Q) : result (list Q) :=
  mapM (fun s1 =>
          r <- getitem policy_R s1 ;;
          p <- getitem probabilities_s s1 ;;
          sc <- getitem succ_s s1 ;;
          vs <- take Vprev sc ;;
          d <- dot p vs ;;
          Ok (r + discount m * d)) (seq 0 (states m)).

(** [_np.absolute(policy_V - Vprev).max()] *)
Definition max_abs_diff (x y : list Q) : result Q :=
  d <- asub x y ;;
  amax (map Qabs d).

(** The [while not done] loop of [_evalPolicyIterative]; the result is
    the last value of [itr] with the last [policy_V]. *)
Fixpoint eval_loop (fuel : nat) (m : MDP) (policy_R : list Q)
         (succ_s : list (list nat)) (probabilities_s : list (list Q))
         (eps : Q) (cap : nat) (itr : nat) (policy_V : list Q)
  : result (nat * list Q) :=
  match fuel with
  | O => Fuel
  | S f =>
      let itr1 := S itr in
      let Vprev := policy_V in
      v <- eval_backup m policy_R succ_s probabilities_s Vprev ;;
      variation <- max_abs_diff v Vprev ;;
      if Qlt_bool variation (((1 - discount m) / discount m) * eps)
      then Ok (itr1, v)
      else if Nat.eqb itr1 cap then Ok (itr1, v)
      else eval_loop f m policy_R succ_s probabilities_s eps cap itr1 v
  end.

(** [CpMdpPolicyIteration._evalPolicyIterative(V0, epsilon, max_iter)];
    [V0 = None] stands for the default [0]. *)
Definition _evalPolicyIterative_with (fuel : nat) (m : MDP) (V0 : option (list Q))
           (eps : Q) (cap : nat) : result (nat * MDP) :=
  policy_V <- match V0 with
              | None => Ok (zeros (states m))
              | Some v => _ <- assert (Nat.eqb (length v) (states m)) ;; reshape v (states m)
              end ;;
  ' (policy_R, succ_s, probabilities_s) <- _computePpolicyPRpolicy m ;;
  ' (itr, v) <- eval_loop fuel m policy_R succ_s probabilities_s eps cap 0 policy_V ;;
  Ok (itr, set_V m v).

(** The defaults of the signature: [V0=0, epsilon=0.0001, max_iter=100]. *)
Definition eval_default_epsilon : Q := 1 # 10000.
Definition eval_default_max_iter : nat := 100.

(** [self._evalPolicyIterative()], as [run] calls it. *)
Definition _evalPolicyIterative (m : MDP) : result (nat * MDP) :=
  _evalPolicyIterative_with eval_default_max_iter m None
                            eval_default_epsilon eval_default_max_iter.

(** [(policy_next != self.policy).sum()], with numpy's broadcast of an
    array of length 1. *)
Definition count_neq (x y : list nat) : nat :=
  length (filter (fun xy => negb (Nat.eqb (fst xy) (snd xy))) (combine x y)).

Definition n_different (policy_next pol : list nat) : result nat :=
  if Nat.eqb (length policy_next) (length pol) then Ok (count_neq policy_next pol)
  else match policy_next, pol with
       | _, [y] => Ok (count_neq policy_next (repeat y (length policy_next)))
       | [x], _ => Ok (count_neq (repeat x (length pol)) pol)
       | _, _ => Err ValueError
       end.

(** Why the loop of [run] stopped. *)
Inductive stop_reason : Type :=
| Converged
| MaxIterReached.

Record pi_result : Type := mkPiResult {
  pi_final : MDP;
  pi_reason : stop_reason;
  pi_inner : list nat
}.

(** The [while True] loop of [CpMdpPolicyIteration.run]; [inner] collects
    the number of iterations of every evaluation. *)
Fixpoint pi_loop (fuel : nat) (m : MDP) (inner : list nat) : result pi_result :=
  match fuel with
  | O => Fuel
  | S f =>
      let m1 := set_iter m (S (iter m)) in
      ' (itr, m2) <- _evalPolicyIterative m1 ;;
      ' (policy_next, _) <- _bellmanOperator m2 None ;;
      pol <- get_policy m2 ;;
      nd <- n_different policy_next pol ;;
      if Nat.eqb nd 0 then Ok (mkPiResult m2 Converged (inner ++ [itr]))
      else if Z.eqb (Z.of_nat (iter m2)) (max_iter m2)
      then Ok (mkPiResult m2 MaxIterReached (inner ++ [itr]))
      else pi_loop f (set_policy m2 policy_next) (inner ++ [itr])
  end.

(** [CpMdpPolicyIteration.run] *)
Definition CpMdpPolicyIteration_run (fuel : nat) (m : MDP) : result pi_result :=
  pi_loop fuel m [].

(** * The notions of the properties *)

(** ** The solver state that the algorithms expect *)

Definition reward_of (m : MDP) (a s : nat) : Q := nth s (nth a (R m) []) 0.
Definition succ_of (m : MDP) (a s : nat) : list nat :=
  nth s (nth a (split_succ_s m) []) [].
Definition prob_of (m : MDP) (a s : nat) : list Q :=
  nth s (nth a (split_probability m) []) [].

(** The action value as the specification writes it:
    [Q(s,a) = reward[a][s] + discount * sum_i prob[a][s][i] * V[succ[a][s][i]]]. *)
Definition action_value (m : MDP) (v : list Q) (s a : nat) : Q :=
  reward_of m a s
  + discount m
    * Qsum (map (fun i => nth i (prob_of m a s) 0 * nth (nth i (succ_of m a s) 0%nat) v 0)
                (seq 0 (length (succ_of m a s)))).

(** The values of all actions at state [s]. *)
Definition action_values (m : MDP) (v : list Q) (s : nat) : list Q :=
  map (action_value m v s) (seq 0 (A_ m)).

(** The chunk of a state and an action: as many probabilities as
    successors, and every successor a state. *)
Definition chunk_ok (m : MDP) (a s : nat) : bool :=
  Nat.eqb (length (prob_of m a s)) (length (succ_of m a s))
  && forallb (fun j => Nat.ltb j (states m)) (succ_of m a s).

Definition action_ok (m : MDP) (a : nat) : bool :=
  Nat.eqb (length (nth a (R m) [])) (states m)
  && Nat.eqb (length (nth a (split_succ_s m) [])) (states m)
  && Nat.eqb (length (nth a (split_probability m) [])) (states m)
  && forallb (chunk_ok m a) (seq 0 (states m)).

(** A well-formed solver state: at least one action, a reward row and
    [states] chunks for every action. *)
Definition mdp_wf (m : MDP) : bool :=
  Nat.leb 1 (A_ m)
  && Nat.eqb (length (R m)) (A_ m)
  && Nat.eqb (length (split_succ_s m)) (A_ m)
  && Nat.eqb (length (split_probability m)) (A_ m)
  && forallb (action_ok m) (seq 0 (A_ m)).

Record wf_facts (m : MDP) : Prop := mkWfFacts {
  wf_A : (1 <= A_ m)%nat;
  wf_R : length (R m) = A_ m;
  wf_succ : length (split_succ_s m) = A_ m;
  wf_prob : length (split_probability m) = A_ m;
  wf_R_row : forall a, (a < A_ m)%nat -> length (nth a (R m) []) = states m;
  wf_succ_row : forall a, (a < A_ m)%nat -> length (nth a (split_succ_s m) []) = states m;
  wf_prob_row : forall a, (a < A_ m)%nat -> length (nth a (split_probability m) []) = states m;
  wf_chunk_len : forall a s, (a < A_ m)%nat -> (s < states m)%nat ->
                             length (prob_of m a s) = length (succ_of m a s);
  wf_chunk_rng : forall a s, (a < A_ m)%nat -> (s < states m)%nat ->
                             Forall (fun j => (j < states m)%nat) (succ_of m a s)
}.

(** [argmax] and [amax] as total functions, for a non-empty list. *)
Definition first_max_index (l : list Q) : nat :=
  match l with
  | [] => 0%nat
  | x :: t => argmax_from 0 x 1 t
  end.

Definition max_of (l : list Q) : Q :=
  match l with
  | [] => 0
  | x :: t => fold_left Qmax t x
  end.

(** The greedy policy and the backed-up value function. *)
Definition greedy_policy (m : MDP) (v : list Q) : list nat :=
  map (fun s => first_max_index (action_values m v s)) (seq 0 (states m)).

Definition backup (m : MDP) (v : list Q) : list Q :=
  map (fun s => max_of (action_values m v s)) (seq 0 (states m)).


(** What a run never writes: the model of the decision process and the
    configuration of the solve. *)
Record same_model (m m' : MDP) : Prop := mkSameModel {
  sm_discount : discount m' = discount m;
  sm_max_iter : max_iter m' = max_iter m;
  sm_epsilon : epsilon m' = epsilon m;
  sm_S : S_ m' = S_ m;
  sm_A : A_ m' = A_ m;
  sm_states : states m' = states m;
  sm_R : R m' = R m;
  sm_succ : split_succ_s m' = split_succ_s m;
  sm_prob : split_probability m' = split_probability m;
  sm_thresh : thresh m' = thresh m
}.

(** The scenario of one state and one action: a self-loop of
    probability 1, reward 5, discount 1/2, epsilon 0.01 and the default
    [max_iter] of the Gauss-Seidel solver. *)
Definition single_state_args : mdp_args :=
  mkArgs [[0%nat]] [[1]] (RewardVector false [5]) 1 (1 # 2) (1 # 100) 10.

(** Three states and two actions with one successor each: state 0
    stays, state 1 moves to state 0 or to state 2, state 2 stays; the
    reward vector is [10; 0; 15], the discount 1 and [max_iter] 1. *)
Definition three_state_args : mdp_args :=
  mkArgs [[0; 0; 2]; [0; 2; 2]]%nat [[1; 1; 1]; [1; 1; 1]]
         (RewardVector false [10; 0; 15]) 3 1 (1 # 100) 1.

Definition three_state_model : MDP :=
  mkMDP 1 1 (1 # 100) 3 2 3 [[10; 0; 15]; [10; 0; 15]]
        [[[0]; [0]; [2]]; [[0]; [2]; [2]]]%nat
        [[[1]; [1]; [1]]; [[1]; [1]; [1]]]
        0 None None None [] [].

(** *** The starting policy *)

Definition is_integer (x : Q) : Prop := exists z : Z, x == inject_Z z.

(** An array of shape [(n,)], [(n, 1)] or [(1, n)]. *)
Definition shape_accepted (n : nat) (p : ndarray) : Prop :=
  match p with
  | Arr1 _ => True
  | Arr2 rows => rectangular rows = true
  end /\
  (shape p = [n] \/ shape p = [n; 1%nat] \/ shape p = [1%nat; n]).

(** What the constructor accepts as [policy0]: the shape, integer
    entries, and every entry in [[0, bound)]. *)
Definition policy0_within (n bound : nat) (p : ndarray) : Prop :=
  shape_accepted n p /\
  Forall is_integer (flat p) /\
  Forall (fun x => 0 <= x /\ x < Q_of_nat bound) (flat p).

(** Two states and one action, each state staying where it is. *)
Definition two_state_args : mdp_args :=
  mkArgs [[0; 1]]%nat [[1; 1]] (RewardVector false [0; 0]) 2 (1 # 2) (1 # 100) 1.

(** *** The pass after the loop of the Gauss-Seidel solver *)

(** [l] with the entry at position [i] replaced by [y]. *)
Fixpoint update {A : Type} (l : list A) (i : nat) (y : A) : list A :=
  match l, i with
  | [], _ => []
  | _ :: t, O => y :: t
  | x :: t, S j => x :: update t j y
  end.

(** The value function after the pass has handled the states below [k]:
    the entry of every handled state is the maximum of its action values,
    computed from the value function as it was when its turn came. *)
Fixpoint final_prefix (m : MDP) (v : list Q) (k : nat) : list Q :=
  match k with
  | O => v
  | S k' =>
      let w := final_prefix m v k' in
      update w k' (max_of (action_values m w k'))
  end.

(** The action that the pass appends for state [s]. *)
Definition final_action (m : MDP) (v : list Q) (s : nat) : nat :=
  first_max_index (action_values m (final_prefix m v s) s).

(** The number of states that the Gauss-Seidel passes visit:
    [len(self.split_succ_s[0])]. *)
Definition visited_states (m : MDP) : nat := length (nth 0 (split_succ_s m) []).

(** The Gauss-Seidel solver that the constructor builds on
    [three_state_args]: the discount is 1, so no bound is computed. *)
Definition three_state_gs : MDP :=
  set_thresh (set_V three_state_model (zeros 3)) (1 # 100).

(** That solver when the loop of [run] has stopped, after one sweep, and
    when [run] has returned. *)
Definition three_state_gs_loop : MDP :=
  log_variation (set_V (set_iter (log_v three_state_gs (zeros 3)) 1) [10; 10; 15])
                5 [10; 10; 15].

Definition three_state_gs_final : MDP :=
  set_policy (set_V three_state_gs_loop [20; 20; 30]) [0; 0; 0]%nat.

(** *** The solver state that policy iteration expects *)

(** The length of the chunks: the number of successors of a state under
    an action. *)
Definition chunk_length (m : MDP) : nat := length (succ_of m 0 0).

Definition uniform_chunks (m : MDP) : bool :=
  forallb (fun a => forallb (fun s => Nat.eqb (length (succ_of m a s)) (chunk_length m))
                            (seq 0 (states m)))
          (seq 0 (A_ m)).

(** The chunk length that the assignment of [_computePpolicyPRpolicy]
    takes: [A - 1], or 1, which numpy broadcasts. *)
Definition broadcastable (m : MDP) : bool :=
  Nat.eqb (chunk_length m) (A_ m - 1) || Nat.eqb (chunk_length m) 1.

(** A policy with one action index below [A] for every state. *)
Definition policy_ok (m : MDP) : bool :=
  match policy m with
  | Some pol => Nat.eqb (length pol) (states m) && forallb (fun a => Nat.ltb a (A_ m)) pol
  | None => false
  end.

Definition pi_shape (m : MDP) : bool :=
  mdp_wf m && Nat.leb 1 (states m) && uniform_chunks m && policy_ok m.

Definition pi_ready (m : MDP) : bool := pi_shape m && broadcastable m.

(** A chunk broadcast to [n] entries. *)
Definition broadcast_to {T : Type} (n : nat) (d : T) (src : list T) : list T :=
  if Nat.eqb (length src) n then src else repeat (nth 0 src d) n.

(** The reward of state [s] under the policy [pol]: [R[pol[s]][s]]. *)
Definition policy_reward (m : MDP) (pol : list nat) (s : nat) : Q :=
  reward_of m (nth s pol 0%nat) s.

(** *** The evaluation of a fixed policy *)

(** The backup of a fixed policy:
    [V[s] = Rpolicy[s] + discount * sum_i prob[s][i] * V[succ[s][i]]],
    where the successors and the probabilities of [s] are the lists of
    the action that the policy chooses in [s]; for all states at once. *)
Definition policy_backup (m : MDP) (pol : list nat) (v : list Q) : list Q :=
  map (fun s => action_value m v s (nth s pol 0%nat)) (seq 0 (states m)).

(** The value function after [k] backups from the zero vector. *)
Fixpoint policy_iterate (m : MDP) (pol : list nat) (k : nat) : list Q :=
  match k with
  | O => zeros (states m)
  | S k' => policy_backup m pol (policy_iterate m pol k')
  end.

(** [max |x - y|] of two arrays of the same length. *)
Definition max_abs_change (x y : list Q) : Q :=
  max_of (map Qabs (map (fun xy => fst xy - snd xy) (combine x y))).

(** The change of the [k]-th backup, [k >= 1]. *)
Definition variation_at (m : MDP) (pol : list nat) (k : nat) : Q :=
  max_abs_change (policy_iterate m pol k) (policy_iterate m pol (k - 1)).

(** The stopping rule of the evaluation with the accuracy [eps] and the
    cap [cap]: [n] is the first iteration whose change is below
    [((1 - discount) / discount) * eps], or [cap] when there is none
    before. *)
Definition stops_at (m : MDP) (pol : list nat) (eps : Q) (cap n : nat) : Prop :=
  (1 <= n <= cap)%nat /\
  (variation_at m pol n < ((1 - discount m) / discount m) * eps \/ n = cap) /\
  forall k, (1 <= k < n)%nat ->
            ~ variation_at m pol k < ((1 - discount m) / discount m) * eps.

(** *** The rows that [_computePpolicyPRpolicy] stores *)

(** The row that the assignment [Ppolicy_succ[ind] = split_succ_s[a][ind]]
    leaves for state [s]: the arrays of the source have [A - 1] entries
    for every state, and numpy writes a chunk of that length as it is
    and repeats the entry of a chunk of length 1.  These are the rows of
    the code, not the lists of the chosen action: the two differ
    whenever the chunk length is not [A - 1]. *)
Definition laid_out_succ (m : MDP) (pol : list nat) (s : nat) : list nat :=
  broadcast_to (A_ m - 1) 0%nat (succ_of m (nth s pol 0%nat) s).

Definition laid_out_prob (m : MDP) (pol : list nat) (s : nat) : list Q :=
  broadcast_to (A_ m - 1) 0 (prob_of m (nth s pol 0%nat) s).

(** What one iteration of [_evalPolicyIterative] computes from the
    stored rows. *)
Definition laid_out_backup (m : MDP) (pol : list nat) (v : list Q) : list Q :=
  map (fun s =>
         policy_reward m pol s
         + discount m
           * Qsum (map (fun i => nth i (laid_out_prob m pol s) 0
                                 * nth (nth i (laid_out_succ m pol s) 0%nat) v 0)
                       (seq 0 (length (laid_out_succ m pol s)))))
      (seq 0 (states m)).

Fixpoint laid_out_iterate (m : MDP) (pol : list nat) (k : nat) : list Q :=
  match k with
  | O => zeros (states m)
  | S k' => laid_out_backup m pol (laid_out_iterate m pol k')
  end.

Definition laid_out_variation (m : MDP) (pol : list nat) (k : nat) : Q :=
  max_abs_change (laid_out_iterate m pol k) (laid_out_iterate m pol (k - 1)).

Definition laid_out_stops_at (m : MDP) (pol : list nat) (eps : Q) (cap n : nat) : Prop :=
  (1 <= n <= cap)%nat /\
  (laid_out_variation m pol n < ((1 - discount m) / discount m) * eps \/ n = cap) /\
  forall k, (1 <= k < n)%nat ->
            ~ laid_out_variation m pol k < ((1 - discount m) / discount m) * eps.

(** Rows written one after the other. *)
Definition write_all {T : Type} (f : nat -> T) (ind : list nat) (dst : list T) : list T :=
  fold_left (fun d i => update d i (f i)) ind dst.

(** The arrays of [_computePpolicyPRpolicy] after the actions below [k]:
    the states whose action is below [k] hold their rows. *)
Definition rows_done (m : MDP) (pol : list nat) (k : nat)
           (acc : list Q * list (list nat) * list (list Q)) : Prop :=
  let '(Rp, Ps, Pp) := acc in
  length Rp = states m /\ length Ps = states m /\ length Pp = states m /\
  forall s, (s < states m)%nat -> (nth s pol 0%nat < k)%nat ->
            nth s Rp 0 = policy_reward m pol s /\
            nth s Ps [] = laid_out_succ m pol s /\
            nth s Pp [] = laid_out_prob m pol s.

(** One state and two actions, both staying, reward 5, discount 1/2,
    and a constructor epsilon of 1000. *)
Definition loose_epsilon_args : mdp_args :=
  mkArgs [[0]; [0]]%nat [[1]; [1]] (RewardVector false [5]) 1 (1 # 2) 1000 10.

(** One state and three actions, all staying: chunks of length 1 with
    [A - 1 = 2]. *)
Definition three_action_args : mdp_args :=
  mkArgs [[0]; [0]; [0]]%nat [[1]; [1]; [1]] (RewardVector false [0]) 1 (1 # 2) (1 # 100) 10.

(** One state and two actions with two successors each: chunks of
    length 2 with [A - 1 = 1]. *)
Definition two_successor_args : mdp_args :=
  mkArgs [[0; 0]; [0; 0]]%nat [[1; 0]; [1; 0]] (RewardVector false [5]) 1
         (1 # 2) (1 # 100) 10.

(** Two states and two actions with two successors each, every
    successor with probability 1/2: chunks of length 2 with [A - 1 = 1]. *)
Definition two_by_two_args : mdp_args :=
  mkArgs [[0; 1; 0; 1]; [1; 0; 1; 0]]%nat
         [[1 # 2; 1 # 2; 1 # 2; 1 # 2]; [1 # 2; 1 # 2; 1 # 2; 1 # 2]]
         (RewardVector false [1; 2]) 2 (1 # 2) (1 # 100) 10.

(** The policy-iteration solvers that the constructor builds on the
    inputs above, without a starting policy. *)
Definition loose_epsilon_pi : MDP :=
  mkMDP (1 # 2) 10 1000 1 2 1 [[5]; [5]] [[[0]]; [[0]]]%nat [[[1]]; [[1]]]
        0 (Some [0]) (Some [0%nat]) None [] [].

Definition three_action_pi : MDP :=
  mkMDP (1 # 2) 10 (1 # 100) 1 3 1 [[0]; [0]; [0]] [[[0]]; [[0]]; [[0]]]%nat
        [[[1]]; [[1]]; [[1]]] 0 (Some [0]) (Some [0%nat]) None [] [].

Definition two_successor_pi : MDP :=
  mkMDP (1 # 2) 10 (1 # 100) 2 2 1 [[5]; [5]] [[[0; 0]]; [[0; 0]]]%nat
        [[[1; 0]]; [[1; 0]]] 0 (Some [0]) (Some [0%nat]) None [] [].

Definition two_by_two_pi : MDP :=
  mkMDP (1 # 2) 10 (1 # 100) 4 2 2 [[1; 2]; [1; 2]]
        [[[0; 1]; [0; 1]]; [[1; 0]; [1; 0]]]%nat
        [[[1 # 2; 1 # 2]; [1 # 2; 1 # 2]]; [[1 # 2; 1 # 2]; [1 # 2; 1 # 2]]]
        0 (Some [0; 0]) (Some [0; 0]%nat) None [] [].

(** What a solver holds when [run] has returned: a policy and a value
    function with one entry for every state, every entry of the policy
    an action index. *)
Definition solved (m : MDP) : Prop :=
  exists pol v,
    policy m = Some pol /\ V m = Some v /\
    length pol = states m /\ length v = states m /\
    Forall (fun p => (0 <= p < A_ m)%nat) pol.

(** The number of states in which the candidate policy, greedy for the
    value function of the solver, differs from its policy. *)
Definition candidate_differences (m : MDP) : option nat :=
  match V m, policy m with
  | Some v, Some pol => Some (count_neq (greedy_policy m v) pol)
  | _, _ => None
  end.

(** How a run of policy iteration ends: with a candidate policy that
    differs nowhere, or, when it still differs, with the count of the
    iterations at [max_iter]. *)
Definition stopped_as (res : pi_result) : Prop :=
  match pi_reason res with
  | Converged => candidate_differences (pi_final res) = Some 0%nat
  | MaxIterReached =>
      Z.of_nat (iter (pi_final res)) = max_iter (pi_final res) /\
      candidate_differences (pi_final res) <> Some 0%nat
  end.

(** A solver state that the loops of value iteration can run on: a
    well-formed model with at least one state, a value function with one
    entry for every state and a threshold. *)
Definition vi_ready (m : MDP) : bool :=
  mdp_wf m && Nat.leb 1 (states m)
  && match V m with
     | Some v => Nat.eqb (length v) (states m)
     | None => false
     end
  && match thresh m with
     | Some _ => true
     | None => false
     end.

(** No probability of the model is negative. *)
Definition nonneg_probabilities (m : MDP) : bool :=
  forallb (forallb (forallb (Qle_bool 0))) (split_probability m).

(** The probabilities of every state and action sum to 1. *)
Definition unit_mass (m : MDP) : bool :=
  forallb (forallb (fun ch => Qeq_bool (Qsum ch) 1)) (split_probability m).
(** * Properties *)

(** ** The result monad and the arrays *)

Lemma bind_ok {A B : Type} (r : result A) (k : A -> result B) (b : B) :
  bind r k = Ok b -> exists a, r = Ok a /\ k a = Ok b.
Proof.
  destruct r as [a | e | ]; simpl; intro H; try discriminate.
  exists a. split; [reflexivity | exact H].
Qed.

Lemma bind_not_fuel {A B : Type} (r : result A) (k : A -> result B) :
  r <> Fuel -> (forall a, k a <> Fuel) -> bind r k <> Fuel.
Proof.
  destruct r as [a | e | ]; simpl; intros Hr Hk.
  - apply Hk.
  - discriminate.
  - contradiction.
Qed.

Ltac inv_bind H :=
  let a := fresh "a" in
  let Ha := fresh "Ha" in
  apply bind_ok in H; destruct H as (a & Ha & H).

Lemma mapM_ext_ok {A B : Type} (f : A -> result B) (g : A -> B) (l : list A) :
  (forall x, In x l -> f x = Ok (g x)) -> mapM f l = Ok (map g l).
Proof.
  induction l as [| x t IH]; intro H; simpl.
  - reflexivity.
  - rewrite (H x (or_introl eq_refl)). simpl.
    rewrite IH by (intros y Hy; apply H; right; exact Hy).
    reflexivity.
Qed.

Lemma mapM_Forall2 {A B : Type} (f : A -> result B) (l : list A) (ys : list B) :
  mapM f l = Ok ys -> Forall2 (fun x y => f x = Ok y) l ys.
Proof.
  revert ys. induction l as [| x t IH]; simpl; intros ys H.
  - injection H as <-. constructor.
  - inv_bind H. inv_bind H. injection H as <-.
    constructor; [assumption | apply IH; assumption].
Qed.

Lemma mapM_length {A B : Type} (f : A -> result B) (l : list A) (ys : list B) :
  mapM f l = Ok ys -> length ys = length l.
Proof.
  intro H. apply mapM_Forall2 in H. symmetry. eapply Forall2_length; eassumption.
Qed.

Lemma mapM_not_fuel {A B : Type} (f : A -> result B) (l : list A) :
  (forall x, f x <> Fuel) -> mapM f l <> Fuel.
Proof.
  intro Hf. induction l as [| x t IH]; simpl.
  - discriminate.
  - apply bind_not_fuel; [apply Hf |].
    intro y. apply bind_not_fuel; [exact IH | discriminate].
Qed.

Lemma getitem_nth {A : Type} (l : list A) (i : nat) (d : A) :
  (i < length l)%nat -> getitem l i = Ok (nth i l d).
Proof.
  intro H. unfold getitem.
  rewrite (nth_error_nth' l d H). reflexivity.
Qed.

Lemma getitem_ok {A : Type} (l : list A) (i : nat) (x : A) :
  getitem l i = Ok x -> (i < length l)%nat /\ forall d, nth i l d = x.
Proof.
  unfold getitem. destruct (nth_error l i) eqn:E; intro H; try discriminate.
  injection H as ->. split.
  - apply nth_error_Some. congruence.
  - intro d. apply nth_error_nth. exact E.
Qed.

Lemma take_ok (v : list Q) (idx : list nat) :
  Forall (fun j => (j < length v)%nat) idx ->
  take v idx = Ok (map (fun j => nth j v 0) idx).
Proof.
  intro H. unfold take. apply mapM_ext_ok.
  intros j Hj. apply getitem_nth.
  rewrite Forall_forall in H. apply H. exact Hj.
Qed.

Lemma Qlt_bool_iff (x y : Q) : Qlt_bool x y = true <-> x < y.
Proof.
  unfold Qlt_bool. rewrite negb_true_iff. split; intro H.
  - apply Qnot_le_lt. intro Hle. apply Qle_bool_iff in Hle. congruence.
  - destruct (Qle_bool y x) eqn:E; [| reflexivity].
    apply Qle_bool_iff in E. exfalso. exact (Qlt_not_le _ _ H E).
Qed.

Lemma Qlt_bool_false (x y : Q) : Qlt_bool x y = false <-> y <= x.
Proof.
  unfold Qlt_bool. rewrite negb_false_iff. apply Qle_bool_iff.
Qed.

(** The sum of the paired products is the sum over the positions. *)
Lemma dot_by_index (f : nat -> Q) (p : list Q) (sc : list nat) :
  length p = length sc ->
  map (fun pv => fst pv * snd pv) (combine p (map f sc))
  = map (fun i => nth i p 0 * f (nth i sc 0%nat)) (seq 0 (length sc)).
Proof.
  revert sc. induction p as [| x p IH]; intros [| j sc] H; simpl in *; try discriminate.
  - reflexivity.
  - f_equal. rewrite <- seq_shift, map_map. apply IH. lia.
Qed.

(** *** Maximum and first position of the maximum *)

Lemma Qmax_ub_l (x y : Q) : x <= Qmax x y.
Proof.
  unfold Qmax. destruct (Qle_bool x y) eqn:E.
  - apply Qle_bool_iff. exact E.
  - apply Qle_refl.
Qed.

Lemma Qmax_ub_r (x y : Q) : y <= Qmax x y.
Proof.
  unfold Qmax. destruct (Qle_bool x y) eqn:E.
  - apply Qle_refl.
  - apply Qlt_le_weak. apply Qlt_bool_iff. unfold Qlt_bool. rewrite E. reflexivity.
Qed.

Lemma Qmax_cases (x y : Q) : Qmax x y = x \/ Qmax x y = y.
Proof. unfold Qmax. destruct (Qle_bool x y); auto. Qed.

Lemma fold_Qmax_ge (t : list Q) (x : Q) : x <= fold_left Qmax t x.
Proof.
  revert x. induction t as [| y t IH]; intro x; simpl.
  - apply Qle_refl.
  - eapply Qle_trans; [apply Qmax_ub_l | apply IH].
Qed.

Lemma fold_Qmax_ub (t : list Q) (x y : Q) : In y t -> y <= fold_left Qmax t x.
Proof.
  revert x. induction t as [| z t IH]; intros x H; simpl in *.
  - contradiction.
  - destruct H as [-> | H].
    + eapply Qle_trans; [apply Qmax_ub_r | apply fold_Qmax_ge].
    + apply IH. exact H.
Qed.

Lemma fold_Qmax_In (t : list Q) (x : Q) : In (fold_left Qmax t x) (x :: t).
Proof.
  revert x. induction t as [| y t IH]; intro x; simpl.
  - left. reflexivity.
  - destruct (IH (Qmax x y)) as [H | H].
    + destruct (Qmax_cases x y) as [E | E].
      * left. congruence.
      * right. left. congruence.
    + right. right. exact H.
Qed.

Lemma amax_spec (l : list Q) :
  l <> [] ->
  exists mx, amax l = Ok mx /\ In mx l /\ forall y, In y l -> y <= mx.
Proof.
  destruct l as [| x t]; intro H; [contradiction |].
  exists (fold_left Qmax t x). split; [reflexivity |]. split.
  - apply fold_Qmax_In.
  - intros y [-> | Hy]; [apply fold_Qmax_ge | apply fold_Qmax_ub; exact Hy].
Qed.

(** The scan of [argmax]: [pre] is the part already seen, [b] its first
    maximum, at position [bi]. *)
Lemma argmax_from_spec (t pre : list Q) (bi : nat) (b : Q) :
  (bi < length pre)%nat ->
  nth bi pre 0 = b ->
  (forall j, (j < length pre)%nat -> nth j pre 0 <= b) ->
  (forall j, (j < bi)%nat -> nth j pre 0 < b) ->
  let r := argmax_from bi b (length pre) t in
  let l := pre ++ t in
  (r < length l)%nat /\
  (forall j, (j < length l)%nat -> nth j l 0 <= nth r l 0) /\
  (forall j, (j < r)%nat -> nth j l 0 < nth r l 0).
Proof.
  revert pre bi b. induction t as [| x t IH]; intros pre bi b Hbi Hb Hle Hlt; simpl.
  - rewrite app_nil_r. subst b. auto.
  - assert (Hlen : length (pre ++ [x]) = S (length pre))
      by (rewrite length_app; simpl; lia).
    assert (Hx : nth (length pre) (pre ++ [x]) 0 = x)
      by (rewrite app_nth2, Nat.sub_diag by lia; reflexivity).
    assert (Hpre : forall j, (j < length pre)%nat -> nth j (pre ++ [x]) 0 = nth j pre 0)
      by (intros j Hj; apply app_nth1; exact Hj).
    replace (pre ++ x :: t) with ((pre ++ [x]) ++ t)
      by (rewrite <- app_assoc; reflexivity).
    rewrite <- Hlen.
    destruct (Qlt_bool b x) eqn:E.
    + apply Qlt_bool_iff in E.
      apply IH.
      * lia.
      * exact Hx.
      * intros j Hj. rewrite Hlen in Hj.
        destruct (Nat.eq_dec j (length pre)) as [-> | Hne].
        -- rewrite Hx. apply Qle_refl.
        -- rewrite Hpre by lia. apply Qlt_le_weak.
           eapply Qle_lt_trans; [apply Hle; lia | exact E].
      * intros j Hj. rewrite Hpre by lia.
        eapply Qle_lt_trans; [apply Hle; lia | exact E].
    + apply Qlt_bool_false in E.
      apply IH.
      * lia.
      * rewrite Hpre by lia. exact Hb.
      * intros j Hj. rewrite Hlen in Hj.
        destruct (Nat.eq_dec j (length pre)) as [-> | Hne].
        -- rewrite Hx. exact E.
        -- rewrite Hpre by lia. apply Hle. lia.
      * intros j Hj. rewrite Hpre by lia. apply Hlt. exact Hj.
Qed.

Lemma argmax_spec (l : list Q) :
  l <> [] ->
  exists r, argmax l = Ok r /\ (r < length l)%nat /\
            (forall j, (j < length l)%nat -> nth j l 0 <= nth r l 0) /\
            (forall j, (j < r)%nat -> nth j l 0 < nth r l 0).
Proof.
  destruct l as [| x t]; intro H; [contradiction |].
  exists (argmax_from 0 x 1 t). split; [reflexivity |].
  apply (argmax_from_spec t [x] (bi := 0) (b := x)); simpl.
  - lia.
  - reflexivity.
  - intros j Hj. destruct j; [apply Qle_refl | lia].
  - intros j Hj. lia.
Qed.

(** The maximum is the entry at the first position of the maximum. *)
Lemma amax_argmax (l : list Q) (mx : Q) (r : nat) :
  amax l = Ok mx -> argmax l = Ok r -> mx == nth r l 0.
Proof.
  intros Hm Hr.
  assert (Hl : l <> []) by (intro E; subst l; discriminate).
  destruct (amax_spec Hl) as (mx' & Hm' & Hin & Hub).
  destruct (argmax_spec Hl) as (r' & Hr' & Hlt & Hge & _).
  rewrite Hm in Hm'. injection Hm' as <-.
  rewrite Hr in Hr'. injection Hr' as <-.
  apply Qle_antisym.
  - destruct (In_nth l mx 0 Hin) as (j & Hj & <-). apply Hge. exact Hj.
  - apply Hub. apply nth_In. exact Hlt.
Qed.

Lemma mdp_wf_facts (m : MDP) : mdp_wf m = true -> wf_facts m.
Proof.
  unfold mdp_wf. rewrite !andb_true_iff.
  intros [[[[HA HR] HS] HP] Hall].
  apply Nat.leb_le in HA. apply Nat.eqb_eq in HR, HS, HP.
  rewrite forallb_forall in Hall.
  assert (Hact : forall a, (a < A_ m)%nat -> action_ok m a = true).
  { intros a Ha. apply Hall. apply in_seq. lia. }
  assert (Hchunk : forall a s, (a < A_ m)%nat -> (s < states m)%nat -> chunk_ok m a s = true).
  { intros a s Ha Hs. specialize (Hact a Ha). unfold action_ok in Hact.
    rewrite !andb_true_iff in Hact. destruct Hact as [_ Hc].
    rewrite forallb_forall in Hc. apply Hc. apply in_seq. lia. }
  constructor; try assumption.
  - intros a Ha. specialize (Hact a Ha). unfold action_ok in Hact.
    rewrite !andb_true_iff in Hact. apply Nat.eqb_eq. tauto.
  - intros a Ha. specialize (Hact a Ha). unfold action_ok in Hact.
    rewrite !andb_true_iff in Hact. apply Nat.eqb_eq. tauto.
  - intros a Ha. specialize (Hact a Ha). unfold action_ok in Hact.
    rewrite !andb_true_iff in Hact. apply Nat.eqb_eq. tauto.
  - intros a s Ha Hs. specialize (Hchunk a s Ha Hs). unfold chunk_ok in Hchunk.
    rewrite andb_true_iff in Hchunk. apply Nat.eqb_eq. tauto.
  - intros a s Ha Hs. specialize (Hchunk a s Ha Hs). unfold chunk_ok in Hchunk.
    rewrite andb_true_iff in Hchunk. destruct Hchunk as [_ Hc].
    rewrite forallb_forall in Hc. apply Forall_forall.
    intros j Hj. apply Nat.ltb_lt. apply Hc. exact Hj.
Qed.

(** ** The Bellman operator computes the action values *)

Lemma q_entry_value (m : MDP) (v : list Q) (a s : nat) :
  wf_facts m -> length v = states m -> (a < A_ m)%nat -> (s < states m)%nat ->
  q_entry m v a s = Ok (action_value m v s a).
Proof.
  intros W Hv Ha Hs. unfold q_entry.
  rewrite (getitem_nth (R m) [] (i := a)) by (rewrite (wf_R W); exact Ha). simpl.
  rewrite (getitem_nth (nth a (R m) []) 0 (i := s)) by (rewrite (wf_R_row W) by exact Ha; exact Hs).
  simpl.
  rewrite (getitem_nth (split_probability m) [] (i := a)) by (rewrite (wf_prob W); exact Ha).
  simpl.
  rewrite (getitem_nth (nth a (split_probability m) []) [] (i := s))
    by (rewrite (wf_prob_row W) by exact Ha; exact Hs).
  simpl.
  rewrite (getitem_nth (split_succ_s m) [] (i := a)) by (rewrite (wf_succ W); exact Ha).
  simpl.
  rewrite (getitem_nth (nth a (split_succ_s m) []) [] (i := s))
    by (rewrite (wf_succ_row W) by exact Ha; exact Hs).
  simpl.
  fold (succ_of m a s). fold (prob_of m a s).
  rewrite take_ok by (rewrite Hv; apply (wf_chunk_rng W); assumption).
  simpl. unfold dot.
  rewrite length_map, (wf_chunk_len W) by assumption.
  rewrite Nat.eqb_refl. simpl.
  rewrite dot_by_index by (apply (wf_chunk_len W); assumption).
  reflexivity.
Qed.

Lemma q_state_values (m : MDP) (v : list Q) (s : nat) :
  wf_facts m -> length v = states m -> (s < states m)%nat ->
  q_state m v s = Ok (action_values m v s).
Proof.
  intros W Hv Hs. unfold q_state, action_values.
  apply mapM_ext_ok. intros a Ha. apply in_seq in Ha.
  apply q_entry_value; try assumption. lia.
Qed.

Lemma q_table_values (m : MDP) (v : list Q) :
  wf_facts m -> length v = states m ->
  q_table m v
  = Ok (map (fun a => map (fun s => action_value m v s a) (seq 0 (states m)))
            (seq 0 (A_ m))).
Proof.
  intros W Hv. unfold q_table.
  apply mapM_ext_ok. intros a Ha. apply in_seq in Ha.
  apply mapM_ext_ok. intros s Hs. apply in_seq in Hs.
  apply q_entry_value; try assumption; lia.
Qed.

Lemma nth_map_seq {T : Type} (f : nat -> T) (n i : nat) (d : T) :
  (i < n)%nat -> nth i (map f (seq 0 n)) d = f i.
Proof.
  intro H.
  rewrite (nth_indep _ d (f 0%nat)) by (rewrite length_map, length_seq; exact H).
  rewrite map_nth, seq_nth by exact H. reflexivity.
Qed.

Lemma column_values (m : MDP) (v : list Q) (s : nat) :
  (s < states m)%nat ->
  column (map (fun a => map (fun s => action_value m v s a) (seq 0 (states m)))
              (seq 0 (A_ m))) s
  = action_values m v s.
Proof.
  intro Hs. unfold column, action_values. rewrite map_map.
  apply map_ext. intro a.
  apply (nth_map_seq (fun s0 => action_value m v s0 a)). exact Hs.
Qed.

Lemma argmax_total (l : list Q) : l <> [] -> argmax l = Ok (first_max_index l).
Proof. destruct l; [contradiction | reflexivity]. Qed.

Lemma amax_total (l : list Q) : l <> [] -> amax l = Ok (max_of l).
Proof. destruct l; [contradiction | reflexivity]. Qed.

Lemma action_values_length (m : MDP) (v : list Q) (s : nat) :
  length (action_values m v s) = A_ m.
Proof. unfold action_values. rewrite length_map, length_seq. reflexivity. Qed.

Lemma action_values_nonempty (m : MDP) (v : list Q) (s : nat) :
  (1 <= A_ m)%nat -> action_values m v s <> [].
Proof.
  intros HA E. apply (f_equal (@length Q)) in E.
  rewrite action_values_length in E. simpl in E. lia.
Qed.

Lemma bellman_values (m : MDP) (v : list Q) :
  wf_facts m -> length v = states m ->
  q_table m v = Ok (map (fun a => map (fun s => action_value m v s a) (seq 0 (states m)))
                        (seq 0 (A_ m))) ->
  (Qt <- q_table m v ;;
   pol <- mapM (fun s => argmax (column Qt s)) (seq 0 (states m)) ;;
   val <- mapM (fun s => amax (column Qt s)) (seq 0 (states m)) ;;
   Ok (pol, val))
  = Ok (map (fun s => first_max_index (action_values m v s)) (seq 0 (states m)),
        map (fun s => max_of (action_values m v s)) (seq 0 (states m))).
Proof.
  intros W Hv ->. simpl.
  rewrite (mapM_ext_ok _ (fun s => first_max_index (action_values m v s))).
  2:{ intros s Hs. apply in_seq in Hs. rewrite column_values by lia.
      apply argmax_total. apply action_values_nonempty. apply (wf_A W). }
  simpl.
  rewrite (mapM_ext_ok _ (fun s => max_of (action_values m v s))).
  2:{ intros s Hs. apply in_seq in Hs. rewrite column_values by lia.
      apply amax_total. apply action_values_nonempty. apply (wf_A W). }
  reflexivity.
Qed.

Lemma bellman_given (m : MDP) (v : list Q) :
  wf_facts m -> length v = states m ->
  _bellmanOperator m (Some v) = Ok (greedy_policy m v, backup m v).
Proof.
  intros W Hv. unfold _bellmanOperator.
  rewrite Hv, Nat.eqb_refl. simpl.
  apply bellman_values; try assumption. apply q_table_values; assumption.
Qed.

Lemma bellman_stored (m : MDP) (v : list Q) :
  wf_facts m -> V m = Some v -> length v = states m ->
  _bellmanOperator m None = Ok (greedy_policy m v, backup m v).
Proof.
  intros W HV Hv. unfold _bellmanOperator.
  rewrite HV. simpl.
  apply bellman_values; try assumption. apply q_table_values; assumption.
Qed.

Lemma first_max_index_spec (l : list Q) :
  l <> [] ->
  (first_max_index l < length l)%nat /\
  max_of l == nth (first_max_index l) l 0 /\
  (forall j, (j < length l)%nat -> nth j l 0 <= max_of l) /\
  (forall j, (j < first_max_index l)%nat -> nth j l 0 < max_of l).
Proof.
  intro Hl.
  destruct (argmax_spec Hl) as (r & Hr & Hlt & Hge & Hfirst).
  rewrite (argmax_total Hl) in Hr. injection Hr as <-.
  assert (E : max_of l == nth (first_max_index l) l 0)
    by (apply amax_argmax; [apply amax_total | apply argmax_total]; exact Hl).
  split; [exact Hlt |]. split; [exact E |]. split.
  - intros j Hj. rewrite E. apply Hge. exact Hj.
  - intros j Hj. rewrite E. apply Hfirst. exact Hj.
Qed.

(** C1.  On a well-formed solver state and a value function [v] with one
    entry per state, the Bellman operator returns a policy and a value
    function with one entry per state; at every state [s] the value is
    the action value [Q(s,a)] of the returned action, no action has a
    larger value, and every action of a lower index has a strictly
    smaller one: the value is the maximum over the actions and the
    policy is the first action that reaches it. *)
Theorem bellman_operator_greedy (m : MDP) (v : list Q) :
  mdp_wf m = true ->
  length v = states m ->
  exists pol val,
    _bellmanOperator m (Some v) = Ok (pol, val) /\
    length pol = states m /\ length val = states m /\
    forall s, (s < states m)%nat ->
      (nth s pol 0%nat < A_ m)%nat /\
      nth s val 0 == action_value m v s (nth s pol 0%nat) /\
      (forall a, (a < A_ m)%nat -> action_value m v s a <= nth s val 0) /\
      (forall a, (a < nth s pol 0%nat)%nat -> action_value m v s a < nth s val 0).
Proof.
  intros Hwf Hv. assert (W := mdp_wf_facts m Hwf).
  exists (greedy_policy m v), (backup m v).
  split; [apply bellman_given; assumption |].
  unfold greedy_policy, backup.
  split; [rewrite length_map, length_seq; reflexivity |].
  split; [rewrite length_map, length_seq; reflexivity |].
  intros s Hs. rewrite !nth_map_seq by exact Hs.
  assert (Hne : action_values m v s <> [])
    by (apply action_values_nonempty; apply (wf_A W)).
  destruct (first_max_index_spec Hne) as (Hlt & Heq & Hge & Hfirst).
  rewrite action_values_length in Hlt, Hge.
  assert (Hnth : forall a, (a < A_ m)%nat ->
                           nth a (action_values m v s) 0 = action_value m v s a)
    by (intros a Ha; unfold action_values; apply nth_map_seq; exact Ha).
  split; [exact Hlt |]. split.
  - rewrite Heq, Hnth by exact Hlt. reflexivity.
  - split.
    + intros a Ha. rewrite <- Hnth by exact Ha. apply Hge. exact Ha.
    + intros a Ha. rewrite <- Hnth by lia. apply Hfirst. exact Ha.
Qed.

(** ** What the loops leave unchanged *)

Lemma same_model_refl (m : MDP) : same_model m m.
Proof. constructor; reflexivity. Qed.

Lemma same_model_trans (m1 m2 m3 : MDP) :
  same_model m1 m2 -> same_model m2 m3 -> same_model m1 m3.
Proof.
  intros [] []. constructor; congruence.
Qed.

Lemma same_model_set_V (m : MDP) (v : list Q) : same_model m (set_V m v).
Proof. constructor; reflexivity. Qed.

Lemma same_model_set_policy (m : MDP) (p : list nat) : same_model m (set_policy m p).
Proof. constructor; reflexivity. Qed.

Lemma same_model_set_iter (m : MDP) (i : nat) : same_model m (set_iter m i).
Proof. constructor; reflexivity. Qed.

Lemma same_model_log_variation (m : MDP) (x : Q) (v : list Q) :
  same_model m (log_variation m x v).
Proof. constructor; reflexivity. Qed.

Lemma same_model_log_v (m : MDP) (v : list Q) : same_model m (log_v m v).
Proof. constructor; reflexivity. Qed.

Lemma same_model_wf (m m' : MDP) : same_model m m' -> mdp_wf m' = mdp_wf m.
Proof.
  intros []. unfold mdp_wf, action_ok, chunk_ok, succ_of, prob_of.
  destruct m, m'; simpl in *; subst. reflexivity.
Qed.

Lemma same_model_action_value (m m' : MDP) (v : list Q) (s a : nat) :
  same_model m m' -> action_value m' v s a = action_value m v s a.
Proof.
  intros []. unfold action_value, reward_of, succ_of, prob_of.
  destruct m, m'; simpl in *; subst. reflexivity.
Qed.

Lemma gs_loop_same_model (fuel : nat) (m m' : MDP) :
  gs_loop fuel m = Ok m' -> same_model m m'.
Proof.
  revert m. induction fuel as [| f IH]; intros m H; [discriminate |].
  cbn [gs_loop] in H. do 6 inv_bind H.
  set (m3 := log_variation _ _ _) in *.
  assert (S3 : same_model m m3).
  { unfold m3. eapply same_model_trans; [| apply same_model_log_variation].
    eapply same_model_trans; [| apply same_model_set_V].
    apply same_model_set_iter. }
  destruct (Qlt_bool _ _); [injection H as <-; exact S3 |].
  destruct (Z.eqb _ _); [injection H as <-; exact S3 |].
  eapply same_model_trans; [exact S3 | apply IH; exact H].
Qed.

Lemma vi_loop_same_model (fuel : nat) (m m' : MDP) :
  vi_loop fuel m = Ok m' -> same_model m m'.
Proof.
  revert m. induction fuel as [| f IH]; intros m H; [discriminate |].
  cbn [vi_loop] in H. inv_bind H. inv_bind H. destruct a0 as [pol v].
  do 3 inv_bind H.
  set (m3 := log_variation _ _ _) in *.
  assert (S3 : same_model m m3).
  { unfold m3. eapply same_model_trans; [| apply same_model_log_variation].
    eapply same_model_trans; [| apply same_model_set_V].
    eapply same_model_trans; [| apply same_model_set_policy].
    apply same_model_set_iter. }
  destruct (Qlt_bool _ _); [injection H as <-; exact S3 |].
  destruct (Z.eqb _ _); [injection H as <-; exact S3 |].
  eapply same_model_trans; [exact S3 | apply IH; exact H].
Qed.

Lemma gs_run_same_model (fuel : nat) (m m' : MDP) :
  CpMdpValueIterationGS_run fuel m = Ok m' -> same_model m m'.
Proof.
  unfold CpMdpValueIterationGS_run. intro H.
  inv_bind H. inv_bind H. inv_bind H. inv_bind H. inv_bind H.
  destruct a3 as [v1 pol]. injection H as <-.
  apply gs_loop_same_model in Ha0.
  eapply same_model_trans; [apply same_model_log_v |].
  eapply same_model_trans; [exact Ha0 |].
  eapply same_model_trans; [apply same_model_set_V | apply same_model_set_policy].
Qed.

Lemma evalPolicy_same_model (fuel : nat) (m m' : MDP) (V0 : option (list Q))
      (eps : Q) (cap itr : nat) :
  _evalPolicyIterative_with fuel m V0 eps cap = Ok (itr, m') -> same_model m m'.
Proof.
  unfold _evalPolicyIterative_with. intro H.
  inv_bind H. inv_bind H. destruct a0 as [[pr ss] ps].
  inv_bind H. destruct a0 as [i v]. injection H as _ <-.
  apply same_model_set_V.
Qed.

Lemma pi_loop_same_model (fuel : nat) (m : MDP) (inner : list nat) (res : pi_result) :
  pi_loop fuel m inner = Ok res -> same_model m (pi_final res).
Proof.
  revert m inner. induction fuel as [| f IH]; intros m inner H; [discriminate |].
  cbn [pi_loop] in H.
  inv_bind H. destruct a as [itr m2].
  inv_bind H. destruct a as [policy_next val].
  inv_bind H. inv_bind H.
  unfold _evalPolicyIterative in Ha. apply evalPolicy_same_model in Ha.
  assert (S2 : same_model m m2)
    by (eapply same_model_trans; [apply same_model_set_iter | exact Ha]).
  destruct (Nat.eqb _ _); [injection H as <-; exact S2 |].
  destruct (Z.eqb _ _); [injection H as <-; exact S2 |].
  apply IH in H.
  eapply same_model_trans; [exact S2 |].
  eapply same_model_trans; [apply same_model_set_policy | exact H].
Qed.

(** ** The reward given as a vector *)

Lemma nth_repeat_lt {T : Type} (x d : T) (n i : nat) :
  (i < n)%nat -> nth i (repeat x n) d = x.
Proof.
  intro H. apply (repeat_spec n x).
  apply nth_In. rewrite repeat_length. exact H.
Qed.

Lemma computeReward_vector (nstates nA : nat) (r : list Q) (transition : list (list nat)) :
  length r = nstates ->
  _computeReward nstates nA (RewardVector false r) transition = Ok (repeat r nA).
Proof.
  intro H. unfold _computeReward, _computeVectorReward, reshape.
  rewrite H, Nat.eqb_refl. reflexivity.
Qed.

Lemma MDP_init_fields (x : mdp_args) (m : MDP) :
  MDP_init x = Ok m ->
  exists rw, _computeReward (arg_states x) (A_ m) (arg_R x) (arg_succ_s x) = Ok rw /\
             R m = rw /\ states m = arg_states x /\ A_ m = length (arg_succ_s x) /\
             discount m = arg_discount x /\ max_iter m = arg_max_iter x /\
             (0 < arg_max_iter x)%Z /\ 0 < arg_discount x /\ arg_discount x <= 1 /\
             V m = None /\ policy m = None /\ iter m = 0%nat.
Proof.
  unfold MDP_init. intro H.
  inv_bind H. inv_bind H. inv_bind H. inv_bind H. destruct a2 as [nS nA].
  inv_bind H. inv_bind H. injection H as <-. simpl.
  unfold _computeDimensions in Ha2. inv_bind Ha2. injection Ha2 as <- <-.
  unfold assert in Ha, Ha0.
  destruct (Qlt_bool 0 (arg_discount x) && Qle_bool (arg_discount x) 1) eqn:Ed;
    [| discriminate].
  destruct (0 <? arg_max_iter x)%Z eqn:Em; [| discriminate].
  apply andb_true_iff in Ed. destruct Ed as [Ed1 Ed2].
  apply Qlt_bool_iff in Ed1. apply Qle_bool_iff in Ed2. apply Z.ltb_lt in Em.
  exists a2. repeat split; try assumption; reflexivity.
Qed.

(** C9.  A non-sparse reward vector [r] with one entry per state is
    resolved to the table that holds [r] itself for every action:
    [reward[a][s] = r[s]].  The constructor stores that table, and no run
    of a solver writes it. *)
Theorem vector_reward_reused (nstates nA : nat) (r : list Q) (transition : list (list nat)) :
  length r = nstates ->
  exists rw,
    _computeVectorReward nstates nA false r = Ok rw /\
    _computeReward nstates nA (RewardVector false r) transition = Ok rw /\
    (forall a s, (a < nA)%nat -> (s < nstates)%nat -> nth s (nth a rw []) 0 = nth s r 0) /\
    (forall x m, arg_R x = RewardVector false r -> arg_states x = nstates ->
                 arg_succ_s x = transition -> length transition = nA ->
                 MDP_init x = Ok m -> R m = rw) /\
    (forall m, R m = rw ->
       (forall fuel m', CpMdpValueIterationGS_run fuel m = Ok m' -> R m' = rw) /\
       (forall fuel m', CpMdpValueIteration_run fuel m = Ok m' -> R m' = rw) /\
       (forall fuel res, CpMdpPolicyIteration_run fuel m = Ok res -> R (pi_final res) = rw)).
Proof.
  intro Hlen. exists (repeat r nA).
  split.
  { unfold _computeVectorReward, reshape. rewrite Hlen, Nat.eqb_refl. reflexivity. }
  split; [apply computeReward_vector; exact Hlen |].
  split.
  { intros a s Ha Hs. rewrite nth_repeat_lt by exact Ha. reflexivity. }
  split.
  { intros x m HR Hst Hsucc HA Hinit.
    destruct (MDP_init_fields x Hinit) as (rw & Hrw & HRm & _ & HAm & _).
    rewrite HR, Hst, Hsucc, HAm, Hsucc, HA in Hrw.
    rewrite computeReward_vector in Hrw by exact Hlen.
    injection Hrw as <-. exact HRm. }
  intros m HR. split; [| split].
  - intros fuel m' H. apply gs_run_same_model in H. rewrite (sm_R H). exact HR.
  - intros fuel m' H. apply vi_loop_same_model in H. rewrite (sm_R H). exact HR.
  - intros fuel res H. apply pi_loop_same_model in H. rewrite (sm_R H). exact HR.
Qed.

Lemma vector_reward_reused_witness :
  exists rw,
    _computeVectorReward 3 2 false [10; 0; 15] = Ok rw /\
    _computeReward 3 2 (RewardVector false [10; 0; 15]) [[0; 0; 2]; [0; 2; 2]]%nat = Ok rw /\
    (forall a s, (a < 2)%nat -> (s < 3)%nat -> nth s (nth a rw []) 0 = nth s [10; 0; 15] 0).
Proof.
  destruct (@vector_reward_reused 3 2 [10; 0; 15] [[0; 0; 2]; [0; 2; 2]]%nat eq_refl)
    as (rw & H1 & H2 & H3 & _).
  exists rw. split; [exact H1 |]. split; [exact H2 | exact H3].
Defined.

(** ** The constructor of the standard value iteration *)

(** C2.  [CpMdpValueIteration.__init__] passes seven positional
    arguments to [MDP.__init__], which requires ten: whatever the
    arguments are, the construction raises [TypeError] before the bound
    on the iterations or the threshold is computed. *)
Theorem value_iteration_constructor_raises
        (log : Q -> Q)
        (transitions reward shape succ_s discount_ epsilon_ max_iter_ : pyval)
        (initial_value : option (list Q)) :
  CpMdpValueIteration_init log transitions reward shape succ_s discount_ epsilon_
                           max_iter_ initial_value
  = Err TypeError.
Proof. reflexivity. Qed.

(** ** The scenario of one state and one action *)

(** C8.  On the scenario with one state and one action no solver
    returns the value 10: the Gauss-Seidel constructor raises
    [OverflowError] in [_boundIter], because the first backup changes
    the only entry of the value function and the span of the change is
    zero; the standard constructor raises [TypeError]; policy iteration
    returns the policy [0] with the value 5. *)
Theorem single_state_scenario (log : Q -> Q) :
  CpMdpValueIterationGS_init log single_state_args None = Err OverflowError /\
  (forall transitions reward shape succ_s discount_ epsilon_ max_iter_ initial_value,
      CpMdpValueIteration_init log transitions reward shape succ_s discount_ epsilon_
                               max_iter_ initial_value = Err TypeError) /\
  exists m res,
    CpMdpPolicyIteration_init single_state_args None = Ok m /\
    CpMdpPolicyIteration_run 10 m = Ok res /\
    policy (pi_final res) = Some [0%nat] /\
    exists v, V (pi_final res) = Some [v] /\ v == 5 /\ ~ v == 10.
Proof.
  split; [vm_compute; reflexivity |].
  split; [intros; reflexivity |].
  eexists. eexists.
  split; [vm_compute; reflexivity |].
  split; [vm_compute; reflexivity |].
  split; [reflexivity |].
  eexists. split; [reflexivity |].
  split; [reflexivity | intro H; discriminate H].
Qed.

(** ** The starting policy of policy iteration *)

Lemma three_state_init : MDP_init three_state_args = Ok three_state_model.
Proof. vm_compute. reflexivity. Qed.

Lemma bellman_operator_greedy_witness :
  exists pol val,
    _bellmanOperator three_state_model (Some [10; 10; 15]) = Ok (pol, val) /\
    length pol = 3%nat /\ length val = 3%nat /\
    forall s, (s < 3)%nat ->
      (nth s pol 0%nat < 2)%nat /\
      nth s val 0 == action_value three_state_model [10; 10; 15] s (nth s pol 0%nat) /\
      (forall a, (a < 2)%nat ->
                 action_value three_state_model [10; 10; 15] s a <= nth s val 0) /\
      (forall a, (a < nth s pol 0%nat)%nat ->
                 action_value three_state_model [10; 10; 15] s a < nth s val 0).
Proof.
  apply (bellman_operator_greedy three_state_model [10; 10; 15]); reflexivity.
Defined.

Lemma shape_eqb_eq (x y : list nat) : shape_eqb x y = true <-> x = y.
Proof.
  revert y. induction x as [| a x IH]; intros [| b y]; simpl;
    try (split; [discriminate | discriminate]); try tauto.
  rewrite andb_true_iff, Nat.eqb_eq, IH. split.
  - intros [-> ->]. reflexivity.
  - intro H. injection H as -> ->. auto.
Qed.

Lemma shape_check_iff (n : nat) (p : ndarray) :
  existsb (shape_eqb (shape p)) [[n]; [n; 1%nat]; [1%nat; n]] = true
  <-> shape p = [n] \/ shape p = [n; 1%nat] \/ shape p = [1%nat; n].
Proof.
  simpl. rewrite !orb_true_iff, !shape_eqb_eq. intuition discriminate.
Qed.

Lemma concat_rectangular (rows : list (list Q)) (c : nat) :
  Forall (fun r => length r = c) rows -> length (concat rows) = (length rows * c)%nat.
Proof.
  induction 1 as [| r rows Hr _ IH]; simpl.
  - reflexivity.
  - rewrite length_app, IH, Hr. reflexivity.
Qed.

Lemma flat_length (n : nat) (p : ndarray) :
  shape_accepted n p -> length (flat p) = n.
Proof.
  intros [Hrect Hshape]. destruct p as [l | rows]; simpl in *.
  - destruct Hshape as [H | [H | H]]; try discriminate. injection H as H. exact H.
  - assert (Hc : length (concat rows) = (length rows * row_length rows)%nat).
    { apply concat_rectangular. unfold rectangular in Hrect.
      rewrite forallb_forall in Hrect. apply Forall_forall.
      intros r Hr. apply Nat.eqb_eq. apply Hrect. exact Hr. }
    destruct Hshape as [H | [H | H]]; try discriminate;
      injection H as H1 H2; rewrite Hc, H1, H2; lia.
Qed.

Lemma Qmod1_integer (x : Q) : Qeq_bool (Qmod1 x) 0 = true <-> is_integer x.
Proof.
  rewrite Qeq_bool_iff. unfold Qmod1, is_integer. split.
  - intro H. exists (Qfloor x).
    rewrite <- (Qplus_0_l (inject_Z (Qfloor x))), <- H. ring.
  - intros [z Hz].
    assert (E : Qfloor x = z) by (rewrite Hz; apply Qfloor_Z).
    rewrite E, Hz. ring.
Qed.

Lemma integer_check_iff (v : list Q) :
  negb (existsb (fun x => negb (Qeq_bool (Qmod1 x) 0)) v) = true <-> Forall is_integer v.
Proof.
  induction v as [| x v IH]; simpl.
  - split; [constructor | reflexivity].
  - rewrite negb_orb, andb_true_iff, negb_involutive, IH, Qmod1_integer.
    split.
    + intros [H1 H2]. constructor; assumption.
    + intro H. inversion H; subst. auto.
Qed.

Lemma range_check_iff (v : list Q) (bound : nat) :
  forallb (fun x => Qle_bool 0 x) v = true /\
  forallb (fun x => Qlt_bool x (Q_of_nat bound)) v = true
  <-> Forall (fun x => 0 <= x /\ x < Q_of_nat bound) v.
Proof.
  induction v as [| x v IH]; simpl.
  - split; [constructor | auto].
  - rewrite !andb_true_iff, Qle_bool_iff, Qlt_bool_iff. split.
    + intros [[H1 H2] [H3 H4]]. constructor; [auto | apply IH; auto].
    + intro H. inversion H as [| ? ? [Hx1 Hx2] Hv]; subst.
      apply IH in Hv. tauto.
Qed.

Lemma assert_ok (c : bool) (u : unit) : assert c = Ok u -> c = true.
Proof. unfold assert. destruct c; [reflexivity | discriminate]. Qed.

(** The validation returns the entries exactly when the array has an
    accepted shape and integer entries in [[0, nS)]. *)
Lemma check_policy0_ok_iff (nS : nat) (p : ndarray) (pol : list nat) :
  check_policy0 nS p = Ok pol
  <-> policy0_within nS nS p /\ pol = map nat_of_Q (flat p).
Proof.
  unfold check_policy0, policy0_within, shape_accepted. split.
  - intro H. inv_bind H.
    assert (a = p /\ match p with Arr1 _ => True | Arr2 rows => rectangular rows = true end)
      as [-> Hrect].
    { destruct p as [l | rows]; simpl in Ha.
      - injection Ha as <-. auto.
      - destruct (rectangular rows); [injection Ha as <-; auto | discriminate]. }
    inv_bind H. apply assert_ok in Ha0. apply shape_check_iff in Ha0.
    inv_bind H. unfold reshape in Ha1.
    destruct (Nat.eqb (length (flat p)) nS); [injection Ha1 as <- | discriminate].
    inv_bind H. apply assert_ok in Ha1. apply integer_check_iff in Ha1.
    inv_bind H. apply assert_ok in Ha2.
    inv_bind H. apply assert_ok in Ha3.
    injection H as <-.
    repeat split; try assumption.
    apply range_check_iff. split; assumption.
  - intros [[[Hrect Hshape] [Hint Hrng]] ->].
    assert (Hlen : length (flat p) = nS) by (apply flat_length; split; assumption).
    assert (Hnp : np_array p = Ok p).
    { destruct p as [l | rows]; simpl; [reflexivity |]. rewrite Hrect. reflexivity. }
    rewrite Hnp. cbn [bind].
    apply shape_check_iff in Hshape. rewrite Hshape. cbn [bind].
    unfold reshape. rewrite Hlen, Nat.eqb_refl. cbn [bind].
    apply integer_check_iff in Hint. rewrite Hint. cbn [bind].
    apply range_check_iff in Hrng. destruct Hrng as [H0 H1].
    rewrite H0, H1. reflexivity.
Qed.

Lemma check_policy0_not_fuel (nS : nat) (p : ndarray) : check_policy0 nS p <> Fuel.
Proof.
  unfold check_policy0, np_array, assert, reshape.
  destruct p as [l | rows]; [| destruct (rectangular rows)]; simpl;
    repeat match goal with
           | |- context [if ?c then _ else _] => destruct c; simpl
           end; discriminate.
Qed.

Lemma nat_of_Q_integer (x : Q) :
  is_integer x -> 0 <= x -> Q_of_nat (nat_of_Q x) == x.
Proof.
  intros [z Hz] H0. unfold Q_of_nat, nat_of_Q.
  assert (E : Qfloor x = z) by (rewrite Hz; apply Qfloor_Z).
  rewrite E. rewrite Hz in H0.
  assert (0 <= z)%Z by (rewrite Zle_Qle; exact H0).
  rewrite Z2Nat.id by assumption. symmetry. exact Hz.
Qed.

Lemma MDP_init_S (x : mdp_args) (m : MDP) :
  MDP_init x = Ok m -> S_ m = length (nth 0 (arg_succ_s x) []).
Proof.
  unfold MDP_init. intro H.
  inv_bind H. inv_bind H. inv_bind H. inv_bind H. destruct a2 as [nS nA].
  inv_bind H. inv_bind H. injection H as <-. simpl.
  unfold _computeDimensions in Ha2.
  apply bind_ok in Ha2. destruct Ha2 as (t0 & Ht0 & Ha2). injection Ha2 as <- <-.
  apply getitem_ok in Ht0. destruct Ht0 as [_ Hn]. rewrite (Hn []). reflexivity.
Qed.

(** C5, as amended.  With [S = self.S], the length of the flat successor
    array of the first action, the construction with a [policy0] fails
    exactly when [policy0] has not the shape [(S,)], [(S, 1)] or [(1, S)],
    or an entry is not an integer, or an entry lies outside [[0, S)];
    otherwise the entries of [policy0] become the starting policy. *)
Theorem policy0_validated_against_S (x : mdp_args) (m : MDP) (p0 : ndarray) :
  MDP_init x = Ok m ->
  S_ m = length (nth 0 (arg_succ_s x) []) /\
  ((exists e, CpMdpPolicyIteration_init x (Some p0) = Err e)
   <-> ~ policy0_within (S_ m) (S_ m) p0) /\
  (policy0_within (S_ m) (S_ m) p0 ->
   exists m' pol,
     CpMdpPolicyIteration_init x (Some p0) = Ok m' /\
     policy m' = Some pol /\
     Forall2 (fun n q => Q_of_nat n == q) pol (flat p0)).
Proof.
  intro Hinit. split; [apply MDP_init_S; exact Hinit |].
  unfold CpMdpPolicyIteration_init. rewrite Hinit. cbn [bind].
  destruct (check_policy0 (S_ m) p0) as [pol | e |] eqn:E.
  - apply check_policy0_ok_iff in E. destruct E as [Hin ->].
    split.
    + split.
      * intros [e He]. discriminate He.
      * intro Hn. contradiction.
    + intros _. eexists. eexists. split; [reflexivity |]. split; [reflexivity |].
      destruct Hin as (_ & Hint & Hrng).
      induction (flat p0) as [| q l IH]; simpl; constructor.
      * inversion Hint; inversion Hrng; subst. apply nat_of_Q_integer; tauto.
      * inversion Hint; inversion Hrng; subst. apply IH; assumption.
  - assert (Hn : ~ policy0_within (S_ m) (S_ m) p0).
    { intro Hin.
      assert (Hok : check_policy0 (S_ m) p0 = Ok (map nat_of_Q (flat p0)))
        by (apply check_policy0_ok_iff; auto).
      congruence. }
    split.
    + split; [intros _; exact Hn | intros _; exists e; reflexivity].
    + intro Hin. contradiction.
  - exfalso. exact (check_policy0_not_fuel _ _ E).
Qed.

Lemma policy0_validated_against_S_witness :
  exists m' pol,
    CpMdpPolicyIteration_init two_state_args (Some (Arr1 [1; 0])) = Ok m' /\
    policy m' = Some pol /\
    Forall2 (fun n q => Q_of_nat n == q) pol [1; 0].
Proof.
  assert (Hinit : MDP_init two_state_args
                  = Ok (mkMDP (1 # 2) 1 (1 # 100) 2 1 2 [[0; 0]] [[[0]; [1]]]%nat
                              [[[1]; [1]]] 0 None None None [] []))
    by (vm_compute; reflexivity).
  destruct (policy0_validated_against_S two_state_args (Arr1 [1; 0]) Hinit)
    as (_ & _ & Hok).
  apply Hok. unfold policy0_within, shape_accepted. simpl.
  split; [split; [exact I | left; reflexivity] |].
  split.
  - constructor; [exists 1%Z; reflexivity |].
    constructor; [exists 0%Z; reflexivity | constructor].
  - constructor; [split; [discriminate | reflexivity] |].
    constructor; [split; [discriminate | reflexivity] | constructor].
Defined.

(** C5 as stated fails: with one action and two states the starting
    policy [1; 1] names no action, and the constructor adopts it. *)
Lemma policy0_outside_actions_accepted :
  exists m m',
    MDP_init two_state_args = Ok m /\ A_ m = 1%nat /\ S_ m = 2%nat /\ states m = 2%nat /\
    ~ policy0_within (S_ m) (A_ m) (Arr1 [1; 1]) /\
    CpMdpPolicyIteration_init two_state_args (Some (Arr1 [1; 1])) = Ok m' /\
    policy m' = Some [1; 1]%nat.
Proof.
  eexists. eexists.
  split; [vm_compute; reflexivity |].
  split; [reflexivity |]. split; [reflexivity |]. split; [reflexivity |].
  split.
  - intros (_ & _ & Hrng). simpl in Hrng.
    inversion Hrng as [| ? ? [_ Hlt] _]; subst.
    revert Hlt. apply Qle_not_lt. discriminate.
  - split; vm_compute; reflexivity.
Qed.

(** ** Entries written in place *)

Lemma setitem_ok {A : Type} (l l' : list A) (i : nat) (y : A) :
  setitem l i y = Ok l' -> l' = update l i y /\ (i < length l)%nat.
Proof.
  revert i l'. induction l as [| x t IH]; intros [| j] l' H; simpl in *; try discriminate.
  - injection H as <-. split; [reflexivity | lia].
  - inv_bind H. injection H as <-.
    destruct (IH _ _ Ha) as [-> Hj]. split; [reflexivity | lia].
Qed.

Lemma setitem_lt {A : Type} (l : list A) (i : nat) (y : A) :
  (i < length l)%nat -> setitem l i y = Ok (update l i y).
Proof.
  revert i. induction l as [| x t IH]; intros [| j] H; simpl in *; try lia.
  - reflexivity.
  - rewrite IH by lia. reflexivity.
Qed.

Lemma update_length {A : Type} (l : list A) (i : nat) (y : A) :
  length (update l i y) = length l.
Proof.
  revert i. induction l as [| x t IH]; intros [| j]; simpl; try reflexivity.
  rewrite IH. reflexivity.
Qed.

Lemma update_nth_same {A : Type} (l : list A) (i : nat) (y d : A) :
  (i < length l)%nat -> nth i (update l i y) d = y.
Proof.
  revert i. induction l as [| x t IH]; intros [| j] H; simpl in *; try lia.
  - reflexivity.
  - apply IH. lia.
Qed.

Lemma update_nth_other {A : Type} (l : list A) (i j : nat) (y d : A) :
  i <> j -> nth j (update l i y) d = nth j l d.
Proof.
  revert i j. induction l as [| x t IH]; intros [| i] [| j] H; simpl; try reflexivity.
  - contradiction.
  - apply IH. lia.
Qed.

Lemma update_Forall {A : Type} (P : A -> Prop) (l : list A) (i : nat) (y : A) :
  Forall P l -> P y -> Forall P (update l i y).
Proof.
  intros Hl Hy. revert i. induction Hl as [| x t Hx Ht IH]; intros [| j]; simpl;
    constructor; auto.
Qed.

(** ** What a successful step of the code has computed *)

Lemma mapM_ok_map {A B : Type} (f : A -> result B) (g : A -> B) (l : list A) (ys : list B) :
  (forall x y, In x l -> f x = Ok y -> y = g x) ->
  mapM f l = Ok ys -> ys = map g l.
Proof.
  revert ys. induction l as [| x t IH]; intros ys Hg H; simpl in *.
  - injection H as <-. reflexivity.
  - inv_bind H. inv_bind H. injection H as <-.
    rewrite (Hg x a (or_introl eq_refl) Ha).
    rewrite (IH a0) by (try assumption; intros; apply Hg; auto).
    reflexivity.
Qed.

Lemma take_ok_inv (v : list Q) (idx : list nat) (vs : list Q) :
  take v idx = Ok vs -> vs = map (fun j => nth j v 0) idx.
Proof.
  apply mapM_ok_map. intros j y _ H.
  apply getitem_ok in H. destruct H as [_ H]. symmetry. apply H.
Qed.

Lemma q_entry_ok_inv (m : MDP) (v : list Q) (a s : nat) (q : Q) :
  q_entry m v a s = Ok q -> q = action_value m v s a.
Proof.
  unfold q_entry. intro H.
  apply bind_ok in H. destruct H as (Ra & HRa & H).
  apply bind_ok in H. destruct H as (r & Hr & H).
  apply bind_ok in H. destruct H as (Pa & HPa & H).
  apply bind_ok in H. destruct H as (p & Hp & H).
  apply bind_ok in H. destruct H as (Sa & HSa & H).
  apply bind_ok in H. destruct H as (sc & Hsc & H).
  apply bind_ok in H. destruct H as (vs & Hvs & H).
  apply bind_ok in H. destruct H as (d & Hd & H).
  injection H as <-.
  apply getitem_ok in HRa, Hr, HPa, Hp, HSa, Hsc.
  destruct HRa as [_ HRa], Hr as [_ Hr], HPa as [_ HPa], Hp as [_ Hp],
           HSa as [_ HSa], Hsc as [_ Hsc].
  apply take_ok_inv in Hvs. subst vs.
  unfold dot in Hd. rewrite length_map in Hd.
  destruct (Nat.eqb (length p) (length sc)) eqn:E; [| discriminate].
  apply Nat.eqb_eq in E. injection Hd as <-.
  rewrite dot_by_index by exact E.
  unfold action_value, reward_of, prob_of, succ_of.
  rewrite (HRa []), (Hr 0), (HPa []), (Hp []), (HSa []), (Hsc []).
  reflexivity.
Qed.

Lemma q_state_ok_inv (m : MDP) (v : list Q) (s : nat) (Qs : list Q) :
  q_state m v s = Ok Qs -> Qs = action_values m v s.
Proof.
  unfold q_state, action_values. apply mapM_ok_map.
  intros a q _ H. apply q_entry_ok_inv. exact H.
Qed.

Lemma amax_ok_inv (l : list Q) (mx : Q) : amax l = Ok mx -> l <> [] /\ mx = max_of l.
Proof.
  destruct l as [| x t]; simpl; intro H; [discriminate |].
  injection H as <-. split; [discriminate | reflexivity].
Qed.

Lemma argmax_ok_inv (l : list Q) (r : nat) :
  argmax l = Ok r -> l <> [] /\ r = first_max_index l.
Proof.
  destruct l as [| x t]; simpl; intro H; [discriminate |].
  injection H as <-. split; [discriminate | reflexivity].
Qed.

(** ** The pass after the loop *)

Lemma final_prefix_length (m : MDP) (v : list Q) (k : nat) :
  length (final_prefix m v k) = length v.
Proof.
  induction k as [| k IH]; simpl; [reflexivity |].
  rewrite update_length. exact IH.
Qed.

Lemma gs_final_pass_spec (m : MDP) (v0 : list Q) (cnt k : nat)
      (pol : list nat) (v' : list Q) (pol' : list nat) :
  gs_final_pass m (seq k cnt) (final_prefix m v0 k) pol = Ok (v', pol') ->
  v' = final_prefix m v0 (k + cnt)
  /\ pol' = pol ++ map (final_action m v0) (seq k cnt)
  /\ ((0 < cnt)%nat -> (1 <= A_ m)%nat /\ (k + cnt <= length v0)%nat).
Proof.
  revert k pol. induction cnt as [| c IH]; intros k pol H.
  - simpl in H. injection H as <- <-. rewrite Nat.add_0_r, app_nil_r.
    repeat split; lia.
  - cbn [seq gs_final_pass] in H.
    apply bind_ok in H. destruct H as (Qs & HQs & H).
    apply bind_ok in H. destruct H as (mx & Hmx & H).
    apply bind_ok in H. destruct H as (v1 & Hv1 & H).
    apply bind_ok in H. destruct H as (am & Ham & H).
    apply q_state_ok_inv in HQs. subst Qs.
    apply amax_ok_inv in Hmx. destruct Hmx as [Hne ->].
    apply setitem_ok in Hv1. destruct Hv1 as [-> Hk].
    apply argmax_ok_inv in Ham. destruct Ham as [_ ->].
    rewrite final_prefix_length in Hk.
    change (update (final_prefix m v0 k) k
                   (max_of (action_values m (final_prefix m v0 k) k)))
      with (final_prefix m v0 (S k)) in H.
    apply IH in H. destruct H as (-> & -> & Hc).
    split; [f_equal; lia |]. split.
    + rewrite <- app_assoc. reflexivity.
    + intros _. split.
      * destruct (A_ m) eqn:E; [| lia].
        exfalso. apply Hne. unfold action_values. rewrite E. reflexivity.
      * destruct c as [| c']; [lia |].
        destruct Hc as [_ Hc]; lia.
Qed.

Lemma same_model_action_values (m m' : MDP) (v : list Q) (s : nat) :
  same_model m m' -> action_values m' v s = action_values m v s.
Proof.
  intro H. unfold action_values. rewrite (sm_A H).
  apply map_ext. intro a. apply same_model_action_value. exact H.
Qed.

Lemma same_model_final_prefix (m m' : MDP) (v : list Q) (k : nat) :
  same_model m m' -> final_prefix m' v k = final_prefix m v k.
Proof.
  intro H. induction k as [| k IH]; simpl; [reflexivity |].
  rewrite IH, (same_model_action_values _ _ H). reflexivity.
Qed.

Lemma same_model_final_action (m m' : MDP) (v : list Q) (s : nat) :
  same_model m m' -> final_action m' v s = final_action m v s.
Proof.
  intro H. unfold final_action.
  rewrite (same_model_final_prefix _ _ H), (same_model_action_values _ _ H).
  reflexivity.
Qed.

Lemma final_prefix_later (m : MDP) (v : list Q) (s t : nat) :
  (s <= t)%nat -> nth t (final_prefix m v s) 0 = nth t v 0.
Proof.
  induction s as [| s IH]; intro H; simpl; [reflexivity |].
  rewrite update_nth_other by lia. apply IH. lia.
Qed.

Lemma final_prefix_earlier (m : MDP) (v : list Q) (s t : nat) :
  (t < s)%nat -> (t < length v)%nat ->
  nth t (final_prefix m v s) 0 = max_of (action_values m (final_prefix m v t) t).
Proof.
  induction s as [| s IH]; intros H Ht; [lia |]. simpl.
  destruct (Nat.eq_dec t s) as [-> | Hne].
  - apply update_nth_same. rewrite final_prefix_length. exact Ht.
  - rewrite update_nth_other by lia. apply IH; lia.
Qed.

Lemma gs_sweep_length (m : MDP) (ss : list nat) (v v' : list Q) :
  gs_sweep m ss v = Ok v' -> length v' = length v.
Proof.
  revert v. induction ss as [| s ss IH]; intros v H; simpl in H.
  - injection H as <-. reflexivity.
  - apply bind_ok in H. destruct H as (Qs & _ & H).
    apply bind_ok in H. destruct H as (mx & _ & H).
    apply bind_ok in H. destruct H as (v1 & Hv1 & H).
    apply setitem_ok in Hv1. destruct Hv1 as [-> _].
    rewrite (IH _ H). apply update_length.
Qed.

(** The loop of the Gauss-Seidel solver writes no policy and keeps the
    length of the value function. *)
Lemma gs_loop_policy_V (fuel : nat) (m m' : MDP) :
  gs_loop fuel m = Ok m' ->
  policy m' = policy m /\
  exists v0 v, V m = Some v0 /\ V m' = Some v /\ length v = length v0.
Proof.
  revert m. induction fuel as [| f IH]; intros m H; [discriminate |].
  cbn [gs_loop] in H.
  apply bind_ok in H. destruct H as (Vprev & HVprev & H).
  apply bind_ok in H. destruct H as (ss & Hss & H).
  apply bind_ok in H. destruct H as (v & Hv & H).
  apply bind_ok in H. destruct H as (d & Hd & H).
  apply bind_ok in H. destruct H as (variation & Hvar & H).
  apply bind_ok in H. destruct H as (th & Hth & H).
  apply gs_sweep_length in Hv.
  assert (HV0 : V m = Some Vprev).
  { unfold get_V in HVprev. simpl in HVprev.
    destruct (V m); [injection HVprev as ->; reflexivity | discriminate]. }
  set (m3 := log_variation _ _ _) in *.
  assert (H3 : policy m3 = policy m /\ V m3 = Some v) by (split; reflexivity).
  destruct H3 as [Hp3 HV3].
  destruct (Qlt_bool _ _);
    [injection H as <-; split; [exact Hp3 | exists Vprev, v; auto] |].
  destruct (Z.eqb _ _);
    [injection H as <-; split; [exact Hp3 | exists Vprev, v; auto] |].
  apply IH in H. destruct H as (Hp & w0 & w & Hw0 & Hw & Hlen).
  split; [congruence |].
  exists Vprev, w. split; [exact HV0 |]. split; [exact Hw |].
  rewrite HV3 in Hw0. injection Hw0 as <-. congruence.
Qed.

(** C4, as amended.  In a Gauss-Seidel run that returns, the loop writes
    no policy; the pass after it visits the states in order and writes
    [V[s]] in place, and [policy[s]] is the first action that reaches
    the maximum of [Q(s, a)] computed from the value function of that
    moment: the entries of the states before [s] are already those
    written by the pass, the entries from [s] on are those the loop
    left. *)
Theorem gs_final_pass_policy (fuel : nat) (m m' : MDP) :
  CpMdpValueIterationGS_run fuel m = Ok m' ->
  exists v0 m1 v,
    V m = Some v0 /\
    gs_loop fuel (log_v m v0) = Ok m1 /\
    policy m1 = policy m /\
    V m1 = Some v /\
    policy m' = Some (map (fun s => first_max_index
                                      (action_values m (final_prefix m v s) s))
                          (seq 0 (visited_states m))) /\
    V m' = Some (final_prefix m v (visited_states m)) /\
    forall s t, (s <= visited_states m)%nat ->
      ((s <= t)%nat -> nth t (final_prefix m v s) 0 = nth t v 0) /\
      ((t < s)%nat ->
       nth t (final_prefix m v s) 0 = max_of (action_values m (final_prefix m v t) t)).
Proof.
  unfold CpMdpValueIterationGS_run. intro H.
  apply bind_ok in H. destruct H as (v0 & Hv0 & H).
  apply bind_ok in H. destruct H as (m1 & Hloop & H).
  apply bind_ok in H. destruct H as (v & Hv & H).
  apply bind_ok in H. destruct H as (ss & Hss & H).
  apply bind_ok in H. destruct H as ([v1 pol] & Hpass & H).
  injection H as <-.
  assert (HV0 : V m = Some v0)
    by (unfold get_V in Hv0; destruct (V m); [injection Hv0 as ->; reflexivity | discriminate]).
  assert (HV1 : V m1 = Some v)
    by (unfold get_V in Hv; destruct (V m1); [injection Hv as ->; reflexivity | discriminate]).
  assert (Hsm : same_model m m1).
  { eapply same_model_trans; [apply same_model_log_v |].
    apply gs_loop_same_model with (fuel := fuel). exact Hloop. }
  destruct (gs_loop_policy_V _ _ Hloop) as (Hpol & _).
  unfold state_range in Hss.
  apply bind_ok in Hss. destruct Hss as (s0 & Hs0 & Hss). injection Hss as <-.
  apply getitem_ok in Hs0. destruct Hs0 as [_ Hs0].
  assert (Hn : length s0 = visited_states m).
  { unfold visited_states. rewrite <- (sm_succ Hsm), (Hs0 []). reflexivity. }
  rewrite Hn in Hpass.
  change v with (final_prefix m1 v 0) in Hpass.
  apply gs_final_pass_spec in Hpass. destruct Hpass as (-> & -> & Hbound).
  exists v0, m1, v.
  split; [exact HV0 |]. split; [exact Hloop |]. split; [exact Hpol |].
  split; [exact HV1 |]. split.
  { simpl. f_equal. apply map_ext. intro s.
    apply (same_model_final_action v s Hsm). }
  split.
  { simpl. f_equal. apply same_model_final_prefix. exact Hsm. }
  intros s t Hs. split.
  - apply final_prefix_later.
  - intro Hts. apply final_prefix_earlier; [exact Hts |].
    assert (0 < visited_states m)%nat by lia.
    destruct (Hbound H) as [_ Hb]. simpl in Hb. lia.
Qed.

Lemma gs_final_pass_policy_witness :
  CpMdpValueIterationGS_run 1 three_state_gs = Ok three_state_gs_final /\
  exists v,
    policy three_state_gs_final
    = Some (map (fun s => first_max_index
                            (action_values three_state_gs
                                           (final_prefix three_state_gs v s) s))
                (seq 0 (visited_states three_state_gs))).
Proof.
  assert (Hrun : CpMdpValueIterationGS_run 1 three_state_gs = Ok three_state_gs_final)
    by (vm_compute; reflexivity).
  split; [exact Hrun |].
  destruct (gs_final_pass_policy 1 three_state_gs Hrun)
    as (v0 & m1 & v & _ & _ & _ & _ & Hpol & _).
  exists v. exact Hpol.
Defined.

(** C4 as stated fails: on [three_state_args] the loop stops after one
    sweep with [V = [10; 10; 15]], for which the greedy action of state 1
    is action 1; the pass after the loop first raises [V[0]] to 20 and
    then appends action 0 for state 1. *)
Lemma gs_final_policy_not_greedy :
  (forall log, CpMdpValueIterationGS_init log three_state_args None = Ok three_state_gs) /\
  CpMdpValueIterationGS_run 1 three_state_gs = Ok three_state_gs_final /\
  gs_loop 1 (log_v three_state_gs (zeros 3)) = Ok three_state_gs_loop /\
  V three_state_gs_loop = Some [10; 10; 15] /\
  _bellmanOperator three_state_gs_loop (Some [10; 10; 15])
  = Ok ([0; 1; 0]%nat, [20; 15; 30]) /\
  first_max_index (action_values three_state_gs [10; 10; 15] 1) = 1%nat /\
  policy three_state_gs_final = Some [0; 0; 0]%nat.
Proof.
  split; [intro log; vm_compute; reflexivity |].
  split; [vm_compute; reflexivity |].
  split; [vm_compute; reflexivity |].
  split; [reflexivity |].
  split; [vm_compute; reflexivity |].
  split; [vm_compute; reflexivity | reflexivity].
Qed.

(** ** The arrays of a policy *)

Lemma chunks_repeat {T : Type} (x : T) (c n : nat) :
  chunks c n (repeat x (n * c)) = repeat (repeat x c) n.
Proof.
  induction n as [| n IH]; simpl; [reflexivity |].
  rewrite repeat_app.
  rewrite firstn_app, repeat_length, Nat.sub_diag, firstn_O, app_nil_r.
  rewrite firstn_all2 by (rewrite repeat_length; lia).
  rewrite skipn_app, repeat_length, Nat.sub_diag, skipn_O.
  rewrite skipn_all2 by (rewrite repeat_length; lia).
  simpl. rewrite IH. reflexivity.
Qed.

Lemma split_repeat {T : Type} (x : T) (c n : nat) :
  (1 <= n)%nat -> split (repeat x (n * c)) n = Ok (repeat (repeat x c) n).
Proof.
  intro Hn. unfold split. destruct n as [| n'] eqn:En; [lia |].
  rewrite <- En. assert (Hn0 : n <> 0%nat) by lia.
  rewrite repeat_length.
  assert (Hmod : ((n * c) mod n = 0)%nat)
    by (rewrite Nat.mul_comm; apply Nat.Div0.mod_mul).
  assert (Hdiv : ((n * c) / n = c)%nat)
    by (rewrite Nat.mul_comm; apply Nat.div_mul; exact Hn0).
  rewrite Hmod, Hdiv, Nat.eqb_refl.
  rewrite chunks_repeat. reflexivity.
Qed.

Record pi_facts (m : MDP) (pol : list nat) : Prop := mkPiFacts {
  pf_wf : wf_facts m;
  pf_states : (1 <= states m)%nat;
  pf_uniform : forall a s, (a < A_ m)%nat -> (s < states m)%nat ->
                           length (succ_of m a s) = chunk_length m;
  pf_policy : policy m = Some pol;
  pf_pol_len : length pol = states m;
  pf_pol_rng : forall s, (s < states m)%nat -> (nth s pol 0 < A_ m)%nat
}.

Lemma pi_shape_facts (m : MDP) :
  pi_shape m = true -> exists pol, pi_facts m pol.
Proof.
  unfold pi_shape. rewrite !andb_true_iff.
  intros [[[Hwf Hst] Hun] Hpol].
  unfold policy_ok in Hpol. destruct (policy m) as [pol |] eqn:Ep; [| discriminate].
  apply andb_true_iff in Hpol. destruct Hpol as [Hlen Hrng].
  apply Nat.eqb_eq in Hlen. apply Nat.leb_le in Hst.
  exists pol. constructor; try assumption.
  - apply mdp_wf_facts. exact Hwf.
  - intros a s Ha Hs. unfold uniform_chunks in Hun.
    rewrite forallb_forall in Hun.
    assert (Hin : In a (seq 0 (A_ m))) by (apply in_seq; lia).
    specialize (Hun a Hin). rewrite forallb_forall in Hun.
    apply Nat.eqb_eq. apply Hun. apply in_seq. lia.
  - intros s Hs. rewrite forallb_forall in Hrng.
    apply Nat.ltb_lt. apply Hrng. apply nth_In. lia.
Qed.

Lemma hd_nth0 {T : Type} (l : list T) (d : T) : hd d l = nth 0 l d.
Proof. destruct l; reflexivity. Qed.

Lemma asarray3_ok {T : Type} (x : list (list (list T))) (n b : nat) :
  length (hd [] x) = n ->
  length (hd [] (hd [] x)) = b ->
  (forall xa, In xa x -> length xa = n /\ forall c, In c xa -> length c = b) ->
  asarray3 x = Ok x.
Proof.
  intros Hn Hb Hall. unfold asarray3. rewrite Hn, Hb.
  replace (forallb _ x) with true; [reflexivity |].
  symmetry. apply forallb_forall. intros xa Hxa.
  destruct (Hall xa Hxa) as [H1 H2].
  apply andb_true_iff. split; [apply Nat.eqb_eq; exact H1 |].
  apply forallb_forall. intros c Hc. apply Nat.eqb_eq. apply H2. exact Hc.
Qed.

Lemma asarray3_succ (m : MDP) (pol : list nat) :
  pi_facts m pol -> asarray3 (split_succ_s m) = Ok (split_succ_s m).
Proof.
  intro F. assert (W := pf_wf F).
  assert (HA := wf_A W). assert (Hst := pf_states F).
  apply asarray3_ok with (n := states m) (b := chunk_length m).
  - rewrite hd_nth0. apply (wf_succ_row W). lia.
  - rewrite !hd_nth0. reflexivity.
  - intros xa Hxa.
    destruct (In_nth _ _ [] Hxa) as (a & Ha & <-).
    rewrite (wf_succ W) in Ha. split; [apply (wf_succ_row W); exact Ha |].
    intros c Hc. destruct (In_nth _ _ [] Hc) as (s & Hs & <-).
    rewrite (wf_succ_row W) in Hs by exact Ha.
    apply (pf_uniform F); assumption.
Qed.

Lemma prob_chunk_length (m : MDP) (pol : list nat) (a s : nat) :
  pi_facts m pol -> (a < A_ m)%nat -> (s < states m)%nat ->
  length (prob_of m a s) = chunk_length m.
Proof.
  intros F Ha Hs. rewrite (wf_chunk_len (pf_wf F)) by assumption.
  apply (pf_uniform F); assumption.
Qed.

Lemma asarray3_prob (m : MDP) (pol : list nat) :
  pi_facts m pol -> asarray3 (split_probability m) = Ok (split_probability m).
Proof.
  intro F. assert (W := pf_wf F).
  assert (HA := wf_A W). assert (Hst := pf_states F).
  apply asarray3_ok with (n := states m) (b := chunk_length m).
  - rewrite hd_nth0. apply (wf_prob_row W). lia.
  - rewrite !hd_nth0. apply (prob_chunk_length (a := 0) (s := 0) F); lia.
  - intros xa Hxa.
    destruct (In_nth _ _ [] Hxa) as (a & Ha & <-).
    rewrite (wf_prob W) in Ha. split; [apply (wf_prob_row W); exact Ha |].
    intros c Hc. destruct (In_nth _ _ [] Hc) as (s & Hs & <-).
    rewrite (wf_prob_row W) in Hs by exact Ha.
    apply (prob_chunk_length F); assumption.
Qed.

Lemma take_nth {T : Type} (d : T) (v : list T) (idx : list nat) :
  (forall j, In j idx -> (j < length v)%nat) ->
  take v idx = Ok (map (fun j => nth j v d) idx).
Proof.
  intro H. unfold take. apply mapM_ext_ok.
  intros j Hj. apply getitem_nth. apply H. exact Hj.
Qed.

Lemma where_eq_In (pol : list nat) (aa i : nat) :
  In i (where_eq pol aa) <-> (i < length pol)%nat /\ nth i pol 0%nat = aa.
Proof.
  unfold where_eq. rewrite filter_In, in_seq, Nat.eqb_eq. intuition lia.
Qed.

Lemma write_all_length {T : Type} (f : nat -> T) (ind : list nat) (dst : list T) :
  length (write_all f ind dst) = length dst.
Proof.
  unfold write_all. revert dst. induction ind as [| i ind IH]; intro dst; simpl.
  - reflexivity.
  - rewrite IH. apply update_length.
Qed.

Lemma write_all_other {T : Type} (f : nat -> T) (ind : list nat) (dst : list T)
      (s : nat) (d : T) :
  ~ In s ind -> nth s (write_all f ind dst) d = nth s dst d.
Proof.
  unfold write_all. revert dst. induction ind as [| i ind IH]; intros dst H; simpl.
  - reflexivity.
  - rewrite IH by (intro Hin; apply H; right; exact Hin).
    apply update_nth_other. intro E. apply H. left. exact E.
Qed.

Lemma write_all_same {T : Type} (f : nat -> T) (ind : list nat) (dst : list T)
      (s : nat) (d : T) :
  In s ind -> (s < length dst)%nat -> nth s (write_all f ind dst) d = f s.
Proof.
  unfold write_all. revert dst. induction ind as [| i ind IH]; intros dst H Hs; simpl.
  - contradiction.
  - destruct (in_dec Nat.eq_dec s ind) as [Hin | Hnin].
    + apply IH; [exact Hin | rewrite update_length; exact Hs].
    + destruct H as [-> | H]; [| contradiction].
      fold (write_all f ind (update dst s (f s))).
      rewrite write_all_other by exact Hnin.
      apply update_nth_same. exact Hs.
Qed.

Lemma setitems_map {T : Type} (f : nat -> T) (ind : list nat) (dst : list T) :
  (forall i, In i ind -> (i < length dst)%nat) ->
  setitems dst ind (map f ind) = Ok (write_all f ind dst).
Proof.
  unfold write_all. revert dst. induction ind as [| i ind IH]; intros dst H; simpl.
  - reflexivity.
  - rewrite setitem_lt by (apply H; left; reflexivity). cbn [bind].
    apply IH. intros j Hj. rewrite update_length. apply H. right. exact Hj.
Qed.

Lemma broadcast_row_ok {T : Type} (n : nat) (d : T) (src : list T) :
  length src = n \/ length src = 1%nat ->
  broadcast_row n src = Ok (broadcast_to n d src).
Proof.
  intro H. unfold broadcast_row, broadcast_to.
  destruct (Nat.eqb (length src) n) eqn:E; [reflexivity |].
  apply Nat.eqb_neq in E. destruct H as [H | H]; [contradiction |].
  destruct src as [| x [| y t]]; simpl in H; try discriminate. reflexivity.
Qed.

Lemma broadcast_row_err {T : Type} (n : nat) (src : list T) :
  length src <> n -> length src <> 1%nat -> broadcast_row n src = Err ValueError.
Proof.
  intros Hn H1. unfold broadcast_row.
  apply Nat.eqb_neq in Hn. rewrite Hn.
  destruct src as [| x [| y t]]; simpl in H1; try reflexivity. contradiction.
Qed.

Lemma broadcast_to_length {T : Type} (n : nat) (d : T) (src : list T) :
  length (broadcast_to n d src) = n.
Proof.
  unfold broadcast_to. destruct (Nat.eqb (length src) n) eqn:E.
  - apply Nat.eqb_eq. exact E.
  - apply repeat_length.
Qed.

Lemma broadcast_to_Forall {T : Type} (P : T -> Prop) (n : nat) (d : T) (src : list T) :
  Forall P src -> (src = [] -> n = 0%nat) -> Forall P (broadcast_to n d src).
Proof.
  intros H He. unfold broadcast_to. destruct (Nat.eqb (length src) n); [exact H |].
  destruct src as [| x t].
  - rewrite He by reflexivity. constructor.
  - simpl. apply Forall_forall. intros y Hy. apply repeat_spec in Hy. subst y.
    inversion H; assumption.
Qed.

Lemma assign_rows_ok {T : Type} (d : T) (n b : nat) (dst : list (list T))
      (ind : list nat) (src : list (list T)) :
  (forall i, In i ind -> (i < length src)%nat /\ (i < length dst)%nat) ->
  (forall i, In i ind -> length (nth i src []) = b) ->
  b = n \/ b = 1%nat ->
  assign_rows n dst ind src
  = Ok (write_all (fun i => broadcast_to n d (nth i src [])) ind dst).
Proof.
  intros Hind Hlen Hb. unfold assign_rows.
  rewrite (take_nth []) by (intros j Hj; apply Hind; exact Hj). cbn [bind].
  rewrite (mapM_ext_ok _ (broadcast_to n d)).
  2:{ intros row Hrow. apply in_map_iff in Hrow. destruct Hrow as (i & <- & Hi).
      apply broadcast_row_ok. rewrite (Hlen i Hi). exact Hb. }
  cbn [bind]. rewrite map_map.
  apply (setitems_map (fun i => broadcast_to n d (nth i src []))).
  intros i Hi. apply Hind. exact Hi.
Qed.

Lemma assign_rows_err {T : Type} (n b : nat) (dst : list (list T))
      (ind : list nat) (src : list (list T)) :
  ind <> [] ->
  (forall i, In i ind -> (i < length src)%nat) ->
  (forall i, In i ind -> length (nth i src []) = b) ->
  b <> n -> b <> 1%nat ->
  assign_rows n dst ind src = Err ValueError.
Proof.
  intros Hne Hind Hlen Hn H1. unfold assign_rows.
  rewrite (take_nth []) by exact Hind. cbn [bind].
  destruct ind as [| i ind]; [contradiction |]. simpl.
  rewrite broadcast_row_err; [reflexivity | |];
    rewrite (Hlen i (or_introl eq_refl)); assumption.
Qed.

Lemma assign_entries_ok (dst : list Q) (ind : list nat) (src : list Q) :
  (forall i, In i ind -> (i < length src)%nat /\ (i < length dst)%nat) ->
  assign_entries dst ind src = Ok (write_all (fun i => nth i src 0) ind dst).
Proof.
  intro Hind. unfold assign_entries.
  rewrite (take_nth 0) by (intros j Hj; apply Hind; exact Hj). cbn [bind].
  apply (setitems_map (fun i => nth i src 0)).
  intros i Hi. apply Hind. exact Hi.
Qed.

Lemma policy_rows_ok (m : MDP) (pol : list nat) :
  pi_facts m pol ->
  chunk_length m = (A_ m - 1)%nat \/ chunk_length m = 1%nat ->
  forall cnt k acc,
    (k + cnt = A_ m)%nat ->
    rows_done m pol k acc ->
    exists acc', policy_rows m pol (seq k cnt) acc = Ok acc' /\
                 rows_done m pol (k + cnt) acc'.
Proof.
  intros F Hb. assert (W := pf_wf F).
  induction cnt as [| c IH]; intros k acc Hk Hinv.
  - exists acc. split; [reflexivity |]. rewrite Nat.add_0_r. exact Hinv.
  - destruct acc as [[Rp Ps] Pp]. destruct Hinv as (HRp & HPs & HPp & Hrows).
    cbn [seq policy_rows].
    assert (Hka : (k < A_ m)%nat) by lia.
    assert (Hind : forall i, In i (where_eq pol k) ->
                             (i < states m)%nat /\ nth i pol 0%nat = k).
    { intros i Hi. apply where_eq_In in Hi. rewrite (pf_pol_len F) in Hi. exact Hi. }
    destruct (where_eq pol k) as [| i0 ind0] eqn:Eind.
    + replace (k + S c)%nat with (S k + c)%nat by lia.
      apply IH; [lia |].
      split; [exact HRp |]. split; [exact HPs |]. split; [exact HPp |].
      intros s Hs Hlt.
      destruct (Nat.eq_dec (nth s pol 0%nat) k) as [E | E].
      * exfalso.
        assert (Hin : In s (where_eq pol k))
          by (apply where_eq_In; rewrite (pf_pol_len F); auto).
        rewrite Eind in Hin. exact Hin.
      * apply Hrows; [exact Hs | lia].
    + rewrite <- Eind in *. clear Eind.
      rewrite (getitem_nth (split_succ_s m) [] (i := k)) by (rewrite (wf_succ W); exact Hka).
      cbn [bind].
      rewrite (assign_rows_ok 0%nat (b := chunk_length m)); [| | | exact Hb].
      2:{ intros i Hi. destruct (Hind i Hi) as [Hi1 _].
          rewrite (wf_succ_row W) by exact Hka. rewrite HPs. auto. }
      2:{ intros i Hi. destruct (Hind i Hi) as [Hi1 _].
          apply (pf_uniform F); assumption. }
      cbn [bind].
      rewrite (getitem_nth (split_probability m) [] (i := k))
        by (rewrite (wf_prob W); exact Hka).
      cbn [bind].
      rewrite (assign_rows_ok 0 (b := chunk_length m)); [| | | exact Hb].
      2:{ intros i Hi. destruct (Hind i Hi) as [Hi1 _].
          rewrite (wf_prob_row W) by exact Hka. rewrite HPp. auto. }
      2:{ intros i Hi. destruct (Hind i Hi) as [Hi1 _].
          apply (prob_chunk_length F); assumption. }
      cbn [bind].
      rewrite (getitem_nth (R m) [] (i := k)) by (rewrite (wf_R W); exact Hka).
      cbn [bind].
      rewrite assign_entries_ok.
      2:{ intros i Hi. destruct (Hind i Hi) as [Hi1 _].
          rewrite (wf_R_row W) by exact Hka. rewrite HRp. auto. }
      cbn [bind].
      replace (k + S c)%nat with (S k + c)%nat by lia.
      apply IH; [lia |].
      split; [rewrite write_all_length; exact HRp |].
      split; [rewrite write_all_length; exact HPs |].
      split; [rewrite write_all_length; exact HPp |].
      intros s Hs Hlt.
      destruct (Nat.eq_dec (nth s pol 0%nat) k) as [E | E].
      * assert (Hin : In s (where_eq pol k))
          by (apply where_eq_In; rewrite (pf_pol_len F); auto).
        rewrite !write_all_same by (try exact Hin; lia).
        unfold policy_reward, laid_out_succ, laid_out_prob, reward_of, succ_of, prob_of.
        rewrite E. auto.
      * assert (Hnin : ~ In s (where_eq pol k))
          by (intro Hin; apply where_eq_In in Hin; tauto).
        rewrite !write_all_other by exact Hnin.
        apply Hrows; [exact Hs | lia].
Qed.

Lemma computePpolicy_ok (m : MDP) (pol : list nat) :
  pi_facts m pol ->
  chunk_length m = (A_ m - 1)%nat \/ chunk_length m = 1%nat ->
  exists acc, _computePpolicyPRpolicy m = Ok acc /\ rows_done m pol (A_ m) acc.
Proof.
  intros F Hb. assert (W := pf_wf F). assert (HA := wf_A W).
  unfold _computePpolicyPRpolicy.
  destruct (Nat.eqb (A_ m) 0) eqn:E0; [apply Nat.eqb_eq in E0; lia |].
  cbn [bind]. unfold zeros at 1.
  rewrite !split_repeat by (apply (pf_states F)). cbn [bind].
  rewrite (asarray3_succ F), (asarray3_prob F). cbn [bind].
  unfold get_policy. rewrite (pf_policy F). cbn [bind].
  apply (policy_rows_ok F Hb (A_ m) 0); [lia |].
  unfold rows_done, zeros. rewrite !repeat_length.
  split; [reflexivity |]. split; [reflexivity |]. split; [reflexivity |].
  intros s _ Hlt. lia.
Qed.

Lemma policy_rows_err (m : MDP) (pol : list nat) :
  pi_facts m pol ->
  chunk_length m <> (A_ m - 1)%nat -> chunk_length m <> 1%nat ->
  forall actions acc,
    (forall aa, In aa actions -> (aa < A_ m)%nat) ->
    (exists aa, In aa actions /\ where_eq pol aa <> []) ->
    policy_rows m pol actions acc = Err ValueError.
Proof.
  intros F Hn H1. assert (W := pf_wf F).
  induction actions as [| k rest IH]; intros acc Hrng Hex.
  - destruct Hex as (aa & [] & _).
  - destruct acc as [[Rp Ps] Pp]. cbn [policy_rows].
    assert (Hka : (k < A_ m)%nat) by (apply Hrng; left; reflexivity).
    destruct (where_eq pol k) as [| i0 ind0] eqn:Eind.
    + apply IH; [intros aa Ha; apply Hrng; right; exact Ha |].
      destruct Hex as (aa & [<- | Hin] & Hne); [contradiction |].
      exists aa. auto.
    + rewrite <- Eind.
      rewrite (getitem_nth (split_succ_s m) [] (i := k)) by (rewrite (wf_succ W); exact Hka).
      cbn [bind].
      rewrite (assign_rows_err (b := chunk_length m)); try assumption; try reflexivity.
      * rewrite Eind. discriminate.
      * intros i Hi. apply where_eq_In in Hi. rewrite (pf_pol_len F) in Hi.
        rewrite (wf_succ_row W) by exact Hka. tauto.
      * intros i Hi. apply where_eq_In in Hi. rewrite (pf_pol_len F) in Hi.
        apply (pf_uniform F); tauto.
Qed.

Lemma computePpolicy_err (m : MDP) (pol : list nat) :
  pi_facts m pol ->
  chunk_length m <> (A_ m - 1)%nat -> chunk_length m <> 1%nat ->
  _computePpolicyPRpolicy m = Err ValueError.
Proof.
  intros F Hn H1. assert (W := pf_wf F). assert (HA := wf_A W).
  unfold _computePpolicyPRpolicy.
  destruct (Nat.eqb (A_ m) 0) eqn:E0; [apply Nat.eqb_eq in E0; lia |].
  cbn [bind]. unfold zeros at 1.
  rewrite !split_repeat by (apply (pf_states F)). cbn [bind].
  rewrite (asarray3_succ F), (asarray3_prob F). cbn [bind].
  unfold get_policy. rewrite (pf_policy F). cbn [bind].
  apply (policy_rows_err F Hn H1).
  - intros aa Ha. apply in_seq in Ha. lia.
  - assert (Hs := pf_states F).
    exists (nth 0 pol 0%nat). split.
    + apply in_seq. assert (H := pf_pol_rng F (s := 0)). lia.
    + intro E.
      assert (Hin : In 0%nat (where_eq pol (nth 0 pol 0%nat)))
        by (apply where_eq_In; rewrite (pf_pol_len F); split; [lia | reflexivity]).
      rewrite E in Hin. exact Hin.
Qed.

Lemma laid_out_succ_shape (m : MDP) (pol : list nat) (s : nat) :
  pi_facts m pol ->
  chunk_length m = (A_ m - 1)%nat \/ chunk_length m = 1%nat ->
  (s < states m)%nat ->
  length (laid_out_succ m pol s) = (A_ m - 1)%nat /\
  length (laid_out_prob m pol s) = (A_ m - 1)%nat /\
  Forall (fun j => (j < states m)%nat) (laid_out_succ m pol s).
Proof.
  intros F Hb Hs. unfold laid_out_succ, laid_out_prob.
  rewrite !broadcast_to_length. split; [reflexivity |]. split; [reflexivity |].
  assert (Ha := pf_pol_rng F Hs).
  apply broadcast_to_Forall.
  - apply (wf_chunk_rng (pf_wf F)); assumption.
  - intro E. assert (Hl := pf_uniform F Ha Hs). rewrite E in Hl. simpl in Hl.
    destruct Hb as [Hb | Hb]; lia.
Qed.

Lemma eval_backup_ok (m : MDP) (pol : list nat) (Rp : list Q)
      (Ps : list (list nat)) (Pp : list (list Q)) (v : list Q) :
  pi_facts m pol ->
  chunk_length m = (A_ m - 1)%nat \/ chunk_length m = 1%nat ->
  rows_done m pol (A_ m) (Rp, Ps, Pp) ->
  length v = states m ->
  eval_backup m Rp Ps Pp v = Ok (laid_out_backup m pol v).
Proof.
  intros F Hb (HRp & HPs & HPp & Hrows) Hv.
  unfold eval_backup, laid_out_backup. apply mapM_ext_ok.
  intros s Hs. apply in_seq in Hs. assert (Hs' : (s < states m)%nat) by lia.
  destruct (Hrows s Hs' (pf_pol_rng F Hs')) as (ER & ES & EP).
  destruct (laid_out_succ_shape F Hb Hs') as (Ls & Lp & Hrng).
  rewrite (getitem_nth Rp 0 (i := s)) by lia. cbn [bind].
  rewrite (getitem_nth Pp [] (i := s)) by lia. cbn [bind].
  rewrite (getitem_nth Ps [] (i := s)) by lia. cbn [bind].
  rewrite ER, ES, EP.
  rewrite take_ok by (rewrite Hv; exact Hrng). cbn [bind].
  unfold dot. rewrite length_map, Lp, Ls, Nat.eqb_refl. cbn [bind].
  rewrite dot_by_index by (rewrite Lp, Ls; reflexivity).
  rewrite ?Ls. reflexivity.
Qed.

Lemma laid_out_backup_length (m : MDP) (pol : list nat) (v : list Q) :
  length (laid_out_backup m pol v) = states m.
Proof. unfold laid_out_backup. rewrite length_map, length_seq. reflexivity. Qed.

Lemma laid_out_iterate_length (m : MDP) (pol : list nat) (k : nat) :
  length (laid_out_iterate m pol k) = states m.
Proof.
  destruct k; simpl; [apply repeat_length | apply laid_out_backup_length].
Qed.

Lemma max_abs_diff_ok (x y : list Q) :
  length x = length y -> x <> [] ->
  max_abs_diff x y = Ok (max_abs_change x y).
Proof.
  intros Hlen Hne. unfold max_abs_diff, asub, max_abs_change.
  rewrite Hlen, Nat.eqb_refl. cbn [bind].
  apply amax_total.
  destruct x as [| a x]; [contradiction |].
  destruct y as [| b y]; [discriminate |]. discriminate.
Qed.

(** ** The evaluation of a policy *)

Lemma eval_loop_spec (m : MDP) (pol : list nat) (Rp : list Q)
      (Ps : list (list nat)) (Pp : list (list Q)) (eps : Q) (cap : nat) :
  pi_facts m pol ->
  chunk_length m = (A_ m - 1)%nat \/ chunk_length m = 1%nat ->
  rows_done m pol (A_ m) (Rp, Ps, Pp) ->
  forall fuel itr,
    (itr < cap)%nat -> (cap - itr <= fuel)%nat ->
    (forall k, (1 <= k <= itr)%nat ->
               ~ laid_out_variation m pol k < ((1 - discount m) / discount m) * eps) ->
    exists n,
      eval_loop fuel m Rp Ps Pp eps cap itr (laid_out_iterate m pol itr)
      = Ok (n, laid_out_iterate m pol n) /\
      laid_out_stops_at m pol eps cap n.
Proof.
  intros F Hb Hrows.
  induction fuel as [| f IH]; intros itr Hlt Hfuel Hbefore; [lia |].
  cbn [eval_loop].
  rewrite (@eval_backup_ok m pol Rp Ps Pp (laid_out_iterate m pol itr) F Hb Hrows)
    by apply laid_out_iterate_length.
  cbn [bind].
  change (laid_out_backup m pol (laid_out_iterate m pol itr))
    with (laid_out_iterate m pol (S itr)).
  rewrite max_abs_diff_ok.
  2:{ rewrite !laid_out_iterate_length. reflexivity. }
  2:{ intro E. apply (f_equal (@length Q)) in E.
      rewrite laid_out_iterate_length in E. simpl in E.
      assert (Hs := pf_states F). lia. }
  cbn [bind].
  assert (Evar : max_abs_change (laid_out_iterate m pol (S itr)) (laid_out_iterate m pol itr)
                 = laid_out_variation m pol (S itr)).
  { unfold laid_out_variation. simpl Nat.sub. rewrite Nat.sub_0_r. reflexivity. }
  rewrite Evar.
  destruct (Qlt_bool (laid_out_variation m pol (S itr))
                     ((1 - discount m) / discount m * eps)) eqn:Elt.
  - apply Qlt_bool_iff in Elt.
    exists (S itr). split; [reflexivity |].
    split; [lia |]. split; [left; exact Elt |].
    intros k Hk. apply Hbefore. lia.
  - assert (Hnot : ~ laid_out_variation m pol (S itr) < (1 - discount m) / discount m * eps).
    { intro H. apply Qlt_bool_iff in H. congruence. }
    destruct (Nat.eqb (S itr) cap) eqn:Ecap.
    + apply Nat.eqb_eq in Ecap.
      exists (S itr). split; [reflexivity |].
      split; [lia |]. split; [right; exact Ecap |].
      intros k Hk. apply Hbefore. lia.
    + apply Nat.eqb_neq in Ecap.
      apply IH; [lia | lia |].
      intros k Hk. destruct (Nat.eq_dec k (S itr)) as [-> | Hne];
        [exact Hnot | apply Hbefore; lia].
Qed.

Lemma evalPolicyIterative_spec (m : MDP) (pol : list nat) :
  pi_facts m pol ->
  chunk_length m = (A_ m - 1)%nat \/ chunk_length m = 1%nat ->
  exists n,
    _evalPolicyIterative m = Ok (n, set_V m (laid_out_iterate m pol n)) /\
    laid_out_stops_at m pol eval_default_epsilon eval_default_max_iter n.
Proof.
  intros F Hb.
  destruct (computePpolicy_ok F Hb) as ([[Rp Ps] Pp] & Hacc & Hrows).
  unfold _evalPolicyIterative, _evalPolicyIterative_with. cbn [bind].
  rewrite Hacc. cbn [bind].
  destruct (@eval_loop_spec m pol Rp Ps Pp eval_default_epsilon eval_default_max_iter
                            F Hb Hrows eval_default_max_iter 0%nat)
    as (n & Hn & Hstop).
  - unfold eval_default_max_iter. lia.
  - lia.
  - intros k Hk. lia.
  - exists n. change (zeros (states m)) with (laid_out_iterate m pol 0).
    rewrite Hn. cbn [bind]. split; [reflexivity | exact Hstop].
Qed.

Lemma broadcastable_cases (m : MDP) :
  broadcastable m = true
  <-> chunk_length m = (A_ m - 1)%nat \/ chunk_length m = 1%nat.
Proof.
  unfold broadcastable. rewrite orb_true_iff, !Nat.eqb_eq. reflexivity.
Qed.

Lemma broadcast_to_exact {T : Type} (n : nat) (d : T) (src : list T) :
  length src = n -> broadcast_to n d src = src.
Proof. intro H. unfold broadcast_to. rewrite H, Nat.eqb_refl. reflexivity. Qed.

(** With chunks of [A - 1] entries the stored rows are the lists of the
    chosen action, and the backup of the code is the backup of the fixed
    policy. *)
Lemma laid_out_rows_exact (m : MDP) (pol : list nat) (s : nat) :
  pi_facts m pol -> chunk_length m = (A_ m - 1)%nat -> (s < states m)%nat ->
  laid_out_succ m pol s = succ_of m (nth s pol 0%nat) s /\
  laid_out_prob m pol s = prob_of m (nth s pol 0%nat) s.
Proof.
  intros F He Hs. assert (Ha := pf_pol_rng F Hs).
  assert (Hl := pf_uniform F Ha Hs).
  assert (Hp := wf_chunk_len (pf_wf F) Ha Hs).
  unfold laid_out_succ, laid_out_prob.
  rewrite !broadcast_to_exact by congruence. split; reflexivity.
Qed.

Lemma laid_out_backup_exact (m : MDP) (pol : list nat) (v : list Q) :
  pi_facts m pol -> chunk_length m = (A_ m - 1)%nat ->
  laid_out_backup m pol v = policy_backup m pol v.
Proof.
  intros F He. unfold laid_out_backup, policy_backup. apply map_ext_in.
  intros s Hs. apply in_seq in Hs. assert (Hs' : (s < states m)%nat) by lia.
  destruct (laid_out_rows_exact F He Hs') as (-> & ->). reflexivity.
Qed.

Lemma laid_out_iterate_exact (m : MDP) (pol : list nat) (k : nat) :
  pi_facts m pol -> chunk_length m = (A_ m - 1)%nat ->
  laid_out_iterate m pol k = policy_iterate m pol k.
Proof.
  intros F He. induction k as [| k IH]; [reflexivity |].
  cbn [laid_out_iterate policy_iterate]. rewrite IH.
  apply laid_out_backup_exact; assumption.
Qed.

Lemma laid_out_variation_exact (m : MDP) (pol : list nat) (k : nat) :
  pi_facts m pol -> chunk_length m = (A_ m - 1)%nat ->
  laid_out_variation m pol k = variation_at m pol k.
Proof.
  intros F He. unfold laid_out_variation, variation_at.
  rewrite !laid_out_iterate_exact by assumption. reflexivity.
Qed.

Lemma laid_out_stops_exact (m : MDP) (pol : list nat) (eps : Q) (cap n : nat) :
  pi_facts m pol -> chunk_length m = (A_ m - 1)%nat ->
  laid_out_stops_at m pol eps cap n -> stops_at m pol eps cap n.
Proof.
  intros F He (Hn & Hlast & Hbefore). split; [exact Hn |]. split.
  - rewrite <- (laid_out_variation_exact n F He). exact Hlast.
  - intros k Hk. rewrite <- (laid_out_variation_exact k F He). apply Hbefore. exact Hk.
Qed.

(** C3, as amended.  Take a solver state with a well-formed model, at
    least one state, state-action lists of exactly [A - 1] successors,
    and a policy with an action index for every state.  The evaluation
    phase of a policy-iteration run, [_evalPolicyIterative()], iterates
    the backup of the fixed policy,
    [V[s] = Rpolicy[s] + discount * sum_i prob[s][i] * V[succ[s][i]]]
    over the successors and probabilities of the action chosen in [s],
    from the zero vector and for all states at once; it stops at the
    first iteration whose largest change is below
    [((1 - discount) / discount) * 0.0001], or after 100 iterations.  The
    accuracy is the default of [_evalPolicyIterative], whatever epsilon
    the constructor was given. *)
Theorem evaluation_stops_by_default_epsilon (m : MDP) :
  pi_shape m = true ->
  chunk_length m = (A_ m - 1)%nat ->
  exists pol n,
    policy m = Some pol /\
    _evalPolicyIterative m = Ok (n, set_V m (policy_iterate m pol n)) /\
    stops_at m pol (1 # 10000) 100 n.
Proof.
  intros Hshape He.
  destruct (pi_shape_facts m Hshape) as (pol & F).
  destruct (evalPolicyIterative_spec F (or_introl He)) as (n & Hn & Hstop).
  exists pol, n. split; [apply (pf_policy F) |].
  rewrite <- (laid_out_iterate_exact n F He).
  split; [exact Hn |]. exact (laid_out_stops_exact F He Hstop).
Qed.

Lemma evaluation_stops_by_default_epsilon_witness :
  exists pol n,
    policy loose_epsilon_pi = Some pol /\
    _evalPolicyIterative loose_epsilon_pi
    = Ok (n, set_V loose_epsilon_pi (policy_iterate loose_epsilon_pi pol n)) /\
    stops_at loose_epsilon_pi pol (1 # 10000) 100 n.
Proof.
  apply (evaluation_stops_by_default_epsilon loose_epsilon_pi).
  - vm_compute. reflexivity.
  - reflexivity.
Defined.

(** C3 as stated fails: with the constructor epsilon 1000 the first
    change, 5, is below [((1 - discount) / discount) * 1000], and the
    evaluation still runs 17 iterations. *)
Lemma evaluation_ignores_constructor_epsilon :
  CpMdpPolicyIteration_init loose_epsilon_args None = Ok loose_epsilon_pi /\
  epsilon loose_epsilon_pi = 1000 /\
  discount loose_epsilon_pi < 1 /\
  policy loose_epsilon_pi = Some [0%nat] /\
  (exists m', _evalPolicyIterative loose_epsilon_pi = Ok (17%nat, m')) /\
  variation_at loose_epsilon_pi [0%nat] 1
  < ((1 - discount loose_epsilon_pi) / discount loose_epsilon_pi) * epsilon loose_epsilon_pi /\
  ~ stops_at loose_epsilon_pi [0%nat] (epsilon loose_epsilon_pi) 100 17.
Proof.
  assert (Hvar : variation_at loose_epsilon_pi [0%nat] 1
                 < ((1 - discount loose_epsilon_pi) / discount loose_epsilon_pi)
                   * epsilon loose_epsilon_pi)
    by (apply Qlt_bool_iff; vm_compute; reflexivity).
  split; [vm_compute; reflexivity |].
  split; [reflexivity |].
  split; [reflexivity |].
  split; [reflexivity |].
  split; [eexists; vm_compute; reflexivity |].
  split; [exact Hvar |].
  intros (_ & _ & Hbefore). apply (Hbefore 1%nat); [lia | exact Hvar].
Qed.

(** ** The shape that the arrays of a policy require *)

Lemma rows_done_shape (m : MDP) (pol : list nat) (Rp : list Q)
      (Ps : list (list nat)) (Pp : list (list Q)) :
  pi_facts m pol ->
  rows_done m pol (A_ m) (Rp, Ps, Pp) ->
  length Rp = states m /\ length Ps = states m /\ length Pp = states m /\
  Forall (fun row => length row = (A_ m - 1)%nat) Ps /\
  Forall (fun row => length row = (A_ m - 1)%nat) Pp.
Proof.
  intros F (HRp & HPs & HPp & Hrows).
  split; [exact HRp |]. split; [exact HPs |]. split; [exact HPp |]. split.
  - apply Forall_forall. intros row Hrow.
    destruct (In_nth _ _ [] Hrow) as (s & Hs & <-). rewrite HPs in Hs.
    destruct (Hrows s Hs (pf_pol_rng F Hs)) as (_ & -> & _).
    apply broadcast_to_length.
  - apply Forall_forall. intros row Hrow.
    destruct (In_nth _ _ [] Hrow) as (s & Hs & <-). rewrite HPp in Hs.
    destruct (Hrows s Hs (pf_pol_rng F Hs)) as (_ & _ & ->).
    apply broadcast_to_length.
Qed.

(** C10, as amended.  Take a solver state with a well-formed model, at
    least one state, state-action lists of one length, and a policy with
    an action index in [[0, A)] for every state.  The arrays that
    [_computePpolicyPRpolicy] returns have [A - 1] entries for every
    state, whenever it returns.  With lists of exactly [A - 1] entries
    it returns, and holds for every state the reward, the successors and
    the probabilities of the action chosen there.  With lists whose
    length is neither [A - 1] nor 1 the assignment raises [ValueError],
    and so does the evaluation, before its first iteration.  Lists of
    one entry with [A - 1 <> 1] are not part of this statement. *)
Theorem policy_arrays_hold_A_minus_1_entries (m : MDP) :
  pi_shape m = true ->
  (forall Rp Ps Pp,
      _computePpolicyPRpolicy m = Ok (Rp, Ps, Pp) ->
      length Rp = states m /\ length Ps = states m /\ length Pp = states m /\
      Forall (fun row => length row = (A_ m - 1)%nat) Ps /\
      Forall (fun row => length row = (A_ m - 1)%nat) Pp) /\
  (chunk_length m = (A_ m - 1)%nat ->
   exists pol Rp Ps Pp,
     policy m = Some pol /\
     _computePpolicyPRpolicy m = Ok (Rp, Ps, Pp) /\
     forall s, (s < states m)%nat ->
               nth s Rp 0 = reward_of m (nth s pol 0%nat) s /\
               nth s Ps [] = succ_of m (nth s pol 0%nat) s /\
               nth s Pp [] = prob_of m (nth s pol 0%nat) s) /\
  (chunk_length m <> (A_ m - 1)%nat -> chunk_length m <> 1%nat ->
   _computePpolicyPRpolicy m = Err ValueError /\
   _evalPolicyIterative m = Err ValueError).
Proof.
  intro Hshape. destruct (pi_shape_facts m Hshape) as (pol & F).
  split; [| split].
  - intros Rp Ps Pp Hret.
    destruct (Nat.eq_dec (chunk_length m) (A_ m - 1)) as [He | Hne].
    + destruct (computePpolicy_ok F (or_introl He)) as (acc & Hacc & Hrows).
      rewrite Hret in Hacc. injection Hacc as <-.
      apply (rows_done_shape F Hrows).
    + destruct (Nat.eq_dec (chunk_length m) 1) as [H1 | Hn1].
      * destruct (computePpolicy_ok F (or_intror H1)) as (acc & Hacc & Hrows).
        rewrite Hret in Hacc. injection Hacc as <-.
        apply (rows_done_shape F Hrows).
      * rewrite (computePpolicy_err F Hne Hn1) in Hret. discriminate Hret.
  - intro He.
    destruct (computePpolicy_ok F (or_introl He)) as ([[Rp Ps] Pp] & Hacc & Hrows).
    exists pol, Rp, Ps, Pp. split; [apply (pf_policy F) |]. split; [exact Hacc |].
    intros s Hs. destruct Hrows as (_ & _ & _ & Hrows).
    destruct (Hrows s Hs (pf_pol_rng F Hs)) as (ER & ES & EP).
    destruct (laid_out_rows_exact F He Hs) as (E1 & E2).
    split; [exact ER |]. split; congruence.
  - intros Hne Hn1.
    assert (Herr := computePpolicy_err F Hne Hn1).
    split; [exact Herr |].
    unfold _evalPolicyIterative, _evalPolicyIterative_with. cbn [bind].
    rewrite Herr. reflexivity.
Qed.

Lemma policy_arrays_hold_A_minus_1_entries_witness :
  (exists pol Rp Ps Pp,
      policy loose_epsilon_pi = Some pol /\
      _computePpolicyPRpolicy loose_epsilon_pi = Ok (Rp, Ps, Pp) /\
      forall s, (s < states loose_epsilon_pi)%nat ->
                nth s Rp 0 = reward_of loose_epsilon_pi (nth s pol 0%nat) s /\
                nth s Ps [] = succ_of loose_epsilon_pi (nth s pol 0%nat) s /\
                nth s Pp [] = prob_of loose_epsilon_pi (nth s pol 0%nat) s) /\
  _computePpolicyPRpolicy two_by_two_pi = Err ValueError /\
  _evalPolicyIterative two_by_two_pi = Err ValueError.
Proof.
  split.
  - apply (policy_arrays_hold_A_minus_1_entries loose_epsilon_pi); reflexivity.
  - apply (policy_arrays_hold_A_minus_1_entries two_by_two_pi);
      [reflexivity | vm_compute; discriminate | vm_compute; discriminate].
Defined.

(** C10 as stated fails: with three actions and one successor per state
    and action the chunks have length 1, not [A - 1 = 2]; the assignment
    repeats the successor and the evaluation runs. *)
Lemma single_successor_chunks_are_broadcast :
  CpMdpPolicyIteration_init three_action_args None = Ok three_action_pi /\
  A_ three_action_pi = 3%nat /\
  chunk_length three_action_pi = 1%nat /\
  chunk_length three_action_pi <> (A_ three_action_pi - 1)%nat /\
  _computePpolicyPRpolicy three_action_pi = Ok ([0], [[0; 0]]%nat, [[1; 1]]) /\
  exists m', _evalPolicyIterative three_action_pi = Ok (1%nat, m').
Proof.
  split; [vm_compute; reflexivity |].
  split; [reflexivity |]. split; [reflexivity |].
  split; [vm_compute; discriminate |].
  split; [vm_compute; reflexivity |].
  eexists. vm_compute. reflexivity.
Qed.

(** ** The shape of what the solvers return *)

Lemma Forall2_right_Forall {A B : Type} (Rel : A -> B -> Prop) (P : B -> Prop)
      (l : list A) (l' : list B) :
  Forall2 Rel l l' -> (forall x y, Rel x y -> P y) -> Forall P l'.
Proof.
  intros H HP. induction H as [| x y l l' Hxy _ IH]; constructor.
  - apply (HP x y Hxy).
  - exact IH.
Qed.

Lemma bellman_shape (m : MDP) (Varg : option (list Q)) (pol : list nat) (val : list Q) :
  _bellmanOperator m Varg = Ok (pol, val) ->
  length pol = states m /\ length val = states m /\
  Forall (fun a => (a < A_ m)%nat) pol.
Proof.
  unfold _bellmanOperator. intro H.
  apply bind_ok in H. destruct H as (v & _ & H).
  apply bind_ok in H. destruct H as (Qt & HQt & H).
  apply bind_ok in H. destruct H as (pol' & Hpol & H).
  apply bind_ok in H. destruct H as (val' & Hval & H).
  injection H as <- <-.
  assert (HlenQt : length Qt = A_ m)
    by (unfold q_table in HQt; apply mapM_length in HQt;
        rewrite length_seq in HQt; exact HQt).
  split; [apply mapM_length in Hpol; rewrite length_seq in Hpol; exact Hpol |].
  split; [apply mapM_length in Hval; rewrite length_seq in Hval; exact Hval |].
  apply mapM_Forall2 in Hpol.
  apply (Forall2_right_Forall (fun a => (a < A_ m)%nat) Hpol).
  intros s a Ha.
  apply argmax_ok_inv in Ha. destruct Ha as [Hne ->].
  destruct (first_max_index_spec Hne) as (Hlt & _).
  unfold column in Hlt. rewrite length_map, HlenQt in Hlt. exact Hlt.
Qed.

Lemma policy_ok_iff (m : MDP) :
  policy_ok m = true
  <-> exists pol, policy m = Some pol /\ length pol = states m /\
                  Forall (fun a => (a < A_ m)%nat) pol.
Proof.
  unfold policy_ok. destruct (policy m) as [pol |].
  - rewrite andb_true_iff, Nat.eqb_eq, forallb_forall. split.
    + intros [H1 H2]. exists pol. split; [reflexivity |]. split; [exact H1 |].
      apply Forall_forall. intros a Ha. apply Nat.ltb_lt. apply H2. exact Ha.
    + intros (pol' & E & H1 & H2). injection E as <-. split; [exact H1 |].
      rewrite Forall_forall in H2.
      intros a Ha. apply Nat.ltb_lt. apply H2. exact Ha.
  - split; [discriminate | intros (pol & E & _); discriminate].
Qed.

Lemma eval_loop_length (fuel : nat) (m : MDP) (Rp : list Q) (Ps : list (list nat))
      (Pp : list (list Q)) (eps : Q) (cap itr : nat) (v0 : list Q) (n : nat) (v : list Q) :
  eval_loop fuel m Rp Ps Pp eps cap itr v0 = Ok (n, v) -> length v = states m.
Proof.
  revert itr v0. induction fuel as [| f IH]; intros itr v0 H; [discriminate |].
  cbn [eval_loop] in H.
  apply bind_ok in H. destruct H as (v1 & Hv1 & H).
  apply bind_ok in H. destruct H as (variation & _ & H).
  assert (Hlen : length v1 = states m)
    by (unfold eval_backup in Hv1; apply mapM_length in Hv1;
        rewrite length_seq in Hv1; exact Hv1).
  destruct (Qlt_bool _ _); [injection H as _ <-; exact Hlen |].
  destruct (Nat.eqb _ _); [injection H as _ <-; exact Hlen |].
  apply IH in H. exact H.
Qed.

Lemma evalPolicy_shape (m m' : MDP) (n : nat) :
  _evalPolicyIterative m = Ok (n, m') ->
  policy m' = policy m /\ iter m' = iter m /\
  exists v, V m' = Some v /\ length v = states m.
Proof.
  unfold _evalPolicyIterative, _evalPolicyIterative_with. cbn [bind]. intro H.
  apply bind_ok in H. destruct H as ([[Rp Ps] Pp] & _ & H).
  apply bind_ok in H. destruct H as ([n' v] & Hloop & H).
  injection H as _ <-.
  apply eval_loop_length in Hloop.
  split; [reflexivity |]. split; [reflexivity |].
  exists v. split; [reflexivity | exact Hloop].
Qed.

(** What a solver returns: a policy and a value function with one entry
    for every state, and every entry of the policy an action. *)
Lemma pi_loop_shape (fuel : nat) (m : MDP) (inner : list nat) (res : pi_result) :
  policy_ok m = true ->
  pi_loop fuel m inner = Ok res ->
  policy_ok (pi_final res) = true /\
  exists v, V (pi_final res) = Some v /\ length v = states (pi_final res).
Proof.
  revert m inner. induction fuel as [| f IH]; intros m inner Hpol H; [discriminate |].
  cbn [pi_loop] in H.
  apply bind_ok in H. destruct H as ([itr m2] & Heval & H).
  apply bind_ok in H. destruct H as ([policy_next val] & Hbell & H).
  apply bind_ok in H. destruct H as (pol & _ & H).
  apply bind_ok in H. destruct H as (nd & _ & H).
  assert (Hsm : same_model (set_iter m (S (iter m))) m2)
    by (unfold _evalPolicyIterative in Heval;
        apply evalPolicy_same_model in Heval; exact Heval).
  destruct (evalPolicy_shape _ Heval) as (Hp2 & _ & v & HV2 & Hlen).
  assert (Hok2 : policy_ok m2 = true).
  { unfold policy_ok in *. rewrite Hp2, (sm_states Hsm), (sm_A Hsm). exact Hpol. }
  assert (Hdone : policy_ok m2 = true /\
                  exists v, V m2 = Some v /\ length v = states m2).
  { split; [exact Hok2 |]. exists v. split; [exact HV2 |].
    rewrite (sm_states Hsm). exact Hlen. }
  destruct (Nat.eqb nd 0); [injection H as <-; exact Hdone |].
  destruct (Z.eqb _ _); [injection H as <-; exact Hdone |].
  apply IH in H; [exact H |].
  apply bellman_shape in Hbell. destruct Hbell as (Hl & _ & Hrng).
  apply policy_ok_iff. exists policy_next. auto.
Qed.

Lemma vi_loop_shape (fuel : nat) (m m' : MDP) :
  vi_loop fuel m = Ok m' ->
  policy_ok m' = true /\ exists v, V m' = Some v /\ length v = states m'.
Proof.
  revert m. induction fuel as [| f IH]; intros m H; [discriminate |].
  cbn [vi_loop] in H.
  apply bind_ok in H. destruct H as (Vprev & _ & H).
  apply bind_ok in H. destruct H as ([pol v] & Hbell & H).
  apply bind_ok in H. destruct H as (d & _ & H).
  apply bind_ok in H. destruct H as (variation & _ & H).
  apply bind_ok in H. destruct H as (th & _ & H).
  apply bellman_shape in Hbell. destruct Hbell as (Hl & Hlv & Hrng).
  set (m3 := log_variation _ _ _) in *.
  assert (Hdone : policy_ok m3 = true /\
                  exists v, V m3 = Some v /\ length v = states m3).
  { split.
    - apply policy_ok_iff. exists pol. auto.
    - exists v. auto. }
  destruct (Qlt_bool _ _); [injection H as <-; exact Hdone |].
  destruct (Z.eqb _ _); [injection H as <-; exact Hdone |].
  apply IH in H. exact H.
Qed.

Lemma chunks_length {T : Type} (c n : nat) (l : list T) : length (chunks c n l) = n.
Proof.
  revert l. induction n as [| n IH]; intro l; simpl; [reflexivity |].
  rewrite IH. reflexivity.
Qed.

Lemma split_length {T : Type} (l : list T) (n : nat) (cs : list (list T)) :
  split l n = Ok cs -> length cs = n /\ (1 <= n)%nat.
Proof.
  unfold split. destruct n as [| n']; [discriminate |].
  destruct (Nat.eqb _ _); [| discriminate].
  intro H. injection H as <-. split; [| lia].
  simpl. f_equal. apply chunks_length.
Qed.

(** The constructor of the base class leaves one chunk for every state,
    at least one state and at least one action. *)
Lemma MDP_init_shape (x : mdp_args) (m : MDP) :
  MDP_init x = Ok m ->
  visited_states m = states m /\ (1 <= states m)%nat /\ (1 <= A_ m)%nat.
Proof.
  unfold MDP_init. intro H.
  apply bind_ok in H. destruct H as (u1 & _ & H).
  apply bind_ok in H. destruct H as (u2 & _ & H).
  apply bind_ok in H. destruct H as (u3 & _ & H).
  apply bind_ok in H. destruct H as ([nS nA] & Hdim & H).
  apply bind_ok in H. destruct H as (rw & _ & H).
  apply bind_ok in H. destruct H as (sp & Hsp & H).
  injection H as <-. unfold visited_states. simpl.
  unfold _computeDimensions in Hdim.
  apply bind_ok in Hdim. destruct Hdim as (t0 & Ht0 & Hdim). injection Hdim as <- <-.
  apply getitem_ok in Ht0. destruct Ht0 as [HA _].
  destruct (length (arg_succ_s x)) as [| nA'] eqn:EA; [lia |].
  cbn [seq mapM] in Hsp.
  apply bind_ok in Hsp. destruct Hsp as ([cs cp] & Hfirst & Hsp).
  apply bind_ok in Hsp. destruct Hsp as (rest & _ & Hsp). injection Hsp as <-.
  apply bind_ok in Hfirst. destruct Hfirst as (sa & _ & Hfirst).
  apply bind_ok in Hfirst. destruct Hfirst as (cs' & Hcs & Hfirst).
  apply bind_ok in Hfirst. destruct Hfirst as (pa & _ & Hfirst).
  apply bind_ok in Hfirst. destruct Hfirst as (cp' & _ & Hfirst).
  injection Hfirst as <- <-.
  apply split_length in Hcs. destruct Hcs as [Hlen Hst]. simpl.
  split; [exact Hlen |]. split; [exact Hst | lia].
Qed.

Lemma boundIter_fields (log : Q -> Q) (m m' : MDP) (eps : Q) :
  _boundIter log m eps = Ok m' ->
  V m' = V m /\ states m' = states m /\ split_succ_s m' = split_succ_s m /\
  A_ m' = A_ m /\ policy m' = policy m.
Proof.
  unfold _boundIter. intro H.
  apply bind_ok in H. destruct H as (Vprev & _ & H).
  apply bind_ok in H. destruct H as ([pol value] & _ & H).
  apply bind_ok in H. destruct H as (d & _ & H).
  apply bind_ok in H. destruct H as (span & _ & H).
  destruct (Qeq_bool span 0); [discriminate |].
  injection H as <-. repeat split; reflexivity.
Qed.

Lemma init_threshold_fields (log : Q -> Q) (m m' : MDP) (eps : Q) :
  init_threshold log m eps = Ok m' ->
  V m' = V m /\ states m' = states m /\ split_succ_s m' = split_succ_s m /\
  A_ m' = A_ m /\ policy m' = policy m.
Proof.
  unfold init_threshold. intro H.
  destruct (Qlt_bool (discount m) 1).
  - apply bind_ok in H. destruct H as (m1 & Hb & H). injection H as <-.
    apply boundIter_fields in Hb. exact Hb.
  - injection H as <-. repeat split; reflexivity.
Qed.

Lemma GS_init_shape (log : Q -> Q) (x : mdp_args) (iv : option (list Q)) (m : MDP) :
  CpMdpValueIterationGS_init log x iv = Ok m ->
  visited_states m = states m /\
  exists v0, V m = Some v0 /\ length v0 = states m.
Proof.
  unfold CpMdpValueIterationGS_init. intro H.
  apply bind_ok in H. destruct H as (m0 & Hinit & H).
  apply bind_ok in H. destruct H as (m1 & Hm1 & H).
  apply MDP_init_shape in Hinit. destruct Hinit as (Hvis & _ & _).
  apply init_threshold_fields in H. destruct H as (HV & Hst & Hsucc & _ & _).
  unfold visited_states in *. rewrite Hsucc, Hst, HV.
  destruct iv as [v |].
  - destruct (negb (Nat.eqb (length v) (states m0))) eqn:E; [discriminate |].
    injection Hm1 as <-. apply negb_false_iff in E. apply Nat.eqb_eq in E.
    split; [exact Hvis |]. exists v. split; [reflexivity | exact E].
  - injection Hm1 as <-. split; [exact Hvis |].
    exists (zeros (states m0)). split; [reflexivity | apply repeat_length].
Qed.

Lemma gs_run_shape (fuel : nat) (m m' : MDP) :
  CpMdpValueIterationGS_run fuel m = Ok m' ->
  same_model m m' /\
  exists v0 v pol,
    V m = Some v0 /\ V m' = Some v /\ length v = length v0 /\
    policy m' = Some pol /\ length pol = visited_states m /\
    Forall (fun a => (a < A_ m)%nat) pol.
Proof.
  intro Hrun. split; [apply gs_run_same_model with (fuel := fuel); exact Hrun |].
  unfold CpMdpValueIterationGS_run in Hrun.
  apply bind_ok in Hrun. destruct Hrun as (v0 & Hv0 & H).
  apply bind_ok in H. destruct H as (m1 & Hloop & H).
  apply bind_ok in H. destruct H as (v & Hv & H).
  apply bind_ok in H. destruct H as (ss & Hss & H).
  apply bind_ok in H. destruct H as ([v1 pol] & Hpass & H).
  injection H as <-.
  assert (HV0 : V m = Some v0)
    by (unfold get_V in Hv0; destruct (V m); [injection Hv0 as ->; reflexivity | discriminate]).
  assert (HV1 : V m1 = Some v)
    by (unfold get_V in Hv; destruct (V m1); [injection Hv as ->; reflexivity | discriminate]).
  assert (Hsm : same_model m m1).
  { eapply same_model_trans; [apply same_model_log_v |].
    apply gs_loop_same_model with (fuel := fuel). exact Hloop. }
  destruct (gs_loop_policy_V _ _ Hloop) as (_ & w0 & w & Hw0 & Hw & Hlen).
  simpl in Hw0. rewrite HV0 in Hw0. injection Hw0 as <-.
  rewrite HV1 in Hw. injection Hw as <-.
  unfold state_range in Hss.
  apply bind_ok in Hss. destruct Hss as (s0 & Hs0 & Hss). injection Hss as <-.
  apply getitem_ok in Hs0. destruct Hs0 as [_ Hs0].
  assert (Hn : length s0 = visited_states m).
  { unfold visited_states. rewrite <- (sm_succ Hsm), (Hs0 []). reflexivity. }
  rewrite Hn in Hpass.
  change v with (final_prefix m1 v 0) in Hpass.
  apply gs_final_pass_spec in Hpass. destruct Hpass as (-> & -> & Hbound).
  exists v0, (final_prefix m1 v (0 + visited_states m)),
         ([] ++ map (final_action m1 v) (seq 0 (visited_states m))).
  split; [exact HV0 |]. split; [reflexivity |].
  split; [rewrite final_prefix_length; exact Hlen |].
  split; [reflexivity |].
  split; [simpl; rewrite length_map, length_seq; reflexivity |].
  simpl. apply Forall_forall. intros a Ha.
  apply in_map_iff in Ha. destruct Ha as (s & <- & Hs). apply in_seq in Hs.
  assert (Hpos : (0 < visited_states m)%nat) by lia.
  destruct (Hbound Hpos) as [HA _]. rewrite (sm_A Hsm) in HA.
  unfold final_action.
  assert (Hne : action_values m1 (final_prefix m1 v s) s <> [])
    by (apply action_values_nonempty; rewrite (sm_A Hsm); exact HA).
  destruct (first_max_index_spec Hne) as (Hlt & _).
  rewrite action_values_length, (sm_A Hsm) in Hlt. exact Hlt.
Qed.

Lemma policy_ok_solved (m : MDP) :
  policy_ok m = true ->
  (exists v, V m = Some v /\ length v = states m) ->
  solved m.
Proof.
  intros Hpol (v & HV & Hlen).
  apply policy_ok_iff in Hpol. destruct Hpol as (pol & Hp & Hl & Hrng).
  exists pol, v. repeat split; try assumption.
  apply Forall_forall. intros p Hp'. rewrite Forall_forall in Hrng.
  specialize (Hrng p Hp'). lia.
Qed.

Lemma PI_init_policy_ok (x : mdp_args) (m : MDP) :
  CpMdpPolicyIteration_init x None = Ok m -> policy_ok m = true.
Proof.
  unfold CpMdpPolicyIteration_init. intro H.
  apply bind_ok in H. destruct H as (m0 & _ & H).
  apply bind_ok in H. destruct H as (m1 & Hm1 & H). injection H as <-.
  apply bind_ok in Hm1. destruct Hm1 as ([pol val] & Hbell & Hm1).
  injection Hm1 as <-.
  apply bellman_shape in Hbell. destruct Hbell as (Hl & _ & Hrng).
  apply policy_ok_iff. exists pol. auto.
Qed.

(** C7.  When [run] has returned, the solver holds a policy and a value
    function with one entry for every state, and every entry of the
    policy is an action index in [[0, A)]: for the Gauss-Seidel solver
    built by its constructor, for the loop of the standard value
    iteration on any solver state, and for policy iteration built by its
    constructor, without a starting policy or with one that has an
    action index for every state. *)
Theorem solvers_return_policy_and_value :
  (forall log x iv m fuel m',
      CpMdpValueIterationGS_init log x iv = Ok m ->
      CpMdpValueIterationGS_run fuel m = Ok m' ->
      solved m') /\
  (forall fuel m m',
      CpMdpValueIteration_run fuel m = Ok m' ->
      solved m') /\
  (forall x p0 m fuel res,
      CpMdpPolicyIteration_init x p0 = Ok m ->
      p0 = None \/ policy_ok m = true ->
      CpMdpPolicyIteration_run fuel m = Ok res ->
      solved (pi_final res)).
Proof.
  split; [| split].
  - intros log x iv m fuel m' Hinit Hrun.
    apply GS_init_shape in Hinit. destruct Hinit as (Hvis & w0 & Hw0 & Hlw0).
    apply gs_run_shape in Hrun.
    destruct Hrun as (Hsm & v0 & v & pol & HV0 & HV & Hlen & Hpol & Hlp & Hrng).
    rewrite Hw0 in HV0. injection HV0 as <-.
    exists pol, v. rewrite (sm_states Hsm), (sm_A Hsm).
    split; [exact Hpol |]. split; [exact HV |].
    split; [congruence |]. split; [congruence |].
    apply Forall_forall. intros p Hp. rewrite Forall_forall in Hrng.
    specialize (Hrng p Hp). lia.
  - intros fuel m m' Hrun. unfold CpMdpValueIteration_run in Hrun.
    apply vi_loop_shape in Hrun. destruct Hrun as [Hpol HV].
    apply policy_ok_solved; assumption.
  - intros x p0 m fuel res Hinit Hp0 Hrun.
    assert (Hpol : policy_ok m = true).
    { destruct Hp0 as [-> | H]; [| exact H].
      apply PI_init_policy_ok with (x := x). exact Hinit. }
    unfold CpMdpPolicyIteration_run in Hrun.
    apply (@pi_loop_shape fuel m [] res Hpol) in Hrun. destruct Hrun as [Hpol' HV].
    apply policy_ok_solved; assumption.
Qed.

Lemma solvers_return_policy_and_value_witness :
  solved three_state_gs_final /\
  (exists m', CpMdpValueIteration_run 1 three_state_gs = Ok m' /\ solved m') /\
  (exists res, CpMdpPolicyIteration_run 10 loose_epsilon_pi = Ok res /\
               solved (pi_final res)).
Proof.
  destruct solvers_return_policy_and_value as (Hgs & Hvi & Hpi).
  split; [| split].
  - apply (Hgs (fun _ => 0) three_state_args None three_state_gs 1%nat);
      vm_compute; reflexivity.
  - assert (E : exists m', CpMdpValueIteration_run 1 three_state_gs = Ok m')
      by (eexists; vm_compute; reflexivity).
    destruct E as [m' E]. exists m'. split; [exact E |].
    apply (Hvi 1%nat three_state_gs m' E).
  - assert (E : exists res, CpMdpPolicyIteration_run 10 loose_epsilon_pi = Ok res)
      by (eexists; vm_compute; reflexivity).
    destruct E as [res E]. exists res. split; [exact E |].
    apply (Hpi loose_epsilon_args None loose_epsilon_pi 10%nat res);
      [vm_compute; reflexivity | left; reflexivity | exact E].
Defined.

(** ** Policy iteration terminates *)

Lemma greedy_policy_length (m : MDP) (v : list Q) :
  length (greedy_policy m v) = states m.
Proof. unfold greedy_policy. rewrite length_map, length_seq. reflexivity. Qed.

Lemma greedy_policy_ok (m : MDP) (v : list Q) :
  wf_facts m -> policy_ok (set_policy m (greedy_policy m v)) = true.
Proof.
  intro W. apply policy_ok_iff. exists (greedy_policy m v).
  split; [reflexivity |]. split; [exact (greedy_policy_length m v) |].
  apply Forall_forall. intros a Ha. unfold greedy_policy in Ha.
  apply in_map_iff in Ha. destruct Ha as (s & <- & _).
  assert (Hne : action_values m v s <> [])
    by (apply action_values_nonempty; apply (wf_A W)).
  destruct (first_max_index_spec Hne) as (Hlt & _).
  rewrite action_values_length in Hlt. exact Hlt.
Qed.

Lemma pi_loop_terminates (fuel : nat) (m : MDP) (inner : list nat) :
  pi_ready m = true ->
  (Z.of_nat (iter m) < max_iter m)%Z ->
  (max_iter m - Z.of_nat (iter m) <= Z.of_nat fuel)%Z ->
  Forall (fun n => (1 <= n <= 100)%nat) inner ->
  length inner = iter m ->
  exists res,
    pi_loop fuel m inner = Ok res /\
    (iter m < iter (pi_final res))%nat /\
    (Z.of_nat (iter (pi_final res)) <= max_iter m)%Z /\
    length (pi_inner res) = iter (pi_final res) /\
    Forall (fun n => (1 <= n <= 100)%nat) (pi_inner res) /\
    stopped_as res.
Proof.
  revert m inner. induction fuel as [| f IH]; intros m inner Hready Hlt Hfuel Hinner Hlen.
  - simpl in Hfuel. lia.
  - cbn [pi_loop].
    set (m1 := set_iter m (S (iter m))).
    assert (Hready1 : pi_ready m1 = true) by exact Hready.
    unfold pi_ready in Hready1. apply andb_true_iff in Hready1.
    destruct Hready1 as [Hshape Hb].
    destruct (pi_shape_facts m1 Hshape) as (pol & F).
    apply broadcastable_cases in Hb.
    destruct (evalPolicyIterative_spec F Hb) as (n & Heval & Hstop).
    rewrite Heval. cbn [bind].
    set (v := laid_out_iterate m1 pol n) in *.
    set (m2 := set_V m1 v) in *.
    assert (Hwf2 : mdp_wf m2 = true).
    { unfold pi_shape in Hshape. rewrite !andb_true_iff in Hshape.
      destruct Hshape as [[[Hwf _] _] _]. exact Hwf. }
    assert (W2 : wf_facts m2) by (apply mdp_wf_facts; exact Hwf2).
    assert (Hv : length v = states m2) by exact (laid_out_iterate_length m1 pol n).
    rewrite (@bellman_stored m2 v W2 eq_refl Hv). cbn [bind].
    assert (Hpol2 : policy m2 = Some pol) by exact (pf_policy F).
    unfold get_policy. rewrite Hpol2. cbn [bind].
    assert (Hlenp : length pol = states m2) by exact (pf_pol_len F).
    unfold n_different. rewrite greedy_policy_length, Hlenp, Nat.eqb_refl. cbn [bind].
    assert (Hcand : candidate_differences m2
                    = Some (count_neq (greedy_policy m2 v) pol)).
    { unfold candidate_differences. rewrite Hpol2. reflexivity. }
    assert (Hn : (1 <= n <= 100)%nat) by (destruct Hstop as (Hn & _); exact Hn).
    assert (Hinner' : Forall (fun k => (1 <= k <= 100)%nat) (inner ++ [n])).
    { apply Forall_app. split; [exact Hinner |]. constructor; [exact Hn | constructor]. }
    assert (Hlen' : length (inner ++ [n]) = S (iter m))
      by (rewrite length_app, Hlen; simpl; lia).
    destruct (Nat.eqb (count_neq (greedy_policy m2 v) pol) 0) eqn:E0.
    + apply Nat.eqb_eq in E0.
      eexists. split; [reflexivity |]. simpl.
      split; [lia |]. split; [lia |]. split; [exact Hlen' |].
      split; [exact Hinner' |].
      unfold stopped_as. simpl. rewrite Hcand, E0. reflexivity.
    + apply Nat.eqb_neq in E0.
      destruct (Z.eqb (Z.of_nat (iter m2)) (max_iter m2)) eqn:Emax.
      * apply Z.eqb_eq in Emax.
        eexists. split; [reflexivity |]. simpl.
        split; [lia |]. split; [lia |]. split; [exact Hlen' |].
        split; [exact Hinner' |].
        unfold stopped_as. simpl. split; [exact Emax |].
        rewrite Hcand. intro E. injection E as E. contradiction.
      * apply Z.eqb_neq in Emax.
        assert (Hiter2 : iter m2 = S (iter m)) by reflexivity.
        assert (Hmax2 : max_iter m2 = max_iter m) by reflexivity.
        set (m3 := set_policy m2 (greedy_policy m2 v)).
        assert (Hready3 : pi_ready m3 = true).
        { unfold pi_ready, pi_shape in Hready.
          rewrite !andb_true_iff in Hready.
          destruct Hready as [[[[H1 H2] H3] _] H5].
          unfold pi_ready, pi_shape. rewrite !andb_true_iff.
          split; [split; [split; [split |] |] |].
          - exact H1.
          - exact H2.
          - exact H3.
          - exact (greedy_policy_ok v W2).
          - exact H5. }
        destruct (IH m3 (inner ++ [n]) Hready3) as (res & Hres & Hi & Hmax & Hl & Hf & Hs).
        -- change (iter m3) with (S (iter m)). change (max_iter m3) with (max_iter m).
           rewrite Hiter2, Hmax2 in Emax. lia.
        -- change (iter m3) with (S (iter m)). change (max_iter m3) with (max_iter m). lia.
        -- exact Hinner'.
        -- exact Hlen'.
        -- exists res. split; [exact Hres |].
           change (iter m3) with (S (iter m)) in Hi.
           change (max_iter m3) with (max_iter m) in Hmax.
           split; [lia |]. split; [exact Hmax |]. split; [exact Hl |].
           split; [exact Hf | exact Hs].
Qed.

(** C6.  The run of policy iteration does not end as the claim says on
    every valid input.  On [two_by_two_args], two states and two actions
    with two successors of probability 1/2 for every state and action,
    the constructor succeeds and the Bellman operator handles the model,
    but the first evaluation of [run] raises [ValueError]: the arrays of
    [_computePpolicyPRpolicy] hold [A - 1 = 1] entries for a state and
    the lists have two.  The run ends neither with an unchanged policy
    nor at [max_iter]. *)
Theorem policy_iteration_raises_on_two_successors :
  CpMdpPolicyIteration_init two_by_two_args None = Ok two_by_two_pi /\
  mdp_wf two_by_two_pi = true /\
  nonneg_probabilities two_by_two_pi = true /\
  unit_mass two_by_two_pi = true /\
  states two_by_two_pi = 2%nat /\
  A_ two_by_two_pi = 2%nat /\
  chunk_length two_by_two_pi = 2%nat /\
  (0 < discount two_by_two_pi /\ discount two_by_two_pi < 1) /\
  (0 < max_iter two_by_two_pi)%Z /\
  _bellmanOperator two_by_two_pi None
  = Ok (greedy_policy two_by_two_pi [0; 0], backup two_by_two_pi [0; 0]) /\
  (forall fuel, CpMdpPolicyIteration_run (S fuel) two_by_two_pi = Err ValueError) /\
  (forall fuel res, CpMdpPolicyIteration_run fuel two_by_two_pi <> Ok res).
Proof.
  assert (Hrun : forall fuel,
             CpMdpPolicyIteration_run (S fuel) two_by_two_pi = Err ValueError).
  { intro fuel. unfold CpMdpPolicyIteration_run. cbn [pi_loop].
    assert (E : _evalPolicyIterative (set_iter two_by_two_pi (S (iter two_by_two_pi)))
                = Err ValueError) by (vm_compute; reflexivity).
    rewrite E. reflexivity. }
  split; [vm_compute; reflexivity |].
  split; [vm_compute; reflexivity |].
  split; [vm_compute; reflexivity |].
  split; [vm_compute; reflexivity |].
  split; [reflexivity |]. split; [reflexivity |]. split; [reflexivity |].
  split; [split; reflexivity |].
  split; [reflexivity |].
  split; [vm_compute; reflexivity |].
  split; [exact Hrun |].
  intros [| fuel] res H; [discriminate H | rewrite Hrun in H; discriminate H].
Qed.

(** * Further properties of the module *)

(** ** The run of policy iteration on the lists that its arrays take *)

(** X20.  Take a solver state fresh from the constructor, with a
    well-formed model, at least one state, a policy with an action index
    for every state, and state-action lists of one length that the
    assignment of [_computePpolicyPRpolicy] takes: [A - 1] entries, or
    one entry, which it repeats.  Then [run] returns within [max_iter]
    iterations of its loop: every evaluation takes between 1 and 100
    iterations, and the loop ends either with a candidate policy that
    differs from the policy in no state, or, with a candidate that still
    differs, when the count of the iterations has reached [max_iter]. *)
Theorem policy_iteration_terminates (m : MDP) :
  pi_ready m = true ->
  iter m = 0%nat ->
  (0 < max_iter m)%Z ->
  exists res,
    CpMdpPolicyIteration_run (Z.to_nat (max_iter m)) m = Ok res /\
    (1 <= iter (pi_final res))%nat /\
    (Z.of_nat (iter (pi_final res)) <= max_iter m)%Z /\
    length (pi_inner res) = iter (pi_final res) /\
    Forall (fun n => (1 <= n <= 100)%nat) (pi_inner res) /\
    stopped_as res.
Proof.
  intros Hready Hiter Hmax. unfold CpMdpPolicyIteration_run.
  destruct (@pi_loop_terminates (Z.to_nat (max_iter m)) m [] Hready)
    as (res & Hres & Hi & Hrest).
  - rewrite Hiter. simpl. exact Hmax.
  - rewrite Hiter, Z2Nat.id by lia. simpl. lia.
  - constructor.
  - rewrite Hiter. reflexivity.
  - exists res. split; [exact Hres |]. split; [lia | exact Hrest].
Qed.

Lemma policy_iteration_terminates_witness :
  exists res,
    CpMdpPolicyIteration_run (Z.to_nat (max_iter loose_epsilon_pi)) loose_epsilon_pi = Ok res /\
    (1 <= iter (pi_final res))%nat /\
    (Z.of_nat (iter (pi_final res)) <= max_iter loose_epsilon_pi)%Z /\
    length (pi_inner res) = iter (pi_final res) /\
    Forall (fun n => (1 <= n <= 100)%nat) (pi_inner res) /\
    stopped_as res.
Proof.
  apply (policy_iteration_terminates loose_epsilon_pi).
  - vm_compute. reflexivity.
  - reflexivity.
  - reflexivity.
Defined.

(** ** The chunks of [_np.split] *)

Lemma chunks_concat {T : Type} (c n : nat) (l : list T) :
  length l = (n * c)%nat -> concat (chunks c n l) = l.
Proof.
  revert l. induction n as [| n IH]; intros l H; simpl in *.
  - destruct l; [reflexivity | discriminate].
  - rewrite IH.
    + apply firstn_skipn.
    + rewrite length_skipn. lia.
Qed.

Lemma split_ok_inv {T : Type} (l : list T) (n : nat) (cs : list (list T)) :
  split l n = Ok cs ->
  (1 <= n)%nat /\ length l = (n * (length l / n))%nat /\ cs = chunks (length l / n) n l.
Proof.
  unfold split. destruct n as [| n'] eqn:En; [discriminate |]. rewrite <- En.
  destruct (Nat.eqb (length l mod n) 0) eqn:E; [| discriminate].
  intro H. injection H as <-. apply Nat.eqb_eq in E.
  split; [lia |]. split; [| reflexivity].
  assert (Hn : n <> 0%nat) by lia.
  pose proof (Nat.div_mod (length l) n Hn) as Hdm. lia.
Qed.

(** ** The constructor of the base class *)

Lemma bind_err {A B : Type} (r : result A) (k : A -> result B) (e : error) :
  bind r k = Err e -> r = Err e \/ exists a, r = Ok a /\ k a = Err e.
Proof.
  destruct r as [a | e' |]; simpl; intro H.
  - right. exists a. auto.
  - left. injection H as ->. reflexivity.
  - discriminate.
Qed.

Lemma mapM_err {A B : Type} (f : A -> result B) (l : list A) (e : error) :
  mapM f l = Err e -> exists x, In x l /\ f x = Err e.
Proof.
  induction l as [| x t IH]; simpl; intro H; [discriminate |].
  apply bind_err in H. destruct H as [H | (y & Hy & H)].
  - exists x. auto.
  - apply bind_err in H. destruct H as [H | (ys & Hys & H)]; [| discriminate].
    destruct (IH H) as (z & Hz & Hfz). exists z. auto.
Qed.

Lemma getitem_err {A : Type} (l : list A) (i : nat) (e : error) :
  getitem l i = Err e -> e = IndexError.
Proof.
  unfold getitem. destruct (nth_error l i); intro H; [discriminate |].
  injection H as <-. reflexivity.
Qed.

Lemma reshape_err {A : Type} (l : list A) (n : nat) (e : error) :
  reshape l n = Err e -> e = ValueError.
Proof.
  unfold reshape. destruct (Nat.eqb _ _); intro H; [discriminate |].
  injection H as <-. reflexivity.
Qed.

Lemma split_err {A : Type} (l : list A) (n : nat) (e : error) :
  split l n = Err e -> e = ValueError \/ e = ZeroDivisionError.
Proof.
  unfold split. destruct n; [intro H; injection H as <-; right; reflexivity |].
  destruct (Nat.eqb _ _); intro H; [discriminate |].
  injection H as <-. left. reflexivity.
Qed.

Lemma computeVectorReward_err (n nA : nat) (sp : bool) (r : list Q) (e : error) :
  _computeVectorReward n nA sp r = Err e -> e = NotImplementedError \/ e = ValueError.
Proof.
  unfold _computeVectorReward. destruct sp; intro H.
  - injection H as <-. left. reflexivity.
  - apply bind_err in H. destruct H as [H | (y & _ & H)]; [| discriminate].
    apply reshape_err in H. right. exact H.
Qed.

Lemma computeReward_no_assertion (n nA : nat) (rw : reward_input)
      (transition : list (list nat)) :
  _computeReward n nA rw transition <> Err AssertionError.
Proof.
  assert (Hmat : forall (T : Type) (g : T -> list Q) (l : list (T * list nat)),
             mapM (fun rt => _computeMatrixReward (g (fst rt)) (snd rt)) l
             <> Err AssertionError).
  { intros T g l H. apply mapM_err in H. destruct H as (x & _ & H). discriminate H. }
  unfold _computeReward. destruct rw as [sp r | sp r].
  - destruct (_computeVectorReward n nA sp r) as [y | e |] eqn:E; try discriminate.
    apply computeVectorReward_err in E.
    destruct e; try (destruct E as [E | E]; discriminate E); try discriminate.
    destruct (Nat.eqb (length r) nA).
    + apply (Hmat Q (fun q => [q])).
    + discriminate.
  - destruct (_computeArrayReward n nA sp r) as [y | e |] eqn:E; try discriminate.
    destruct e; try discriminate.
    + destruct (Nat.eqb (length r) nA).
      * apply (Hmat (list Q) (fun q => q)).
      * intro H. apply computeVectorReward_err in H. destruct H as [H | H]; discriminate H.
    + exfalso. unfold _computeArrayReward in E. destruct sp; [discriminate |].
      apply mapM_err in E. destruct E as (a & _ & E).
      apply bind_err in E. destruct E as [E | (col & _ & E)].
      * apply mapM_err in E. destruct E as (row & _ & E).
        apply getitem_err in E. discriminate E.
      * apply reshape_err in E. discriminate E.
Qed.

(** X2.  [MDP.__init__] raises [AssertionError] exactly when the
    configuration is invalid: a discount outside [(0, 1]], a [max_iter]
    that is not positive, or an epsilon that is not positive; the arrays
    and the reward are not looked at before. *)
Theorem MDP_init_assertion (x : mdp_args) :
  MDP_init x = Err AssertionError
  <-> ~ (0 < arg_discount x /\ arg_discount x <= 1)
      \/ (arg_max_iter x <= 0)%Z
      \/ ~ 0 < arg_epsilon x.
Proof.
  unfold MDP_init, assert.
  destruct (Qlt_bool 0 (arg_discount x) && Qle_bool (arg_discount x) 1) eqn:Ed.
  2:{ cbn [bind]. split; [intros _ | reflexivity]. left. intros [H1 H2].
      apply Qlt_bool_iff in H1. apply Qle_bool_iff in H2.
      rewrite H1, H2 in Ed. discriminate Ed. }
  apply andb_true_iff in Ed. destruct Ed as [Ed1 Ed2].
  apply Qlt_bool_iff in Ed1. apply Qle_bool_iff in Ed2. cbn [bind].
  destruct (0 <? arg_max_iter x)%Z eqn:Em.
  2:{ cbn [bind]. split; [intros _ | reflexivity]. right. left.
      apply Z.ltb_ge in Em. exact Em. }
  apply Z.ltb_lt in Em. cbn [bind].
  destruct (Qlt_bool 0 (arg_epsilon x)) eqn:Ee.
  2:{ cbn [bind]. split; [intros _ | reflexivity]. right. right. intro H.
      apply Qlt_bool_iff in H. congruence. }
  apply Qlt_bool_iff in Ee. cbn [bind].
  split.
  - intro H. exfalso.
    apply bind_err in H. destruct H as [H | ([nS nA] & _ & H)].
    { unfold _computeDimensions in H.
      apply bind_err in H. destruct H as [H | (t0 & _ & H)]; [| discriminate].
      apply getitem_err in H. discriminate H. }
    apply bind_err in H. destruct H as [H | (rw & _ & H)].
    { exact (computeReward_no_assertion _ _ _ _ H). }
    apply bind_err in H. destruct H as [H | (sp & _ & H)]; [| discriminate].
    apply mapM_err in H. destruct H as (aa & _ & H).
    apply bind_err in H. destruct H as [H | (sa & _ & H)].
    { apply getitem_err in H. discriminate H. }
    apply bind_err in H. destruct H as [H | (cs & _ & H)].
    { apply split_err in H. destruct H as [H | H]; discriminate H. }
    apply bind_err in H. destruct H as [H | (pa & _ & H)].
    { apply getitem_err in H. discriminate H. }
    apply bind_err in H. destruct H as [H | (cp & _ & H)]; [| discriminate].
    apply split_err in H. destruct H as [H | H]; discriminate H.
  - intros [H | [H | H]].
    + exfalso. apply H. split; assumption.
    + lia.
    + contradiction.
Qed.

Lemma Forall2_at {A B : Type} (Rel : A -> B -> Prop) (l : list A) (l' : list B)
      (i : nat) (d : A) (d' : B) :
  Forall2 Rel l l' -> (i < length l)%nat -> Rel (nth i l d) (nth i l' d').
Proof.
  intro H. revert i. induction H as [| x y l l' Hxy _ IH]; intros i Hi; simpl in *.
  - lia.
  - destruct i as [| i]; [exact Hxy | apply IH; lia].
Qed.

(** X3.  When [MDP.__init__] succeeds, there is at least one action and
    one state, [A] is the number of successor arrays, and for every
    action the successors and the probabilities are kept in [states]
    chunks that concatenate back to the flat arrays given: the split
    loses nothing.  The solver starts without value function and policy,
    with an iteration count of zero. *)
Theorem MDP_init_keeps_arrays (x : mdp_args) (m : MDP) :
  MDP_init x = Ok m ->
  A_ m = length (arg_succ_s x) /\ (1 <= A_ m)%nat /\
  states m = arg_states x /\ (1 <= states m)%nat /\
  length (split_succ_s m) = A_ m /\ length (split_probability m) = A_ m /\
  (forall a, (a < A_ m)%nat ->
     length (nth a (split_succ_s m) []) = states m /\
     concat (nth a (split_succ_s m) []) = nth a (arg_succ_s x) [] /\
     length (nth a (split_probability m) []) = states m /\
     concat (nth a (split_probability m) []) = nth a (arg_probability_s x) []) /\
  iter m = 0%nat /\ V m = None /\ policy m = None.
Proof.
  intro Hinit.
  destruct (MDP_init_shape x Hinit) as (_ & Hst & HA).
  destruct (MDP_init_fields x Hinit) as (rw & _ & _ & Hstates & HAlen & _ & _ & _ & _ & _
                                         & HV & Hpol & Hiter).
  unfold MDP_init in Hinit.
  apply bind_ok in Hinit. destruct Hinit as (u1 & _ & H).
  apply bind_ok in H. destruct H as (u2 & _ & H).
  apply bind_ok in H. destruct H as (u3 & _ & H).
  apply bind_ok in H. destruct H as ([nS nA] & Hdim & H).
  apply bind_ok in H. destruct H as (rw' & _ & H).
  apply bind_ok in H. destruct H as (sp & Hsp & H).
  injection H as <-. simpl in *.
  assert (Hlsp : length sp = nA)
    by (apply mapM_length in Hsp; rewrite length_seq in Hsp; exact Hsp).
  apply mapM_Forall2 in Hsp.
  split; [exact HAlen |]. split; [exact HA |]. split; [reflexivity |].
  split; [exact Hst |].
  split; [rewrite length_map; exact Hlsp |].
  split; [rewrite length_map; exact Hlsp |].
  split; [| auto].
  intros a Ha.
  assert (Hat := @Forall2_at _ _ _ _ _ a 0%nat ([], []) Hsp).
  rewrite length_seq in Hat. specialize (Hat Ha).
  rewrite seq_nth in Hat by exact Ha. simpl in Hat.
  apply bind_ok in Hat. destruct Hat as (sa & Hsa & Hat).
  apply bind_ok in Hat. destruct Hat as (cs & Hcs & Hat).
  apply bind_ok in Hat. destruct Hat as (pa & Hpa & Hat).
  apply bind_ok in Hat. destruct Hat as (cp & Hcp & Hat).
  apply getitem_ok in Hsa, Hpa. destruct Hsa as [_ Hsa], Hpa as [_ Hpa].
  rewrite (Hsa []), (Hpa []).
  assert (Hfst : nth a (map fst sp) [] = fst (nth a sp ([], [])))
    by exact (map_nth fst sp ([], []) a).
  assert (Hsnd : nth a (map snd sp) [] = snd (nth a sp ([], [])))
    by exact (map_nth snd sp ([], []) a).
  rewrite Hfst, Hsnd. injection Hat as Hat. rewrite <- Hat. simpl.
  apply split_ok_inv in Hcs, Hcp.
  destruct Hcs as (_ & Hl1 & ->), Hcp as (_ & Hl2 & ->).
  rewrite !chunks_length, !chunks_concat by assumption. auto.
Qed.

Lemma MDP_init_keeps_arrays_witness :
  A_ three_state_model = 2%nat /\
  (forall a, (a < 2)%nat ->
     concat (nth a (split_succ_s three_state_model) [])
     = nth a (arg_succ_s three_state_args) []).
Proof.
  destruct (MDP_init_keeps_arrays three_state_args three_state_init)
    as (HA & _ & _ & _ & _ & _ & Hall & _).
  split; [exact HA |].
  intros a Ha. destruct (Hall a Ha) as (_ & H & _). exact H.
Defined.

(** ** The reward in its other forms *)

(** X4.  A non-sparse reward array with one row for every state and at
    least [A] columns is resolved by columns: the reward of action [a]
    in state [s] is the entry [reward[s][a]]. *)
Theorem array_reward_by_columns (n nA : nat) (r : list (list Q))
        (transition : list (list nat)) :
  length r = n ->
  Forall (fun row => (nA <= length row)%nat) r ->
  exists rw,
    _computeReward n nA (RewardArray false r) transition = Ok rw /\
    length rw = nA /\
    forall a s, (a < nA)%nat -> (s < n)%nat ->
                nth s (nth a rw []) 0 = nth a (nth s r []) 0.
Proof.
  intros Hlen Hcols.
  exists (map (fun a => map (fun row => nth a row 0) r) (seq 0 nA)).
  assert (Harr : _computeArrayReward n nA false r
                 = Ok (map (fun a => map (fun row => nth a row 0) r) (seq 0 nA))).
  { unfold _computeArrayReward. apply mapM_ext_ok.
    intros a Ha. apply in_seq in Ha.
    rewrite (mapM_ext_ok _ (fun row => nth a row 0)).
    - cbn [bind]. unfold reshape. rewrite length_map, Hlen, Nat.eqb_refl. reflexivity.
    - intros row Hrow. apply getitem_nth.
      rewrite Forall_forall in Hcols. specialize (Hcols row Hrow). lia. }
  split; [unfold _computeReward; rewrite Harr; reflexivity |].
  split; [rewrite length_map, length_seq; reflexivity |].
  intros a s Ha Hs.
  rewrite (nth_map_seq (fun a => map (fun row => nth a row 0) r)) by exact Ha.
  rewrite (nth_indep _ 0 (nth a [] 0)) by (rewrite length_map; lia).
  apply (map_nth (fun row => nth a row 0)).
Qed.

Lemma array_reward_by_columns_witness :
  exists rw,
    _computeReward 2 2 (RewardArray false [[1; 2]; [3; 4]]) [[0; 1]; [1; 0]]%nat = Ok rw /\
    length rw = 2%nat /\
    forall a s, (a < 2)%nat -> (s < 2)%nat ->
                nth s (nth a rw []) 0 = nth a (nth s [[1; 2]; [3; 4]] []) 0.
Proof.
  apply (@array_reward_by_columns 2 2 [[1; 2]; [3; 4]] [[0; 1]; [1; 0]]%nat).
  - reflexivity.
  - repeat constructor.
Defined.

(** X5.  Reward resolution raises [NotImplementedError] for a sparse
    reward of either shape, and [ValueError] for a non-sparse vector
    whose length is not the number of states, also when that length is
    the number of actions and the vector is tried again as per-action
    matrices. *)
Theorem reward_resolution_errors (n : nat) (transition : list (list nat))
        (r : list Q) (rows : list (list Q)) :
  _computeReward n (length transition) (RewardVector true r) transition
  = Err NotImplementedError /\
  _computeReward n (length transition) (RewardArray true rows) transition
  = Err NotImplementedError /\
  (transition <> [] -> length r <> n ->
   _computeReward n (length transition) (RewardVector false r) transition
   = Err ValueError).
Proof.
  split; [reflexivity |]. split; [reflexivity |].
  intros Ht Hlen. unfold _computeReward, _computeVectorReward, reshape.
  apply Nat.eqb_neq in Hlen. rewrite Hlen. cbn [bind].
  destruct (Nat.eqb (length r) (length transition)) eqn:E; [| reflexivity].
  apply Nat.eqb_eq in E.
  destruct transition as [| t0 ts]; [contradiction |].
  destruct r as [| q rs]; [discriminate |]. reflexivity.
Qed.

Lemma reward_resolution_errors_witness :
  _computeReward 3 2 (RewardVector false [1; 2]) [[0; 1; 2]; [0; 1; 2]]%nat
  = Err ValueError.
Proof.
  destruct (reward_resolution_errors 3 [[0; 1; 2]; [0; 1; 2]]%nat [1; 2] [])
    as (_ & _ & H).
  apply H; discriminate.
Defined.

(** ** The span *)

Lemma Qmin_lb_l (x y : Q) : Qmin x y <= x.
Proof.
  unfold Qmin. destruct (Qle_bool x y) eqn:E.
  - apply Qle_refl.
  - apply Qlt_le_weak. apply Qlt_bool_iff. unfold Qlt_bool. rewrite E. reflexivity.
Qed.

Lemma Qmin_lb_r (x y : Q) : Qmin x y <= y.
Proof.
  unfold Qmin. destruct (Qle_bool x y) eqn:E.
  - apply Qle_bool_iff. exact E.
  - apply Qle_refl.
Qed.

Lemma Qmin_cases (x y : Q) : Qmin x y = x \/ Qmin x y = y.
Proof. unfold Qmin. destruct (Qle_bool x y); auto. Qed.

Lemma fold_Qmin_le (t : list Q) (x : Q) : fold_left Qmin t x <= x.
Proof.
  revert x. induction t as [| y t IH]; intro x; simpl.
  - apply Qle_refl.
  - eapply Qle_trans; [apply IH | apply Qmin_lb_l].
Qed.

Lemma fold_Qmin_lb (t : list Q) (x y : Q) : In y t -> fold_left Qmin t x <= y.
Proof.
  revert x. induction t as [| z t IH]; intros x H; simpl in *.
  - contradiction.
  - destruct H as [-> | H].
    + eapply Qle_trans; [apply fold_Qmin_le | apply Qmin_lb_r].
    + apply IH. exact H.
Qed.

Lemma fold_Qmin_In (t : list Q) (x : Q) : In (fold_left Qmin t x) (x :: t).
Proof.
  revert x. induction t as [| y t IH]; intro x; simpl.
  - left. reflexivity.
  - destruct (IH (Qmin x y)) as [H | H].
    + destruct (Qmin_cases x y) as [E | E].
      * left. congruence.
      * right. left. congruence.
    + right. right. exact H.
Qed.

(** X6.  [getSpan] raises [ValueError] on an empty array; on any other
    array it returns the difference of two of its entries, which is not
    negative and bounds the difference of every two entries. *)
Theorem getSpan_bounds (l : list Q) :
  (l = [] -> getSpan l = Err ValueError) /\
  (l <> [] ->
   exists hi lo,
     getSpan l = Ok (hi - lo) /\ In hi l /\ In lo l /\
     0 <= hi - lo /\
     forall x y, In x l -> In y l -> x - y <= hi - lo).
Proof.
  split; [intros ->; reflexivity |].
  intro Hne. destruct l as [| a t]; [contradiction |].
  exists (fold_left Qmax t a), (fold_left Qmin t a).
  split; [reflexivity |].
  split; [apply fold_Qmax_In |]. split; [apply fold_Qmin_In |].
  assert (Hhi : forall x, In x (a :: t) -> x <= fold_left Qmax t a)
    by (intros x [<- | Hx]; [apply fold_Qmax_ge | apply fold_Qmax_ub; exact Hx]).
  assert (Hlo : forall y, In y (a :: t) -> fold_left Qmin t a <= y)
    by (intros y [<- | Hy]; [apply fold_Qmin_le | apply fold_Qmin_lb; exact Hy]).
  assert (Hsub : forall x y x' y' : Q, x <= x' -> y' <= y -> x - y <= x' - y').
  { intros x y x' y' H1 H2. unfold Qminus.
    apply Qplus_le_compat; [exact H1 | apply Qopp_le_compat; exact H2]. }
  split.
  - apply (Qle_trans _ (a - a)).
    + unfold Qminus. rewrite Qplus_opp_r. apply Qle_refl.
    + apply Hsub; [apply Hhi | apply Hlo]; left; reflexivity.
  - intros x y Hx Hy. apply Hsub; [apply Hhi; exact Hx | apply Hlo; exact Hy].
Qed.

Lemma getSpan_bounds_witness :
  exists hi lo,
    getSpan [10; 10; 15] = Ok (hi - lo) /\ In hi [10; 10; 15] /\ In lo [10; 10; 15] /\
    0 <= hi - lo /\
    forall x y, In x [10; 10; 15] -> In y [10; 10; 15] -> x - y <= hi - lo.
Proof.
  destruct (getSpan_bounds [10; 10; 15]) as (_ & H).
  apply H. discriminate.
Defined.

(** ** The bound on the iterations *)

Lemma boundIter_one_state (log : Q -> Q) (m : MDP) (q eps : Q) :
  wf_facts m -> states m = 1%nat -> V m = Some [q] ->
  _boundIter log m eps = Err OverflowError.
Proof.
  intros W Hst HV. unfold _boundIter, get_V. rewrite HV. cbn [bind].
  rewrite (@bellman_stored m [q] W HV) by (rewrite Hst; reflexivity).
  cbn [bind]. unfold backup. rewrite Hst. simpl map.
  unfold asub. simpl length. rewrite Nat.eqb_refl. cbn [bind].
  simpl combine. simpl map. unfold getSpan. simpl amax. simpl amin. cbn [bind].
  replace (Qeq_bool _ 0) with true; [reflexivity |].
  symmetry. apply Qeq_bool_iff. ring.
Qed.

(** X7.  The Gauss-Seidel constructor cannot build a solver for any
    process with a single state and a discount below 1: the span of the
    first change of a value function with one entry is zero, and
    [_boundIter] raises [OverflowError]. *)
Theorem one_state_bound_overflows (log : Q -> Q) (x : mdp_args)
        (iv : option (list Q)) (m0 : MDP) :
  MDP_init x = Ok m0 ->
  mdp_wf m0 = true ->
  arg_states x = 1%nat ->
  arg_discount x < 1 ->
  iv = None \/ (exists q, iv = Some [q]) ->
  CpMdpValueIterationGS_init log x iv = Err OverflowError.
Proof.
  intros Hinit Hwf Hst Hd Hiv.
  destruct (MDP_init_fields x Hinit) as (rw & _ & _ & Hstates & _ & Hdisc & _).
  unfold CpMdpValueIterationGS_init. rewrite Hinit. cbn [bind].
  assert (Hst0 : states m0 = 1%nat) by congruence.
  assert (E : exists q,
             match iv with
             | Some v => if negb (Nat.eqb (length v) (states m0)) then Err ValueError
                         else Ok (set_V m0 v)
             | None => Ok (set_V m0 (zeros (states m0)))
             end = Ok (set_V m0 [q])).
  { destruct Hiv as [-> | (q & ->)].
    - exists 0. rewrite Hst0. reflexivity.
    - exists q. rewrite Hst0. reflexivity. }
  destruct E as (q & ->). cbn [bind].
  unfold init_threshold.
  assert (Hlt : Qlt_bool (discount (set_V m0 [q])) 1 = true)
    by (apply Qlt_bool_iff; simpl; rewrite Hdisc; exact Hd).
  rewrite Hlt.
  rewrite (@boundIter_one_state log (set_V m0 [q]) q (arg_epsilon x)).
  - reflexivity.
  - apply mdp_wf_facts. exact Hwf.
  - exact Hst0.
  - reflexivity.
Qed.

Lemma one_state_bound_overflows_witness :
  CpMdpValueIterationGS_init (fun _ => 0) single_state_args (Some [3])
  = Err OverflowError.
Proof.
  apply (@one_state_bound_overflows (fun _ => 0) single_state_args (Some [3])
           (mkMDP (1 # 2) 10 (1 # 100) 1 1 1 [[5]] [[[0%nat]]] [[[1]]]
                  0 None None None [] [])).
  - vm_compute. reflexivity.
  - reflexivity.
  - reflexivity.
  - reflexivity.
  - right. exists 3. reflexivity.
Defined.

(** ** The Gauss-Seidel run *)

Lemma gs_final_pass_sweep (m : MDP) (ss : list nat) (v : list Q) (pol : list nat)
      (v' : list Q) (pol' : list nat) :
  gs_final_pass m ss v pol = Ok (v', pol') -> gs_sweep m ss v = Ok v'.
Proof.
  revert v pol. induction ss as [| s ss IH]; intros v pol H; simpl in *.
  - injection H as <- _. reflexivity.
  - apply bind_ok in H. destruct H as (Qs & HQs & H). rewrite HQs. cbn [bind].
    apply bind_ok in H. destruct H as (mx & Hmx & H). rewrite Hmx. cbn [bind].
    apply bind_ok in H. destruct H as (v1 & Hv1 & H). rewrite Hv1. cbn [bind].
    apply bind_ok in H. destruct H as (am & _ & H).
    apply IH in H. exact H.
Qed.

(** X8.  The value function that a Gauss-Seidel run returns is one
    sweep ahead of the one its stopping test saw: the pass after the
    loop is a further sweep over all states, which is neither counted in
    [iter] nor recorded in [iterations_list] and [v_list]. *)
Theorem gs_returns_one_more_sweep (fuel : nat) (m m' : MDP) :
  CpMdpValueIterationGS_run fuel m = Ok m' ->
  exists v0 m1 v ss v',
    V m = Some v0 /\
    gs_loop fuel (log_v m v0) = Ok m1 /\
    V m1 = Some v /\
    state_range m1 = Ok ss /\
    gs_sweep m1 ss v = Ok v' /\
    V m' = Some v' /\
    iter m' = iter m1 /\
    iterations_list m' = iterations_list m1 /\
    v_list m' = v_list m1.
Proof.
  unfold CpMdpValueIterationGS_run. intro H.
  apply bind_ok in H. destruct H as (v0 & Hv0 & H).
  apply bind_ok in H. destruct H as (m1 & Hloop & H).
  apply bind_ok in H. destruct H as (v & Hv & H).
  apply bind_ok in H. destruct H as (ss & Hss & H).
  apply bind_ok in H. destruct H as ([v1 pol] & Hpass & H).
  injection H as <-.
  exists v0, m1, v, ss, v1.
  split; [unfold get_V in Hv0; destruct (V m); [injection Hv0 as ->; reflexivity | discriminate] |].
  split; [exact Hloop |].
  split; [unfold get_V in Hv; destruct (V m1); [injection Hv as ->; reflexivity | discriminate] |].
  split; [exact Hss |].
  split; [apply gs_final_pass_sweep in Hpass; exact Hpass |].
  repeat split; reflexivity.
Qed.

Lemma gs_returns_one_more_sweep_witness :
  exists v0 m1 v ss v',
    V three_state_gs = Some v0 /\
    gs_loop 1 (log_v three_state_gs v0) = Ok m1 /\
    V m1 = Some v /\
    state_range m1 = Ok ss /\
    gs_sweep m1 ss v = Ok v' /\
    V three_state_gs_final = Some v' /\
    iter three_state_gs_final = iter m1 /\
    iterations_list three_state_gs_final = iterations_list m1 /\
    v_list three_state_gs_final = v_list m1.
Proof.
  apply (@gs_returns_one_more_sweep 1 three_state_gs three_state_gs_final).
  vm_compute. reflexivity.
Defined.

Lemma vi_ready_facts (m : MDP) :
  vi_ready m = true ->
  mdp_wf m = true /\ (1 <= states m)%nat /\
  (exists v, V m = Some v /\ length v = states m) /\
  (exists th, thresh m = Some th).
Proof.
  unfold vi_ready. rewrite !andb_true_iff. intros [[[H1 H2] H3] H4].
  split; [exact H1 |]. split; [apply Nat.leb_le; exact H2 |]. split.
  - destruct (V m) as [v |]; [| discriminate].
    exists v. split; [reflexivity | apply Nat.eqb_eq; exact H3].
  - destruct (thresh m) as [th |]; [| discriminate]. exists th. reflexivity.
Qed.

Lemma gs_sweep_ok (m : MDP) (ss : list nat) (v : list Q) :
  wf_facts m -> length v = states m ->
  Forall (fun s => (s < states m)%nat) ss ->
  exists v', gs_sweep m ss v = Ok v' /\ length v' = states m.
Proof.
  intros W. revert v. induction ss as [| s ss IH]; intros v Hv Hss; simpl.
  - exists v. auto.
  - inversion Hss as [| ? ? Hs Hrest]; subst.
    rewrite (@q_state_values m v s W Hv Hs). cbn [bind].
    rewrite amax_total by (apply action_values_nonempty; apply (wf_A W)). cbn [bind].
    rewrite setitem_lt by lia. cbn [bind].
    apply IH; [rewrite update_length; exact Hv | exact Hrest].
Qed.

Lemma gs_final_pass_ok (m : MDP) (ss : list nat) (v : list Q) (pol : list nat) :
  wf_facts m -> length v = states m ->
  Forall (fun s => (s < states m)%nat) ss ->
  exists v' pol', gs_final_pass m ss v pol = Ok (v', pol').
Proof.
  intros W. revert v pol. induction ss as [| s ss IH]; intros v pol Hv Hss; simpl.
  - exists v, pol. reflexivity.
  - inversion Hss as [| ? ? Hs Hrest]; subst.
    rewrite (@q_state_values m v s W Hv Hs). cbn [bind].
    rewrite amax_total by (apply action_values_nonempty; apply (wf_A W)). cbn [bind].
    rewrite setitem_lt by lia. cbn [bind].
    rewrite argmax_total by (apply action_values_nonempty; apply (wf_A W)). cbn [bind].
    apply IH; [rewrite update_length; exact Hv | exact Hrest].
Qed.

Lemma state_range_wf (m : MDP) :
  wf_facts m ->
  state_range m = Ok (seq 0 (states m)).
Proof.
  intro W. unfold state_range.
  rewrite (getitem_nth (split_succ_s m) [] (i := 0))
    by (rewrite (wf_succ W); apply (wf_A W)).
  cbn [bind]. rewrite (wf_succ_row W) by apply (wf_A W). reflexivity.
Qed.

Lemma seq_below (n : nat) : Forall (fun s => (s < n)%nat) (seq 0 n).
Proof. apply Forall_forall. intros s Hs. apply in_seq in Hs. lia. Qed.

Lemma getSpan_ok (l : list Q) : l <> [] -> exists s, getSpan l = Ok s.
Proof.
  intro H. destruct l as [| a t]; [contradiction |].
  eexists. reflexivity.
Qed.

Lemma asub_same_length (x y : list Q) :
  length x = length y ->
  exists d, asub x y = Ok d /\ length d = length x.
Proof.
  intro H. unfold asub. rewrite H, Nat.eqb_refl.
  eexists. split; [reflexivity |].
  rewrite length_map, length_combine, H. apply Nat.min_id.
Qed.

Tactic Notation "red_fields" :=
  cbn [iter max_iter iterations_list v_list V policy thresh states A_
       log_variation log_v set_V set_iter set_policy].
Tactic Notation "red_fields" "in" hyp(H) :=
  cbn [iter max_iter iterations_list v_list V policy thresh states A_
       log_variation log_v set_V set_iter set_policy] in H.

Lemma gs_loop_terminates (fuel : nat) (m : MDP) :
  vi_ready m = true ->
  (Z.of_nat (iter m) < max_iter m)%Z ->
  (max_iter m - Z.of_nat (iter m) <= Z.of_nat fuel)%Z ->
  exists m',
    gs_loop fuel m = Ok m' /\
    vi_ready m' = true /\
    (iter m < iter m')%nat /\
    (Z.of_nat (iter m') <= max_iter m)%Z /\
    length (iterations_list m')
    = (length (iterations_list m) + (iter m' - iter m))%nat /\
    length (v_list m') = (length (v_list m) + (iter m' - iter m))%nat.
Proof.
  revert m. induction fuel as [| f IH]; intros m Hready Hlt Hfuel.
  - simpl in Hfuel. lia.
  - destruct (vi_ready_facts m Hready) as (Hwf & Hst & (v & HV & Hv) & (th & Hth)).
    cbn [gs_loop].
    set (m1 := set_iter m (S (iter m))).
    assert (W1 : wf_facts m1) by (apply mdp_wf_facts; exact Hwf).
    assert (HV1 : get_V m1 = Ok v) by (unfold get_V; simpl; rewrite HV; reflexivity).
    rewrite HV1. cbn [bind].
    rewrite (state_range_wf W1). cbn [bind].
    destruct (@gs_sweep_ok m1 (seq 0 (states m1)) v W1 Hv (seq_below _))
      as (v' & Hsweep & Hv').
    rewrite Hsweep. cbn [bind].
    destruct (@asub_same_length v' v) as (d & Hd & Hld);
      [rewrite Hv'; symmetry; exact Hv |].
    rewrite Hd. cbn [bind].
    destruct (@getSpan_ok d) as (variation & Hvar).
    { intro E. rewrite E in Hld. simpl in Hld.
      change (states m1) with (states m) in Hv'. lia. }
    rewrite Hvar. cbn [bind].
    set (m3 := log_variation (set_V m1 v') variation v').
    assert (Hth3 : get_thresh m3 = Ok th)
      by (unfold get_thresh; simpl; rewrite Hth; reflexivity).
    rewrite Hth3. cbn [bind].
    assert (Hready3 : vi_ready m3 = true).
    { unfold vi_ready. rewrite !andb_true_iff.
      split; [split; [split |] |].
      - exact Hwf.
      - apply Nat.leb_le. exact Hst.
      - simpl. apply Nat.eqb_eq. exact Hv'.
      - simpl. rewrite Hth. reflexivity. }
    assert (Hdone : vi_ready m3 = true /\ (iter m < iter m3)%nat /\
                    (Z.of_nat (iter m3) <= max_iter m)%Z /\
                    length (iterations_list m3)
                    = (length (iterations_list m) + (iter m3 - iter m))%nat /\
                    length (v_list m3) = (length (v_list m) + (iter m3 - iter m))%nat).
    { split; [exact Hready3 |]. unfold m3, m1. red_fields.
      rewrite !length_app. cbn [length]. repeat split; lia. }
    destruct (Qlt_bool variation th); [exists m3; split; [reflexivity | exact Hdone] |].
    destruct (Z.eqb (Z.of_nat (iter m3)) (max_iter m3)) eqn:Emax;
      [exists m3; split; [reflexivity | exact Hdone] |].
    apply Z.eqb_neq in Emax. unfold m3, m1 in Emax. red_fields in Emax.
    destruct (IH m3 Hready3) as (m' & Hm' & Hr' & Hi & Hmx & Hl1 & Hl2).
    + unfold m3, m1. red_fields. lia.
    + unfold m3, m1. red_fields. lia.
    + exists m'. split; [exact Hm' |]. split; [exact Hr' |].
      unfold m3, m1 in Hi, Hmx, Hl1, Hl2. red_fields in Hi. red_fields in Hmx.
      red_fields in Hl1. red_fields in Hl2.
      rewrite !length_app in Hl1, Hl2. cbn [length] in Hl1, Hl2.
      repeat split; lia.
Qed.

(** X9.  On a well-formed solver with a value function, a threshold and
    an iteration count below [max_iter], the Gauss-Seidel run returns:
    its loop makes at least one and at most [max_iter - iter] further
    sweeps, and records one variation and one value function for every
    sweep, after the value function it started from. *)
Theorem gs_run_terminates (m : MDP) :
  vi_ready m = true ->
  (Z.of_nat (iter m) < max_iter m)%Z ->
  exists m',
    CpMdpValueIterationGS_run (Z.to_nat (max_iter m - Z.of_nat (iter m))) m = Ok m' /\
    (iter m < iter m')%nat /\
    (Z.of_nat (iter m') <= max_iter m)%Z /\
    length (iterations_list m')
    = (length (iterations_list m) + (iter m' - iter m))%nat /\
    length (v_list m') = (length (v_list m) + 1 + (iter m' - iter m))%nat.
Proof.
  intros Hready Hlt.
  destruct (vi_ready_facts m Hready) as (Hwf & Hst & (v0 & HV & Hv0) & (th & Hth)).
  unfold CpMdpValueIterationGS_run, get_V. rewrite HV. cbn [bind].
  destruct (@gs_loop_terminates (Z.to_nat (max_iter m - Z.of_nat (iter m)))
                                (log_v m v0))
    as (m1 & Hloop & Hready1 & Hi & Hmx & Hl1 & Hl2).
  - exact Hready.
  - red_fields. exact Hlt.
  - red_fields. rewrite Z2Nat.id by lia. lia.
  - rewrite Hloop. cbn [bind].
    destruct (vi_ready_facts m1 Hready1) as (Hwf1 & _ & (v & HV1 & Hv) & _).
    assert (W1 : wf_facts m1) by (apply mdp_wf_facts; exact Hwf1).
    rewrite HV1. cbn [bind].
    rewrite (state_range_wf W1). cbn [bind].
    destruct (@gs_final_pass_ok m1 (seq 0 (states m1)) v [] W1 Hv (seq_below _))
      as (v' & pol' & Hpass).
    rewrite Hpass. cbn [bind].
    eexists. split; [reflexivity |].
    red_fields. red_fields in Hi. red_fields in Hmx. red_fields in Hl1. red_fields in Hl2.
    rewrite length_app in Hl2. cbn [length] in Hl2.
    repeat split; lia.
Qed.

Lemma gs_run_terminates_witness :
  exists m',
    CpMdpValueIterationGS_run
      (Z.to_nat (max_iter three_state_gs - Z.of_nat (iter three_state_gs)))
      three_state_gs = Ok m' /\
    (iter three_state_gs < iter m')%nat /\
    (Z.of_nat (iter m') <= max_iter three_state_gs)%Z /\
    length (iterations_list m')
    = (length (iterations_list three_state_gs) + (iter m' - iter three_state_gs))%nat /\
    length (v_list m')
    = (length (v_list three_state_gs) + 1 + (iter m' - iter three_state_gs))%nat.
Proof.
  apply (gs_run_terminates three_state_gs); reflexivity.
Defined.

(** ** The standard value-iteration run *)

Lemma bellman_ok_inv (m : MDP) (v : list Q) (pol : list nat) (val : list Q) :
  V m = Some v ->
  _bellmanOperator m None = Ok (pol, val) ->
  pol = greedy_policy m v /\ val = backup m v.
Proof.
  intros HV H. unfold _bellmanOperator in H. rewrite HV in H. cbn [bind] in H.
  apply bind_ok in H. destruct H as (Qt & HQt & H).
  apply bind_ok in H. destruct H as (pol' & Hpol & H).
  apply bind_ok in H. destruct H as (val' & Hval & H).
  injection H as <- <-.
  assert (EQt : Qt = map (fun a => map (fun s => action_value m v s a)
                                       (seq 0 (states m))) (seq 0 (A_ m))).
  { unfold q_table in HQt. revert HQt. apply mapM_ok_map.
    intros a row _. apply mapM_ok_map.
    intros s q _ Hq. apply q_entry_ok_inv. exact Hq. }
  subst Qt. split.
  - unfold greedy_policy. revert Hpol. apply mapM_ok_map.
    intros s a Hs Ha. apply in_seq in Hs.
    rewrite column_values in Ha by lia.
    apply argmax_ok_inv in Ha. tauto.
  - unfold backup. revert Hval. apply mapM_ok_map.
    intros s a Hs Ha. apply in_seq in Hs.
    rewrite column_values in Ha by lia.
    apply amax_ok_inv in Ha. tauto.
Qed.

(** X10.  When the loop of the standard value iteration returns, the
    policy it holds is greedy for the value function before the last
    backup, and the value function it holds is that backup: the policy
    is one backup behind the value function. *)
Theorem vi_policy_one_backup_behind (fuel : nat) (m m' : MDP) :
  CpMdpValueIteration_run fuel m = Ok m' ->
  (iter m < iter m')%nat /\
  exists vprev,
    policy m' = Some (greedy_policy m' vprev) /\
    V m' = Some (backup m' vprev).
Proof.
  unfold CpMdpValueIteration_run.
  revert m. induction fuel as [| f IH]; intros m H; [discriminate |].
  cbn [vi_loop] in H.
  apply bind_ok in H. destruct H as (Vprev & HVprev & H).
  apply bind_ok in H. destruct H as ([pol v] & Hbell & H).
  apply bind_ok in H. destruct H as (d & _ & H).
  apply bind_ok in H. destruct H as (variation & _ & H).
  apply bind_ok in H. destruct H as (th & _ & H).
  set (m1 := set_iter m (S (iter m))) in *.
  assert (HV1 : V m1 = Some Vprev).
  { unfold get_V in HVprev. destruct (V m1); [injection HVprev as ->; reflexivity | discriminate]. }
  destruct (bellman_ok_inv _ HV1 Hbell) as [-> ->].
  set (m3 := log_variation _ _ _) in *.
  assert (Hdone : (iter m < iter m3)%nat /\
                  exists vprev, policy m3 = Some (greedy_policy m3 vprev) /\
                                V m3 = Some (backup m3 vprev)).
  { split; [unfold m3, m1; red_fields; lia |].
    exists Vprev. split; reflexivity. }
  destruct (Qlt_bool _ _); [injection H as <-; exact Hdone |].
  destruct (Z.eqb _ _); [injection H as <-; exact Hdone |].
  apply IH in H. destruct H as [Hi Hex]. split; [| exact Hex].
  unfold m3, m1 in Hi. red_fields in Hi. lia.
Qed.

Lemma vi_policy_one_backup_behind_witness :
  exists m',
    CpMdpValueIteration_run 1 three_state_gs = Ok m' /\
    (iter three_state_gs < iter m')%nat /\
    exists vprev,
      policy m' = Some (greedy_policy m' vprev) /\
      V m' = Some (backup m' vprev).
Proof.
  assert (E : exists m', CpMdpValueIteration_run 1 three_state_gs = Ok m')
    by (eexists; vm_compute; reflexivity).
  destruct E as [m' E]. exists m'. split; [exact E |].
  apply (vi_policy_one_backup_behind 1 three_state_gs E).
Defined.

Lemma backup_length (m : MDP) (v : list Q) : length (backup m v) = states m.
Proof. unfold backup. rewrite length_map, length_seq. reflexivity. Qed.

Lemma vi_loop_terminates (fuel : nat) (m : MDP) :
  vi_ready m = true ->
  (Z.of_nat (iter m) < max_iter m)%Z ->
  (max_iter m - Z.of_nat (iter m) <= Z.of_nat fuel)%Z ->
  exists m',
    vi_loop fuel m = Ok m' /\
    (iter m < iter m')%nat /\
    (Z.of_nat (iter m') <= max_iter m)%Z /\
    length (iterations_list m')
    = (length (iterations_list m) + (iter m' - iter m))%nat /\
    length (v_list m') = (length (v_list m) + (iter m' - iter m))%nat.
Proof.
  revert m. induction fuel as [| f IH]; intros m Hready Hlt Hfuel.
  - simpl in Hfuel. lia.
  - destruct (vi_ready_facts m Hready) as (Hwf & Hst & (v & HV & Hv) & (th & Hth)).
    cbn [vi_loop].
    set (m1 := set_iter m (S (iter m))).
    assert (W1 : wf_facts m1) by (apply mdp_wf_facts; exact Hwf).
    assert (HV1 : V m1 = Some v) by exact HV.
    unfold get_V. rewrite HV1. cbn [bind].
    rewrite (@bellman_stored m1 v W1 HV1 Hv). cbn [bind].
    destruct (@asub_same_length (backup m1 v) v) as (d & Hd & Hld);
      [rewrite backup_length; symmetry; exact Hv |].
    rewrite Hd. cbn [bind].
    destruct (@getSpan_ok d) as (variation & Hvar).
    { intro E. rewrite E, backup_length in Hld. simpl in Hld.
      change (states m1) with (states m) in Hld. lia. }
    rewrite Hvar. cbn [bind].
    set (m3 := log_variation (set_V (set_policy m1 (greedy_policy m1 v)) (backup m1 v))
                             variation (backup m1 v)).
    assert (Hth3 : get_thresh m3 = Ok th)
      by (unfold get_thresh; simpl; rewrite Hth; reflexivity).
    rewrite Hth3. cbn [bind].
    assert (Hready3 : vi_ready m3 = true).
    { unfold vi_ready. rewrite !andb_true_iff.
      split; [split; [split |] |].
      - exact Hwf.
      - apply Nat.leb_le. exact Hst.
      - apply Nat.eqb_eq. exact (backup_length m1 v).
      - simpl. rewrite Hth. reflexivity. }
    assert (Hdone : (iter m < iter m3)%nat /\
                    (Z.of_nat (iter m3) <= max_iter m)%Z /\
                    length (iterations_list m3)
                    = (length (iterations_list m) + (iter m3 - iter m))%nat /\
                    length (v_list m3) = (length (v_list m) + (iter m3 - iter m))%nat).
    { unfold m3, m1. red_fields.
      rewrite !length_app. cbn [length]. repeat split; lia. }
    destruct (Qlt_bool variation th); [exists m3; split; [reflexivity | exact Hdone] |].
    destruct (Z.eqb (Z.of_nat (iter m3)) (max_iter m3)) eqn:Emax;
      [exists m3; split; [reflexivity | exact Hdone] |].
    apply Z.eqb_neq in Emax. unfold m3, m1 in Emax. red_fields in Emax.
    destruct (IH m3 Hready3) as (m' & Hm' & Hi & Hmx & Hl1 & Hl2).
    + unfold m3, m1. red_fields. lia.
    + unfold m3, m1. red_fields. lia.
    + exists m'. split; [exact Hm' |].
      unfold m3, m1 in Hi, Hmx, Hl1, Hl2. red_fields in Hi. red_fields in Hmx.
      red_fields in Hl1. red_fields in Hl2.
      rewrite !length_app in Hl1, Hl2. cbn [length] in Hl1, Hl2.
      repeat split; lia.
Qed.

(** X11.  On a well-formed solver with a value function, a threshold
    and an iteration count below [max_iter], the loop of the standard
    value iteration returns after at least one and at most
    [max_iter - iter] further backups, and records one variation and one
    value function for every backup. *)
Theorem vi_run_terminates (m : MDP) :
  vi_ready m = true ->
  (Z.of_nat (iter m) < max_iter m)%Z ->
  exists m',
    CpMdpValueIteration_run (Z.to_nat (max_iter m - Z.of_nat (iter m))) m = Ok m' /\
    (iter m < iter m')%nat /\
    (Z.of_nat (iter m') <= max_iter m)%Z /\
    length (iterations_list m')
    = (length (iterations_list m) + (iter m' - iter m))%nat /\
    length (v_list m') = (length (v_list m) + (iter m' - iter m))%nat.
Proof.
  intros Hready Hlt. unfold CpMdpValueIteration_run.
  apply vi_loop_terminates; [exact Hready | exact Hlt |].
  rewrite Z2Nat.id by lia. lia.
Qed.

Lemma vi_run_terminates_witness :
  exists m',
    CpMdpValueIteration_run
      (Z.to_nat (max_iter three_state_gs - Z.of_nat (iter three_state_gs)))
      three_state_gs = Ok m' /\
    (iter three_state_gs < iter m')%nat /\
    (Z.of_nat (iter m') <= max_iter three_state_gs)%Z /\
    length (iterations_list m')
    = (length (iterations_list three_state_gs) + (iter m' - iter three_state_gs))%nat /\
    length (v_list m')
    = (length (v_list three_state_gs) + (iter m' - iter three_state_gs))%nat.
Proof.
  apply (vi_run_terminates three_state_gs); reflexivity.
Defined.

(** ** Policy iteration: what convergence means *)

Lemma count_neq_zero (x y : list nat) :
  length x = length y -> count_neq x y = 0%nat -> x = y.
Proof.
  unfold count_neq. revert y. induction x as [| a x IH]; intros [| b y] Hlen H;
    simpl in *; try discriminate; [reflexivity |].
  destruct (Nat.eqb a b) eqn:E; simpl in H; [| discriminate].
  apply Nat.eqb_eq in E. subst b. f_equal. apply IH; [lia | exact H].
Qed.

Lemma pi_loop_converged (fuel : nat) (m : MDP) (inner : list nat) (res : pi_result) :
  policy_ok m = true ->
  pi_loop fuel m inner = Ok res ->
  pi_reason res = Converged ->
  exists v, V (pi_final res) = Some v /\
            policy (pi_final res) = Some (greedy_policy (pi_final res) v).
Proof.
  revert m inner. induction fuel as [| f IH]; intros m inner Hpol H Hreason; [discriminate |].
  cbn [pi_loop] in H.
  apply bind_ok in H. destruct H as ([itr m2] & Heval & H).
  apply bind_ok in H. destruct H as ([policy_next val] & Hbell & H).
  apply bind_ok in H. destruct H as (pol & Hpol2 & H).
  apply bind_ok in H. destruct H as (nd & Hnd & H).
  assert (Hsm : same_model (set_iter m (S (iter m))) m2)
    by (unfold _evalPolicyIterative in Heval;
        apply evalPolicy_same_model in Heval; exact Heval).
  destruct (evalPolicy_shape _ Heval) as (Hp2 & _ & v & HV2 & Hlen).
  destruct (bellman_ok_inv _ HV2 Hbell) as [-> ->].
  assert (Hpol2' : policy m2 = Some pol).
  { unfold get_policy in Hpol2. destruct (policy m2); [injection Hpol2 as ->; reflexivity | discriminate]. }
  apply policy_ok_iff in Hpol. destruct Hpol as (pol0 & Hp0 & Hl0 & _).
  assert (Epol : pol0 = pol) by (rewrite Hp2 in Hpol2'; simpl in Hpol2'; congruence).
  subst pol0.
  assert (Hlens : length (greedy_policy m2 v) = length pol).
  { rewrite greedy_policy_length, (sm_states Hsm). simpl. symmetry. exact Hl0. }
  unfold n_different in Hnd. rewrite Hlens, Nat.eqb_refl in Hnd. injection Hnd as <-.
  destruct (Nat.eqb (count_neq (greedy_policy m2 v) pol) 0) eqn:E0.
  - injection H as <-. simpl. apply Nat.eqb_eq in E0.
    apply (count_neq_zero _ _ Hlens) in E0.
    exists v. split; [exact HV2 |]. rewrite Hpol2', E0. reflexivity.
  - destruct (Z.eqb _ _).
    + injection H as <-. simpl in Hreason. discriminate Hreason.
    + apply IH in H; [exact H | | exact Hreason].
      apply bellman_shape in Hbell. destruct Hbell as (Hl & _ & Hrng).
      apply policy_ok_iff. exists (greedy_policy m2 v). auto.
Qed.

(** X12.  When policy iteration, started on a policy with an action
    index for every state, ends as converged, the policy it returns is
    the greedy policy of the value function it returns: the first
    maximising action of every state is the action of the policy. *)
Theorem pi_converged_policy_is_greedy (fuel : nat) (m : MDP) (res : pi_result) :
  policy_ok m = true ->
  CpMdpPolicyIteration_run fuel m = Ok res ->
  pi_reason res = Converged ->
  exists v, V (pi_final res) = Some v /\
            policy (pi_final res) = Some (greedy_policy (pi_final res) v).
Proof.
  unfold CpMdpPolicyIteration_run. intros Hpol Hrun Hreason.
  exact (@pi_loop_converged fuel m [] res Hpol Hrun Hreason).
Qed.

Lemma pi_converged_policy_is_greedy_witness :
  exists res,
    CpMdpPolicyIteration_run 10 three_action_pi = Ok res /\
    exists v, V (pi_final res) = Some v /\
              policy (pi_final res) = Some (greedy_policy (pi_final res) v).
Proof.
  assert (E : exists res, CpMdpPolicyIteration_run 10 three_action_pi = Ok res
                          /\ pi_reason res = Converged)
    by (eexists; split; vm_compute; reflexivity).
  destruct E as (res & E & Hr). exists res. split; [exact E |].
  apply (@pi_converged_policy_is_greedy 10 three_action_pi res);
    [reflexivity | exact E | exact Hr].
Defined.

(** X13.  No run writes the model or the configuration: the discount,
    [max_iter], epsilon, the dimensions, the reward, the chunks of
    successors and probabilities and the threshold are after a run of
    any of the three solvers what they were before. *)
Theorem runs_keep_the_model :
  (forall fuel m m', CpMdpValueIterationGS_run fuel m = Ok m' -> same_model m m') /\
  (forall fuel m m', CpMdpValueIteration_run fuel m = Ok m' -> same_model m m') /\
  (forall fuel m res, CpMdpPolicyIteration_run fuel m = Ok res ->
                      same_model m (pi_final res)).
Proof.
  split; [| split].
  - intros fuel m m' H. apply gs_run_same_model with (fuel := fuel). exact H.
  - intros fuel m m' H. apply vi_loop_same_model with (fuel := fuel). exact H.
  - intros fuel m res H. apply pi_loop_same_model with (fuel := fuel) (inner := []).
    exact H.
Qed.

Lemma runs_keep_the_model_witness :
  same_model three_state_gs three_state_gs_final.
Proof.
  destruct runs_keep_the_model as (Hgs & _ & _).
  apply (Hgs 1%nat three_state_gs three_state_gs_final).
  vm_compute. reflexivity.
Defined.

(** ** The arrays of a policy, entry by entry *)

(** X14.  On a solver state that policy iteration can run on, the arrays
    that [_computePpolicyPRpolicy] returns hold for every state the
    reward of the action of the policy, and the successors and
    probabilities of that action: the chunk itself when it has [A - 1]
    entries, and otherwise its single entry repeated [A - 1] times, so
    that a probability of 1 is then counted [A - 1] times. *)
Theorem policy_arrays_entries (m : MDP) :
  pi_ready m = true ->
  exists pol Rp Ps Pp,
    policy m = Some pol /\
    _computePpolicyPRpolicy m = Ok (Rp, Ps, Pp) /\
    forall s, (s < states m)%nat ->
      let a := nth s pol 0%nat in
      nth s Rp 0 = reward_of m a s /\
      (chunk_length m = (A_ m - 1)%nat ->
       nth s Ps [] = succ_of m a s /\ nth s Pp [] = prob_of m a s) /\
      (chunk_length m <> (A_ m - 1)%nat ->
       nth s Ps [] = repeat (nth 0 (succ_of m a s) 0%nat) (A_ m - 1) /\
       nth s Pp [] = repeat (nth 0 (prob_of m a s) 0) (A_ m - 1)).
Proof.
  unfold pi_ready. rewrite andb_true_iff. intros [Hshape Hb].
  destruct (pi_shape_facts m Hshape) as (pol & F).
  apply broadcastable_cases in Hb.
  destruct (computePpolicy_ok F Hb) as ([[Rp Ps] Pp] & Hacc & Hrows).
  exists pol, Rp, Ps, Pp.
  split; [apply (pf_policy F) |]. split; [exact Hacc |].
  intros s Hs. cbv zeta. set (a := nth s pol 0%nat).
  destruct Hrows as (_ & _ & _ & Hrows).
  assert (Ha : (a < A_ m)%nat) by (apply (pf_pol_rng F); exact Hs).
  destruct (Hrows s Hs Ha) as (ER & ES & EP).
  assert (Ls : length (succ_of m a s) = chunk_length m)
    by (apply (pf_uniform F); assumption).
  assert (Lp : length (prob_of m a s) = chunk_length m)
    by (apply (prob_chunk_length F); assumption).
  split; [exact ER |].
  unfold laid_out_succ, laid_out_prob, broadcast_to in ES, EP. fold a in ES, EP.
  rewrite Ls in ES. rewrite Lp in EP.
  split.
  - intro E. rewrite E, Nat.eqb_refl in ES, EP. auto.
  - intro E. apply Nat.eqb_neq in E. rewrite E in ES, EP. auto.
Qed.

Lemma policy_arrays_entries_witness :
  exists pol Rp Ps Pp,
    policy three_action_pi = Some pol /\
    _computePpolicyPRpolicy three_action_pi = Ok (Rp, Ps, Pp) /\
    forall s, (s < states three_action_pi)%nat ->
      let a := nth s pol 0%nat in
      nth s Rp 0 = reward_of three_action_pi a s /\
      (chunk_length three_action_pi = (A_ three_action_pi - 1)%nat ->
       nth s Ps [] = succ_of three_action_pi a s /\
       nth s Pp [] = prob_of three_action_pi a s) /\
      (chunk_length three_action_pi <> (A_ three_action_pi - 1)%nat ->
       nth s Ps [] = repeat (nth 0 (succ_of three_action_pi a s) 0%nat)
                            (A_ three_action_pi - 1) /\
       nth s Pp [] = repeat (nth 0 (prob_of three_action_pi a s) 0)
                            (A_ three_action_pi - 1)).
Proof.
  apply (policy_arrays_entries three_action_pi). reflexivity.
Defined.

(** ** The evaluation starts from zero *)

Lemma eval_loop_ignores_V (fuel : nat) (m : MDP) (w : list Q) (Rp : list Q)
      (Ps : list (list nat)) (Pp : list (list Q)) (eps : Q) (cap itr : nat) (v : list Q) :
  eval_loop fuel (set_V m w) Rp Ps Pp eps cap itr v
  = eval_loop fuel m Rp Ps Pp eps cap itr v.
Proof.
  revert itr v. induction fuel as [| f IH]; intros itr v; [reflexivity |].
  cbn [eval_loop].
  assert (Eb : eval_backup (set_V m w) Rp Ps Pp v = eval_backup m Rp Ps Pp v)
    by reflexivity.
  rewrite Eb.
  destruct (eval_backup m Rp Ps Pp v) as [v1 | e |]; cbn [bind]; try reflexivity.
  destruct (max_abs_diff v1 v) as [variation | e |]; cbn [bind]; try reflexivity.
  change (discount (set_V m w)) with (discount m).
  destruct (Qlt_bool _ _); [reflexivity |].
  destruct (Nat.eqb _ _); [reflexivity |]. apply IH.
Qed.

Lemma bind_ext {A B : Type} (r : result A) (k k' : A -> result B) :
  (forall a, k a = k' a) -> bind r k = bind r k'.
Proof. intro H. destruct r; simpl; [apply H | reflexivity | reflexivity]. Qed.

Lemma policy_rows_ignores_V (m : MDP) (w : list Q) (pol actions : list nat)
      (acc : list Q * list (list nat) * list (list Q)) :
  policy_rows (set_V m w) pol actions acc = policy_rows m pol actions acc.
Proof.
  revert acc. induction actions as [| aa rest IH]; intro acc; [reflexivity |].
  cbn [policy_rows]. destruct acc as [[Rp Ps] Pp].
  destruct (where_eq pol aa) as [| i ind]; [apply IH |].
  change (split_succ_s (set_V m w)) with (split_succ_s m).
  change (split_probability (set_V m w)) with (split_probability m).
  change (R (set_V m w)) with (R m).
  change (A_ (set_V m w)) with (A_ m).
  repeat (apply bind_ext; intro). apply IH.
Qed.

Lemma computePpolicy_ignores_V (m : MDP) (w : list Q) :
  _computePpolicyPRpolicy (set_V m w) = _computePpolicyPRpolicy m.
Proof.
  unfold _computePpolicyPRpolicy.
  change (A_ (set_V m w)) with (A_ m).
  change (states (set_V m w)) with (states m).
  change (split_succ_s (set_V m w)) with (split_succ_s m).
  change (split_probability (set_V m w)) with (split_probability m).
  change (get_policy (set_V m w)) with (get_policy m).
  repeat (apply bind_ext; intro). apply policy_rows_ignores_V.
Qed.

(** X15.  The evaluation of a policy does not read the value function
    of the solver: it starts from the zero vector, so the number of its
    iterations and the value function it leaves are the same whatever
    value function the solver held, also the one of the evaluation
    before. *)
Theorem evaluation_ignores_stored_V (m : MDP) (w w' : list Q) :
  _evalPolicyIterative (set_V m w) = _evalPolicyIterative (set_V m w').
Proof.
  unfold _evalPolicyIterative, _evalPolicyIterative_with. cbn [bind].
  rewrite !computePpolicy_ignores_V.
  destruct (_computePpolicyPRpolicy m) as [[[Rp Ps] Pp] | e |]; cbn [bind];
    [| reflexivity | reflexivity].
  rewrite !eval_loop_ignores_V.
  change (states (set_V m w)) with (states m).
  change (states (set_V m w')) with (states m).
  destruct (eval_loop _ m Rp Ps Pp _ _ _ _) as [[n v] | e |]; reflexivity.
Qed.

(** ** The Bellman operator is monotone *)

Lemma Qsum_map_le {T : Type} (f g : T -> Q) (l : list T) :
  (forall i, In i l -> f i <= g i) -> Qsum (map f l) <= Qsum (map g l).
Proof.
  induction l as [| x t IH]; intro H; simpl.
  - apply Qle_refl.
  - apply Qplus_le_compat; [apply H; left; reflexivity |].
    apply IH. intros i Hi. apply H. right. exact Hi.
Qed.

Lemma Qmult_le_nonneg_l (p x y : Q) : 0 <= p -> x <= y -> p * x <= p * y.
Proof.
  intros Hp Hxy. rewrite (Qmult_comm p x), (Qmult_comm p y).
  apply Qmult_le_compat_r; assumption.
Qed.

Lemma prob_of_nonneg (m : MDP) (a s i : nat) :
  nonneg_probabilities m = true -> 0 <= nth i (prob_of m a s) 0.
Proof.
  unfold nonneg_probabilities, prob_of. intro H.
  rewrite forallb_forall in H.
  destruct (nth_in_or_default a (split_probability m) []) as [Ha | Ha].
  - specialize (H _ Ha). rewrite forallb_forall in H.
    destruct (nth_in_or_default s (nth a (split_probability m) []) []) as [Hs | Hs].
    + specialize (H _ Hs). rewrite forallb_forall in H.
      destruct (nth_in_or_default i (nth s (nth a (split_probability m) []) []) 0)
        as [Hi | Hi].
      * apply Qle_bool_iff. apply H. exact Hi.
      * rewrite Hi. apply Qle_refl.
    + rewrite Hs. destruct i; apply Qle_refl.
  - rewrite Ha. destruct s; destruct i; apply Qle_refl.
Qed.

Lemma action_value_monotone (m : MDP) (v w : list Q) (s a : nat) :
  nonneg_probabilities m = true ->
  0 <= discount m ->
  (forall j, nth j v 0 <= nth j w 0) ->
  action_value m v s a <= action_value m w s a.
Proof.
  intros Hp Hd Hvw. unfold action_value.
  apply Qplus_le_compat; [apply Qle_refl |].
  apply Qmult_le_nonneg_l; [exact Hd |].
  apply Qsum_map_le. intros i _.
  apply Qmult_le_nonneg_l; [apply prob_of_nonneg; exact Hp | apply Hvw].
Qed.

Lemma max_of_monotone (f g : nat -> Q) (n : nat) :
  (1 <= n)%nat ->
  (forall a, (a < n)%nat -> f a <= g a) ->
  max_of (map f (seq 0 n)) <= max_of (map g (seq 0 n)).
Proof.
  intros Hn Hfg.
  assert (Hf : map f (seq 0 n) <> [])
    by (intro E; apply (f_equal (@length Q)) in E;
        rewrite length_map, length_seq in E; simpl in E; lia).
  assert (Hg : map g (seq 0 n) <> [])
    by (intro E; apply (f_equal (@length Q)) in E;
        rewrite length_map, length_seq in E; simpl in E; lia).
  destruct (amax_spec Hf) as (mf & Emf & Hin & _).
  rewrite (amax_total Hf) in Emf. injection Emf as <-.
  destruct (amax_spec Hg) as (mg & Emg & _ & Hub).
  rewrite (amax_total Hg) in Emg. injection Emg as <-.
  apply in_map_iff in Hin. destruct Hin as (a & <- & Ha). apply in_seq in Ha.
  apply (Qle_trans _ (g a)); [apply Hfg; lia |].
  apply Hub. apply in_map. apply in_seq. lia.
Qed.

(** X16.  The Bellman operator is monotone: on a well-formed solver
    state without negative probabilities or discount, a value function
    that is nowhere below another one is mapped to a value function
    that is nowhere below the image of the other. *)
Theorem bellman_operator_monotone (m : MDP) (v w : list Q) :
  mdp_wf m = true ->
  nonneg_probabilities m = true ->
  0 <= discount m ->
  length v = states m -> length w = states m ->
  (forall j, nth j v 0 <= nth j w 0) ->
  exists pv valv pw valw,
    _bellmanOperator m (Some v) = Ok (pv, valv) /\
    _bellmanOperator m (Some w) = Ok (pw, valw) /\
    forall s, (s < states m)%nat -> nth s valv 0 <= nth s valw 0.
Proof.
  intros Hwf Hp Hd Hv Hw Hvw. assert (W := mdp_wf_facts m Hwf).
  exists (greedy_policy m v), (backup m v), (greedy_policy m w), (backup m w).
  split; [apply bellman_given; assumption |].
  split; [apply bellman_given; assumption |].
  intros s Hs. unfold backup.
  rewrite (nth_map_seq (fun s => max_of (action_values m v s))) by exact Hs.
  rewrite (nth_map_seq (fun s => max_of (action_values m w s))) by exact Hs.
  unfold action_values. apply max_of_monotone; [apply (wf_A W) |].
  intros a _. apply action_value_monotone; assumption.
Qed.

Lemma bellman_operator_monotone_witness :
  exists pv valv pw valw,
    _bellmanOperator three_state_model (Some [0; 0; 0]) = Ok (pv, valv) /\
    _bellmanOperator three_state_model (Some [10; 10; 15]) = Ok (pw, valw) /\
    forall s, (s < states three_state_model)%nat -> nth s valv 0 <= nth s valw 0.
Proof.
  apply (bellman_operator_monotone three_state_model [0; 0; 0] [10; 10; 15]);
    try reflexivity.
  - discriminate.
  - intros [| [| [| [| j]]]]; simpl; discriminate.
Defined.

(** ** A sweep works in place *)

Lemma gs_sweep_spec (m : MDP) (v0 : list Q) (cnt k : nat) (v' : list Q) :
  gs_sweep m (seq k cnt) (final_prefix m v0 k) = Ok v' ->
  v' = final_prefix m v0 (k + cnt) /\
  ((0 < cnt)%nat -> (k + cnt <= length v0)%nat).
Proof.
  revert k. induction cnt as [| c IH]; intros k H.
  - simpl in H. injection H as <-. rewrite Nat.add_0_r. split; [reflexivity | lia].
  - cbn [seq gs_sweep] in H.
    apply bind_ok in H. destruct H as (Qs & HQs & H).
    apply bind_ok in H. destruct H as (mx & Hmx & H).
    apply bind_ok in H. destruct H as (v1 & Hv1 & H).
    apply q_state_ok_inv in HQs. subst Qs.
    apply amax_ok_inv in Hmx. destruct Hmx as [_ ->].
    apply setitem_ok in Hv1. destruct Hv1 as [-> Hk].
    rewrite final_prefix_length in Hk.
    change (update (final_prefix m v0 k) k
                   (max_of (action_values m (final_prefix m v0 k) k)))
      with (final_prefix m v0 (S k)) in H.
    apply IH in H. destruct H as (-> & Hc).
    split; [f_equal; lia |].
    intros _. destruct c as [| c']; [lia |].
    assert (0 < S c')%nat by lia. specialize (Hc H). lia.
Qed.

(** X17.  A sweep of the Gauss-Seidel loop over the states [0 .. n-1]
    works in place: the new entry of state [s] is the maximum of the
    action values computed from the value function in which the states
    before [s] already hold their new entries and the others their old
    ones; the entries of the states from [n] on are left as they were. *)
Theorem gs_sweep_in_place (m : MDP) (n : nat) (v v' : list Q) :
  gs_sweep m (seq 0 n) v = Ok v' ->
  length v' = length v /\
  (forall s, (s < n)%nat ->
     nth s v' 0 = max_of (action_values m (final_prefix m v s) s) /\
     (forall t, (t < s)%nat -> nth t (final_prefix m v s) 0 = nth t v' 0) /\
     (forall t, (s <= t)%nat -> nth t (final_prefix m v s) 0 = nth t v 0)) /\
  (forall t, (n <= t)%nat -> nth t v' 0 = nth t v 0).
Proof.
  intro H. change v with (final_prefix m v 0) in H.
  apply gs_sweep_spec in H. destruct H as (-> & Hbound). simpl.
  split; [apply final_prefix_length |]. split.
  - intros s Hs.
    assert (Hn : (n <= length v)%nat) by (apply Hbound; lia).
    split; [apply final_prefix_earlier; lia |]. split.
    + intros t Ht.
      rewrite (final_prefix_earlier m v (s := s) (t := t)) by lia.
      rewrite (final_prefix_earlier m v (s := n) (t := t)) by lia.
      reflexivity.
    + intros t Ht. apply final_prefix_later. exact Ht.
  - intros t Ht. apply final_prefix_later. exact Ht.
Qed.

Lemma gs_sweep_in_place_witness :
  length [10; 10; 15] = length (zeros 3) /\
  (forall t, (3 <= t)%nat -> nth t [10; 10; 15] 0 = nth t (zeros 3) 0).
Proof.
  assert (H : gs_sweep three_state_gs (seq 0 3) (zeros 3) = Ok [10; 10; 15])
    by (vm_compute; reflexivity).
  destruct (gs_sweep_in_place three_state_gs 3 (zeros 3) H) as (H1 & _ & H3).
  split; [exact H1 | exact H3].
Defined.

(** ** The starting policy of policy iteration *)

Lemma Qsum_zero {T : Type} (f : T -> Q) (l : list T) :
  (forall i, f i == 0) -> Qsum (map f l) == 0.
Proof.
  intro H. induction l as [| x t IH]; simpl; [reflexivity |].
  rewrite H, IH. reflexivity.
Qed.

Lemma nth_zeros (n j : nat) : nth j (zeros n) 0 = 0.
Proof.
  unfold zeros. revert j. induction n as [| n IH]; intros [| j]; simpl; auto.
Qed.

Lemma action_value_zeros (m : MDP) (n s a : nat) :
  action_value m (zeros n) s a == reward_of m a s.
Proof.
  unfold action_value.
  rewrite Qsum_zero.
  - ring.
  - intro i. rewrite nth_zeros. ring.
Qed.

(** X18.  Without a starting policy, the constructor of policy iteration
    starts from the policy that maximises the immediate reward: in every
    state the action of the policy has a reward that no action exceeds,
    and every action of a lower index has a strictly smaller one; the
    value function starts as the zero vector. *)
Theorem PI_init_maximises_immediate_reward (x : mdp_args) (m : MDP) :
  CpMdpPolicyIteration_init x None = Ok m ->
  mdp_wf m = true ->
  exists pol,
    policy m = Some pol /\ length pol = states m /\
    V m = Some (zeros (states m)) /\
    forall s, (s < states m)%nat ->
      (nth s pol 0%nat < A_ m)%nat /\
      (forall a, (a < A_ m)%nat -> reward_of m a s <= reward_of m (nth s pol 0%nat) s) /\
      (forall a, (a < nth s pol 0%nat)%nat ->
                 reward_of m a s < reward_of m (nth s pol 0%nat) s).
Proof.
  intros Hinit Hwf. unfold CpMdpPolicyIteration_init in Hinit.
  apply bind_ok in Hinit. destruct Hinit as (m0 & _ & H).
  apply bind_ok in H. destruct H as (m1 & Hm1 & H). injection H as <-.
  apply bind_ok in Hm1. destruct Hm1 as ([pol val] & Hbell & Hm1).
  injection Hm1 as <-.
  assert (Hwf0 : mdp_wf m0 = true) by exact Hwf.
  assert (W := mdp_wf_facts m0 Hwf0).
  rewrite (@bellman_given m0 (zeros (states m0)) W) in Hbell
    by (apply repeat_length).
  injection Hbell as <- _.
  exists (greedy_policy m0 (zeros (states m0))).
  split; [reflexivity |]. split; [exact (greedy_policy_length m0 _) |].
  split; [reflexivity |].
  intros s Hs. red_fields in Hs. red_fields.
  unfold greedy_policy.
  rewrite (nth_map_seq (fun s => first_max_index (action_values m0 (zeros (states m0)) s)))
    by exact Hs.
  assert (Hne : action_values m0 (zeros (states m0)) s <> [])
    by (apply action_values_nonempty; apply (wf_A W)).
  destruct (first_max_index_spec Hne) as (Hlt & Heq & Hge & Hfirst).
  rewrite action_values_length in Hlt, Hge.
  set (p := first_max_index (action_values m0 (zeros (states m0)) s)) in *.
  assert (Hnth : forall a, (a < A_ m0)%nat ->
                           nth a (action_values m0 (zeros (states m0)) s) 0
                           == reward_of m0 a s).
  { intros a Ha. unfold action_values.
    rewrite (nth_map_seq (action_value m0 (zeros (states m0)) s)) by exact Ha.
    apply action_value_zeros. }
  split; [exact Hlt |]. split.
  - intros a Ha.
    change (reward_of (set_V (set_policy m0 (greedy_policy m0 (zeros (states m0))))
                             (zeros (states m0))) a s) with (reward_of m0 a s).
    change (reward_of (set_V (set_policy m0 (greedy_policy m0 (zeros (states m0))))
                             (zeros (states m0))) p s) with (reward_of m0 p s).
    rewrite <- (Hnth a Ha), <- (Hnth p Hlt), <- Heq. apply Hge. exact Ha.
  - intros a Ha.
    change (reward_of (set_V (set_policy m0 (greedy_policy m0 (zeros (states m0))))
                             (zeros (states m0))) a s) with (reward_of m0 a s).
    change (reward_of (set_V (set_policy m0 (greedy_policy m0 (zeros (states m0))))
                             (zeros (states m0))) p s) with (reward_of m0 p s).
    assert (Ha' : (a < A_ m0)%nat) by lia.
    rewrite <- (Hnth a Ha'), <- (Hnth p Hlt), <- Heq. apply Hfirst. exact Ha.
Qed.

Lemma PI_init_maximises_immediate_reward_witness :
  exists pol,
    policy loose_epsilon_pi = Some pol /\ length pol = states loose_epsilon_pi /\
    V loose_epsilon_pi = Some (zeros (states loose_epsilon_pi)) /\
    forall s, (s < states loose_epsilon_pi)%nat ->
      (nth s pol 0%nat < A_ loose_epsilon_pi)%nat /\
      (forall a, (a < A_ loose_epsilon_pi)%nat ->
                 reward_of loose_epsilon_pi a s
                 <= reward_of loose_epsilon_pi (nth s pol 0%nat) s) /\
      (forall a, (a < nth s pol 0%nat)%nat ->
                 reward_of loose_epsilon_pi a s
                 < reward_of loose_epsilon_pi (nth s pol 0%nat) s).
Proof.
  apply (@PI_init_maximises_immediate_reward loose_epsilon_args loose_epsilon_pi).
  - vm_compute. reflexivity.
  - reflexivity.
Defined.

(** ** The constructor of the Gauss-Seidel solver *)

(** X19.  When the Gauss-Seidel constructor succeeds, the solver holds
    the given initial value function, or the zero vector, an iteration
    count of zero and no policy.  With a discount below 1 the threshold
    is [epsilon * (1 - discount) / discount] and [max_iter] is replaced
    by the ceiling of
    [log (epsilon * (1 - discount) / discount / span) / log (discount * k)],
    with [span] the non-zero span of the first backup's change and
    [k = 1 - 0]; with a discount of 1 the threshold is epsilon and
    [max_iter] stays as given. *)
Theorem GS_init_threshold_and_bound (log : Q -> Q) (x : mdp_args)
        (iv : option (list Q)) (m : MDP) :
  CpMdpValueIterationGS_init log x iv = Ok m ->
  let v0 := match iv with Some v => v | None => zeros (arg_states x) end in
  V m = Some v0 /\ length v0 = states m /\ iter m = 0%nat /\ policy m = None /\
  (arg_discount x < 1 ->
   thresh m = Some (arg_epsilon x * (1 - arg_discount x) / arg_discount x) /\
   exists d span,
     asub (backup m v0) v0 = Ok d /\ getSpan d = Ok span /\ ~ span == 0 /\
     max_iter m
     = Qceiling (log (arg_epsilon x * (1 - arg_discount x) / arg_discount x / span)
                 / log (arg_discount x * (1 - Qsum (zeros (states m)))))) /\
  (~ arg_discount x < 1 ->
   thresh m = Some (arg_epsilon x) /\ max_iter m = arg_max_iter x).
Proof.
  intro H. cbv zeta. unfold CpMdpValueIterationGS_init in H.
  apply bind_ok in H. destruct H as (m0 & Hinit & H).
  apply bind_ok in H. destruct H as (m1 & Hm1 & H).
  destruct (MDP_init_fields x Hinit)
    as (rw & _ & _ & Hstates & _ & Hdisc & Hmax & _ & _ & _ & _ & Hpol0 & Hiter0).
  assert (E1 : m1 = set_V m0 (match iv with Some v => v | None => zeros (arg_states x) end)
               /\ length (match iv with Some v => v | None => zeros (arg_states x) end)
                  = states m0).
  { destruct iv as [v |].
    - destruct (negb (Nat.eqb (length v) (states m0))) eqn:E; [discriminate |].
      injection Hm1 as <-. apply negb_false_iff in E. apply Nat.eqb_eq in E. auto.
    - injection Hm1 as <-. rewrite Hstates. split; [reflexivity | apply repeat_length]. }
  destruct E1 as [-> Hlen].
  set (v0 := match iv with Some v => v | None => zeros (arg_states x) end) in *.
  unfold init_threshold in H. red_fields in H.
  change (discount (set_V m0 v0)) with (discount m0) in H. rewrite Hdisc in H.
  destruct (Qlt_bool (arg_discount x) 1) eqn:Elt.
  - apply Qlt_bool_iff in Elt.
    apply bind_ok in H. destruct H as (m2 & Hb & H). injection H as <-.
    unfold _boundIter in Hb.
    apply bind_ok in Hb. destruct Hb as (Vprev & HVprev & Hb).
    injection HVprev as <-.
    apply bind_ok in Hb. destruct Hb as ([pol value] & Hbell & Hb).
    apply bind_ok in Hb. destruct Hb as (d & Hd & Hb).
    apply bind_ok in Hb. destruct Hb as (span & Hspan & Hb).
    destruct (Qeq_bool span 0) eqn:Es; [discriminate |].
    injection Hb as <-.
    destruct (@bellman_ok_inv (set_V m0 v0) v0 pol value eq_refl Hbell) as [_ ->].
    red_fields.
    split; [reflexivity |]. split; [exact Hlen |]. split; [exact Hiter0 |].
    split; [exact Hpol0 |]. split.
    + intros _. split.
      * change (discount (set_max_iter (set_V m0 v0) _)) with (discount m0).
        rewrite Hdisc. reflexivity.
      * exists d, span. split; [exact Hd |]. split; [exact Hspan |]. split.
        -- intro E. apply Qeq_bool_iff in E. congruence.
        -- change (discount (set_V m0 v0)) with (discount m0). rewrite Hdisc.
           reflexivity.
    + intro Hn. contradiction.
  - injection H as <-. red_fields.
    split; [reflexivity |]. split; [exact Hlen |]. split; [exact Hiter0 |].
    split; [exact Hpol0 |]. split.
    + intro Hlt. apply Qlt_bool_iff in Hlt. congruence.
    + intros _. split; [reflexivity | exact Hmax].
Qed.

Lemma GS_init_threshold_and_bound_witness :
  V three_state_gs = Some (zeros (arg_states three_state_args)) /\
  thresh three_state_gs = Some (arg_epsilon three_state_args) /\
  max_iter three_state_gs = arg_max_iter three_state_args.
Proof.
  assert (H : CpMdpValueIterationGS_init (fun _ => 0) three_state_args None
              = Ok three_state_gs) by (vm_compute; reflexivity).
  destruct (GS_init_threshold_and_bound _ _ _ H) as (HV & _ & _ & _ & _ & H1).
  split; [exact HV |]. apply H1. intro Hlt. discriminate Hlt.
Defined.
